(** * CatSort: the stacking-puzzle engine of [src/app/components/match/CatSort.tsx]

    A shallow embedding of the engine part of the [CatSort] React component
    (generation, group moves, undo, completion and stuck detection) together
    with the properties of its specification.

    Conventions of the embedding.
    - A [Stack] is a list whose head is the top box (index 0 in the source).
    - Component state ([useState] cells) is the record [Session]; every event
      handler is a function on sessions.  A handler that would raise a
      [TypeError] (property access on [undefined]) returns [None].
    - [setTimeout] callbacks are kept in the session as pending [Timeout]s
      holding the values their closure captured; the event [Tick] runs the
      oldest one.
    - [Math.random] is an explicit random source threaded through generation;
      its numbers are rationals of the interval [0, 1), the rounding of
      floating point is not modelled.  A generation that may raise or not
      end has an [Outcome]; recursion and loops without a bound of their own
      take fuel. *)

From stdpp Require Import base option list strings pretty gmap.
From Stdlib Require Import ZArith QArith Qround Lia.

Open Scope string_scope.
Open Scope list_scope.
Open Scope nat_scope.

(** ** Data model *)

Record Cat := mkCat {
  cat_id : string;
  cat_name : string;
  image : string;
  primaryColor : string;
  secondaryColor : option string
}.

(** The optional fields [isMoving] and [targetStack] of the source type are
    never written by the component and are left out. *)
Record CatBox := mkBox {
  box_id : string;
  cat : Cat
}.

(** [type Stack = CatBox[]] *)
Abbreviation Stack := (list CatBox).

#[global] Instance Cat_eq_dec : EqDecision Cat.
Proof. solve_decision. Defined.

#[global] Instance CatBox_eq_dec : EqDecision CatBox.
Proof. solve_decision. Defined.

(** [const MAX_STACK_SIZE = 4] *)
Definition MAX_STACK_SIZE : nat := 4.

(** The kind of a box is the id of its cat: every comparison of the source
    is [a.cat.id === b.cat.id]. *)
Definition kind (b : CatBox) : string := cat_id (cat b).

Definition sameKind (a b : CatBox) : bool := bool_decide (kind a = kind b).

(** ** [getMatchingTopBoxes] *)

(** The [for] loop of [getMatchingTopBoxes]: it pushes the boxes that match
    [topBox] and breaks at the first one that does not. *)
Fixpoint matchingLoop (topBox : CatBox) (rest : Stack) : Stack :=
  match rest with
  | [] => []
  | b :: rest' =>
      if sameKind b topBox then b :: matchingLoop topBox rest' else []
  end.

Definition getMatchingTopBoxes (stack : Stack) : Stack :=
  match stack with
  | [] => []
  | topBox :: rest => topBox :: matchingLoop topBox rest
  end.

(** ** Session state *)

Inductive Difficulty := easy | medium | hard.

#[global] Instance Difficulty_eq_dec : EqDecision Difficulty.
Proof. solve_decision. Defined.

(** An entry of the [moves] history: [{ from, to, count }]. *)
Record Move := mkMove {
  from : nat;
  to : nat;
  count : nat
}.

#[global] Instance Move_eq_dec : EqDecision Move.
Proof. solve_decision. Defined.

(** An entry of [animatingBoxes]: [{ id, fromStack, toStack }]. *)
Record AnimBox := mkAnimBox {
  anim_id : string;
  fromStack : nat;
  toStack : nat
}.

(** A pending [setTimeout] callback of [animateBoxMovement].  Its closure
    holds the [stacks] and [activeCats] of the render that created it and the
    two indices it was called with. *)
Record Timeout := mkTimeout {
  t_stacks : list Stack;
  t_activeCats : list Cat;
  t_from : nat;
  t_to : nat
}.

(** The [useState] cells of the component, the [onComplete] prop (only
    whether it was passed), the pending timeouts, and a count of the calls
    made to [onComplete] (the "puzzle solved" notification). *)
Record Session := mkSession {
  stacks : list Stack;
  selectedStackIndex : option nat;
  moveCount : Z;
  isComplete : bool;
  isLost : bool;
  moves : list Move;
  animatingBoxes : list AnimBox;
  isAnimating : bool;
  difficulty : Difficulty;
  activeCats : list Cat;
  onComplete : bool;
  timeouts : list Timeout;
  notified : nat
}.

Definition setStacks v s :=
  mkSession v (selectedStackIndex s) (moveCount s) (isComplete s) (isLost s)
    (moves s) (animatingBoxes s) (isAnimating s) (difficulty s) (activeCats s)
    (onComplete s) (timeouts s) (notified s).
Definition setSelectedStackIndex v s :=
  mkSession (stacks s) v (moveCount s) (isComplete s) (isLost s)
    (moves s) (animatingBoxes s) (isAnimating s) (difficulty s) (activeCats s)
    (onComplete s) (timeouts s) (notified s).
Definition setMoveCount v s :=
  mkSession (stacks s) (selectedStackIndex s) v (isComplete s) (isLost s)
    (moves s) (animatingBoxes s) (isAnimating s) (difficulty s) (activeCats s)
    (onComplete s) (timeouts s) (notified s).
Definition setIsComplete v s :=
  mkSession (stacks s) (selectedStackIndex s) (moveCount s) v (isLost s)
    (moves s) (animatingBoxes s) (isAnimating s) (difficulty s) (activeCats s)
    (onComplete s) (timeouts s) (notified s).
Definition setIsLost v s :=
  mkSession (stacks s) (selectedStackIndex s) (moveCount s) (isComplete s) v
    (moves s) (animatingBoxes s) (isAnimating s) (difficulty s) (activeCats s)
    (onComplete s) (timeouts s) (notified s).
Definition setMoves v s :=
  mkSession (stacks s) (selectedStackIndex s) (moveCount s) (isComplete s)
    (isLost s) v (animatingBoxes s) (isAnimating s) (difficulty s)
    (activeCats s) (onComplete s) (timeouts s) (notified s).
Definition setAnimatingBoxes v s :=
  mkSession (stacks s) (selectedStackIndex s) (moveCount s) (isComplete s)
    (isLost s) (moves s) v (isAnimating s) (difficulty s) (activeCats s)
    (onComplete s) (timeouts s) (notified s).
Definition setIsAnimating v s :=
  mkSession (stacks s) (selectedStackIndex s) (moveCount s) (isComplete s)
    (isLost s) (moves s) (animatingBoxes s) v (difficulty s) (activeCats s)
    (onComplete s) (timeouts s) (notified s).
Definition setDifficulty v s :=
  mkSession (stacks s) (selectedStackIndex s) (moveCount s) (isComplete s)
    (isLost s) (moves s) (animatingBoxes s) (isAnimating s) v (activeCats s)
    (onComplete s) (timeouts s) (notified s).
Definition setActiveCats v s :=
  mkSession (stacks s) (selectedStackIndex s) (moveCount s) (isComplete s)
    (isLost s) (moves s) (animatingBoxes s) (isAnimating s) (difficulty s) v
    (onComplete s) (timeouts s) (notified s).
(** Model-only cells: the timer queue and the notification count. *)
Definition setTimeouts v s :=
  mkSession (stacks s) (selectedStackIndex s) (moveCount s) (isComplete s)
    (isLost s) (moves s) (animatingBoxes s) (isAnimating s) (difficulty s)
    (activeCats s) (onComplete s) v (notified s).
Definition callOnComplete s :=
  mkSession (stacks s) (selectedStackIndex s) (moveCount s) (isComplete s)
    (isLost s) (moves s) (animatingBoxes s) (isAnimating s) (difficulty s)
    (activeCats s) (onComplete s) (timeouts s) (S (notified s)).

(** ** Plain objects used as maps *)

(** [catMap] and [catCounts] are plain objects ([{}]) indexed by cat ids.  A
    plain object inherits the members of [Object.prototype]: reading a key
    that is not an own property and names one of them gives that member (a
    function; for [__proto__], the prototype), not [undefined]. *)
Definition objectPrototypeMembers : list string :=
  [ "constructor"; "hasOwnProperty"; "isPrototypeOf"; "propertyIsEnumerable";
    "toLocaleString"; "toString"; "valueOf"; "__proto__";
    "__defineGetter__"; "__defineSetter__"; "__lookupGetter__";
    "__lookupSetter__" ].

(** What [obj[key]] reads. *)
Inductive Read (V : Type) :=
  | Undefined
  | Own (v : V)
  | Inherited.
Arguments Undefined {V}.
Arguments Own {V} v.
Arguments Inherited {V}.

(** The own properties of the object are the finite map [obj]. *)
Definition getProp {V} (key : string) (obj : gmap string V) : Read V :=
  match obj !! key with
  | Some v => Own v
  | None =>
      if bool_decide (key ∈ objectPrototypeMembers) then Inherited
      else Undefined
  end.

(** [obj[key] = v] for a number [v]: it creates or updates an own property,
    the inherited members being writable; the key [__proto__] is an accessor
    whose setter ignores a value that is neither an object nor [null]. *)
Definition setProp {V} (key : string) (v : V) (obj : gmap string V)
  : gmap string V :=
  if bool_decide (key = "__proto__") then obj else <[key := v]> obj.

(** ** [checkCompletion] *)

(** The callback of the first [every]: an empty stack is fine, otherwise all
    boxes must have the cat of [stack[0]]. *)
Definition stackValid (stack : Stack) : bool :=
  match stack with
  | [] => true
  | first :: _ => forallb (λ box, sameKind box first) stack
  end.

(** [catMap] after [activeCats.forEach(cat => catMap[cat.id] = 0)]. *)
Definition initCatMap (cats : list Cat) : gmap string Z :=
  foldl (λ catMap c, setProp (cat_id c) 0%Z catMap) ∅ cats.

(** The callback of [currentStacks.forEach] that fills [catMap]:
    [catMap[stackcatId] !== undefined] holds of an own entry and of an
    inherited member, and an inherited member is not [=== MAX_STACK_SIZE]. *)
Definition countStack (catMap : gmap string Z) (stack : Stack)
  : gmap string Z :=
  match stack with
  | [] => catMap
  | first :: _ =>
      let stackcatId := kind first in
      match getProp stackcatId catMap with
      | Undefined => catMap
      | Own n =>
          if bool_decide (n = Z.of_nat MAX_STACK_SIZE)
          then setProp stackcatId (-1)%Z catMap
          else setProp stackcatId (Z.of_nat (length stack)) catMap
      | Inherited => setProp stackcatId (Z.of_nat (length stack)) catMap
      end
  end.

Definition catMapOf (cats : list Cat) (currentStacks : list Stack)
  : gmap string Z :=
  foldl countStack (initCatMap cats) currentStacks.

(** [Object.values(catMap).every(count => count === MAX_STACK_SIZE)] *)
Definition allcatsComplete (catMap : gmap string Z) : bool :=
  forallb (λ kv, bool_decide (kv.2 = Z.of_nat MAX_STACK_SIZE))
          (map_to_list catMap).

(** The value [checkCompletion] returns, as a function of the captured
    [activeCats] and of its argument. *)
Definition completionOf (cats : list Cat) (currentStacks : list Stack) : bool :=
  let eachStackValid := forallb stackValid currentStacks in
  if negb eachStackValid then false
  else eachStackValid && allcatsComplete (catMapOf cats currentStacks).

(** [checkCompletion] with its effects: it stores the result in [isComplete]
    and, when the board is complete and the prop is there, calls
    [onComplete]. *)
Definition checkCompletion (cats : list Cat) (currentStacks : list Stack)
    (s : Session) : Session * bool :=
  let complete := completionOf cats currentStacks in
  let s1 := setIsComplete complete s in
  (if complete && onComplete s then callOnComplete s1 else s1, complete).

(** ** [checkForValidMoves] *)

(** A [for] loop whose body may [return true] (Some true), go on to the next
    round (Some false) or raise (None). *)
Fixpoint anyM {A} (body : A → option bool) (l : list A) : option bool :=
  match l with
  | [] => Some false
  | x :: l' =>
      match body x with
      | None => None
      | Some true => Some true
      | Some false => anyM body l'
      end
  end.

(** The array with its indices, as the counting [for] loops walk it. *)
Definition indexed {A} (l : list A) : list (nat * A) := imap (λ i x, (i, x)) l.

(** The body of the inner loop over destination stacks. *)
Definition destBody (fromStackIndex : nat) (matchingBoxes : Stack)
    (d : nat * Stack) : option bool :=
  let '(toStackIndex, destStack) := d in
  if bool_decide (fromStackIndex = toStackIndex) then Some false
  else if length destStack + length matchingBoxes <=? MAX_STACK_SIZE then
    match destStack with
    | [] => Some true
    | destTop :: _ =>
        match matchingBoxes with
        | [] => None
        | top :: _ => Some (sameKind destTop top)
        end
    end
  else Some false.

(** The body of the outer loop over source stacks. *)
Definition sourceBody (currentStacks : list Stack) (f : nat * Stack)
  : option bool :=
  let '(fromStackIndex, sourceStack) := f in
  match sourceStack with
  | [] => Some false
  | _ :: _ =>
      anyM (destBody fromStackIndex (getMatchingTopBoxes sourceStack))
           (indexed currentStacks)
  end.

(** The callback of [currentStacks.some]: [stack.length === 0]. *)
Definition isEmptyStack (stack : Stack) : bool :=
  bool_decide (length stack = 0).

Definition checkForValidMoves (currentStacks : list Stack) : option bool :=
  if existsb isEmptyStack currentStacks
  then Some true
  else anyM (sourceBody currentStacks) (indexed currentStacks).

(** ** [animateBoxMovement] and its timeout *)

Definition animateBoxMovement (boxIds : list string)
    (fromStackIndex toStackIndex : nat) (s : Session) : Session :=
  let s := setIsAnimating true s in
  let s := setAnimatingBoxes
             ((λ id, mkAnimBox id fromStackIndex toStackIndex) <$> boxIds) s in
  setTimeouts
    (timeouts s ++ [mkTimeout (stacks s) (activeCats s)
                              fromStackIndex toStackIndex]) s.

(** The board the callback builds from the [stacks] it captured: the
    matching top group of the source is cut off and put in front of the
    destination.  Reading a stack that is not there raises. *)
Definition movedStacks (captured : list Stack)
    (fromStackIndex toStackIndex : nat) : option (list Stack) :=
  sourceStack ← captured !! fromStackIndex;
  let matchingBoxes := getMatchingTopBoxes sourceStack in
  let newStacks :=
    <[fromStackIndex := drop (length matchingBoxes) sourceStack]> captured in
  destStack ← newStacks !! toStackIndex;
  Some (<[toStackIndex := matchingBoxes ++ destStack]> newStacks).

(** The [setTimeout] callback. *)
Definition runTimeout (t : Timeout) (s : Session) : option Session :=
  newStacks ← movedStacks (t_stacks t) (t_from t) (t_to t);
  let s := setStacks newStacks s in
  let s := setAnimatingBoxes [] s in
  let s := setIsAnimating false s in
  let '(s, isGameComplete) := checkCompletion (t_activeCats t) newStacks s in
  if isGameComplete then Some s
  else
    match checkForValidMoves newStacks with
    | None => None
    | Some hasValidMoves => Some (if hasValidMoves then s else setIsLost true s)
    end.

(** ** [handleStackClick] *)

(** The test [destTopBox.cat.id !== matchingBoxes[0].cat.id] made when the
    destination is not empty; [matchingBoxes[0]] is [undefined] for an empty
    group, and reading its [cat] raises. *)
Definition topMismatch (destinationStack matchingBoxes : Stack)
  : option bool :=
  match destinationStack with
  | [] => Some false
  | destTopBox :: _ =>
      match matchingBoxes with
      | [] => None
      | top :: _ => Some (negb (sameKind destTopBox top))
      end
  end.

Definition handleStackClick (stackIndex : nat) (s : Session) : option Session :=
  if isComplete s || isLost s || isAnimating s then Some s
  else
    match selectedStackIndex s with
    | None =>
        clicked ← stacks s !! stackIndex;
        Some (if 0 <? length clicked
              then setSelectedStackIndex (Some stackIndex) s else s)
    | Some fromStackIndex =>
        if bool_decide (fromStackIndex = stackIndex)
        then Some (setSelectedStackIndex None s)
        else
          sourceStack ← stacks s !! fromStackIndex;
          let matchingBoxes := getMatchingTopBoxes sourceStack in
          destinationStack ← stacks s !! stackIndex;
          if length destinationStack + length matchingBoxes <=? MAX_STACK_SIZE
          then
            match topMismatch destinationStack matchingBoxes with
            | None => None
            | Some true => Some (setSelectedStackIndex None s)
            | Some false =>
                let s := setMoveCount (moveCount s + 1)%Z s in
                let s := setMoves
                           (moves s ++ [mkMove fromStackIndex stackIndex
                                               (length matchingBoxes)]) s in
                let s := animateBoxMovement (box_id <$> matchingBoxes)
                           fromStackIndex stackIndex s in
                Some (setSelectedStackIndex None s)
            end
          else Some (setSelectedStackIndex None s)
    end.

(** ** [undoMove] *)

Definition undoMove (s : Session) : option Session :=
  if bool_decide (length (moves s) = 0) || isComplete s || isAnimating s
  then Some s
  else
    lastMove ← moves s !! (length (moves s) - 1);
    target ← stacks s !! to lastMove;
    let boxesToMoveBack := take (count lastMove) target in
    let s := animateBoxMovement (box_id <$> boxesToMoveBack)
               (to lastMove) (from lastMove) s in
    let s := setMoveCount (moveCount s - 1)%Z s in
    let s := setMoves (take (length (moves s) - 1) (moves s)) s in
    let s := setIsComplete false s in
    Some (setIsLost false s).

(** ** Events *)

(** What can happen to a mounted component between two renders: a click on a
    stack, a click on Undo, or the oldest pending timeout firing. *)
Inductive Event :=
  | Click (stackIndex : nat)
  | UndoClick
  | Tick.

Definition step (e : Event) (s : Session) : option Session :=
  match e with
  | Click stackIndex => handleStackClick stackIndex s
  | UndoClick => undoMove s
  | Tick =>
      match timeouts s with
      | [] => Some s
      | t :: rest => runTimeout t (setTimeouts rest s)
      end
  end.

Fixpoint run (es : list Event) (s : Session) : option Session :=
  match es with
  | [] => Some s
  | e :: es' => s' ← step e s; run es' s'
  end.

(** ** The random source and the effects of generation *)

(** A seeded random source: [gen] maps the current seed to the next number
    and the next seed. *)
Record Rng := mkRng {
  seed : nat;
  gen : nat → Q * nat
}.

(** How a computation that draws random numbers ends: with a value, with a
    [TypeError], or not at all within the fuel it was given. *)
Inductive Outcome (A : Type) :=
  | Returned (a : A)
  | Raised
  | Diverged.
Arguments Returned {A} a.
Arguments Raised {A}.
Arguments Diverged {A}.

Definition Gen (A : Type) : Type := Rng → Outcome (A * Rng).

Definition ret {A} (a : A) : Gen A := λ g, Returned (a, g).

Definition raise {A} : Gen A := λ _, Raised.

Definition diverge {A} : Gen A := λ _, Diverged.

Definition bind {A B} (m : Gen A) (k : A → Gen B) : Gen B :=
  λ g, match m g with
       | Returned (a, g') => k a g'
       | Raised => Raised
       | Diverged => Diverged
       end.

Notation "'let*' x ':=' m 'in' k" := (bind m (λ x, k))
  (at level 10, x name, m at level 100, k at level 200).

(** A read [a[i]] whose result is dereferenced at once. *)
Definition defined {A} (o : option A) : Gen A :=
  match o with Some a => ret a | None => raise end.

Definition Qltb (a b : Q) : bool := negb (Qle_bool b a).

(** [Math.random()]: whatever the source hands out is read as a number of
    the interval [0, 1). *)
Definition random : Gen Q :=
  λ g, let '(q, seed') := gen g (seed g) in
       Returned (if Qle_bool 0 q && Qltb q 1 then q else 0%Q,
                 mkRng seed' (gen g)).

(** [Math.floor(Math.random() * n)] *)
Definition randomIndex (n : nat) : Gen nat :=
  let* q := random in
  ret (Z.to_nat (Qfloor (q * inject_Z (Z.of_nat n)))).

(** [Math.random() < p] *)
Definition randomBelow (p : Q) : Gen bool :=
  let* q := random in ret (Qltb q p).

(** A counting [for] loop with a body that draws random numbers. *)
Fixpoint forEachM {S} (body : nat → S → Gen S) (indices : list nat) (st : S)
  : Gen S :=
  match indices with
  | [] => ret st
  | i :: rest => let* st' := body i st in forEachM body rest st'
  end.

(** ** [Array.prototype.sort] with a comparator *)

(** The comparator is called with two elements and returns a number; only
    its sign matters.  The order in which an engine calls it is
    implementation-defined: the model is a stable straight insertion, each
    element being inserted behind the elements the comparator does not put
    after it. *)
Section sort.
Context {A : Type} (compareFn : A → A → Gen Q).

Fixpoint insertM (x : A) (sorted : list A) : Gen (list A) :=
  match sorted with
  | [] => ret [x]
  | y :: rest =>
      let* v := compareFn y x in
      if Qltb 0 v then ret (x :: y :: rest)
      else let* rest' := insertM x rest in ret (y :: rest')
  end.

Fixpoint sortLoop (sorted todo : list A) : Gen (list A) :=
  match todo with
  | [] => ret sorted
  | x :: todo' => let* sorted' := insertM x sorted in sortLoop sorted' todo'
  end.

Definition sortM (l : list A) : Gen (list A) := sortLoop [] l.
End sort.

(** [() => Math.random() - 0.5] *)
Definition randomOrder {A} (_ _ : A) : Gen Q :=
  let* q := random in ret (q - (1 # 2))%Q.

(** [(a, b) => a.cat.id.localeCompare(b.cat.id)], read as the comparison of
    the two ids as strings. *)
Definition byCatId (a b : CatBox) : Gen Q :=
  ret (match String.compare (kind a) (kind b) with
       | Lt => (-1)%Q
       | Eq => 0%Q
       | Gt => 1%Q
       end).

(** ** The catalog and [shuffleArray] *)

Definition catNames : list string :=
  ["Whiskers"; "Mittens"; "Fluffy"; "Shadow"; "Luna"; "Oliver"; "Leo";
   "Bella"].
Definition primaryColors : list string :=
  ["#f39c12"; "#3498db"; "#2ecc71"; "#9b59b6"; "#e74c3c"; "#1abc9c";
   "#f1c40f"; "#34495e"].
Definition secondaryColors : list string :=
  ["#e67e22"; "#2980b9"; "#27ae60"; "#8e44ad"; "#c0392b"; "#16a085";
   "#f39c12"; "#2c3e50"].

(** [Array(8).fill(null).map((_, i) => ...)]; numbers print in decimal. *)
Definition placeholderCats : list Cat :=
  (λ i, mkCat ("cat-" +:+ pretty i)
              (default "" (catNames !! i))
              ("https://placecats.com/64/" +:+ pretty (64 + i))
              (default "" (primaryColors !! i))
              (secondaryColors !! i)) <$> seq 0 8.

(** The Fisher-Yates loop, [i] counting down to 1. *)
Fixpoint shuffleLoop {A} (i : nat) (shuffled : list A) : Gen (list A) :=
  match i with
  | 0 => ret shuffled
  | S i' =>
      let* j := randomIndex (i + 1) in
      let* xi := defined (shuffled !! i) in
      let* xj := defined (shuffled !! j) in
      shuffleLoop i' (<[j := xi]> (<[i := xj]> shuffled))
  end.

Definition shuffleArray {A} (array : list A) : Gen (list A) :=
  shuffleLoop (length array - 1) array.

(** ** Difficulty profiles *)

Module Config.
Record t := mk {
  cats : nat;
  stacks : nat;
  emptyStacks : nat;
  breakupProbability : Q
}.
End Config.

Definition DIFFICULTY_CONFIG (d : Difficulty) : Config.t :=
  match d with
  | easy => Config.mk 4 6 2 (1 # 10)
  | medium => Config.mk 6 8 2 (3 # 10)
  | hard => Config.mk 8 10 2 (5 # 10)
  end.

(** ** [initializeGame] *)

(** "Create boxes (4 of each cat)" *)
Definition boxesOf (c : Cat) : list CatBox :=
  (λ i, mkBox (cat_id c +:+ "-" +:+ pretty i) c) <$> seq 0 MAX_STACK_SIZE.

Definition createBoxes (availableCats : list Cat) : list CatBox :=
  availableCats ≫= boxesOf.

(** [idx = findIndex(b => b.id === id); if (idx !== -1) splice(idx, 1)] *)
Fixpoint removeById (id : string) (boxes : list CatBox) : list CatBox :=
  match boxes with
  | [] => []
  | b :: rest =>
      if bool_decide (box_id b = id) then rest else b :: removeById id rest
  end.

(** The loop that groups some boxes of one cat in front; [rounds] counts the
    rounds left of [preMatchedPairs]. *)
Fixpoint preMatch (rounds : nat) (organizedBoxes remainingBoxes : list CatBox)
  : Gen (list CatBox * list CatBox) :=
  match rounds with
  | 0 => ret (organizedBoxes, remainingBoxes)
  | S rounds' =>
      if bool_decide (0 < length remainingBoxes) then
        let* boxIndex := randomIndex (length remainingBoxes) in
        let* picked := defined (remainingBoxes !! boxIndex) in
        let catId := kind picked in
        let samecatBoxes :=
          filter (λ box, kind box = catId) remainingBoxes in
        let pairSize := 3 `min` length samecatBoxes in
        let selectedBoxes := take pairSize samecatBoxes in
        preMatch rounds' (organizedBoxes ++ selectedBoxes)
          (foldl (λ remaining box, removeById (box_id box) remaining)
                 remainingBoxes selectedBoxes)
      else ret (organizedBoxes, remainingBoxes)
  end.

(** [Math.min(MAX_STACK_SIZE, Math.ceil(n / filledStacks))]; the value is
    not used when [filledStacks] is 0. *)
Definition boxesPerStackOf (n filledStacks : nat) : nat :=
  MAX_STACK_SIZE `min` ((n + filledStacks - 1) / filledStacks).

(** "First attempt": stack [i] receives the boxes [i * boxesPerStack + j],
    [j < boxesPerStack], that exist. *)
Definition fillStacks (filledStacks boxesPerStack : nat)
    (mixedBoxes : list CatBox) : list Stack :=
  (λ i, take boxesPerStack (drop (i * boxesPerStack) mixedBoxes))
    <$> seq 0 filledStacks.

(** The [while] loop that deals the leftover boxes; [fuel] bounds its
    rounds. *)
Fixpoint leftoverLoop (fuel filledStacks : nat) (newStacks : list Stack)
    (leftoverBoxes : list CatBox) (stackIndex : nat) : Gen (list Stack) :=
  match leftoverBoxes with
  | [] => ret newStacks
  | box :: rest =>
      if bool_decide (stackIndex < filledStacks) then
        match fuel with
        | 0 => diverge
        | S fuel' =>
            let* stack := defined (newStacks !! stackIndex) in
            if bool_decide (length stack < MAX_STACK_SIZE) then
              leftoverLoop fuel' filledStacks
                (<[stackIndex := stack ++ [box]]> newStacks) rest
                ((stackIndex + 1) mod filledStacks)
            else
              leftoverLoop fuel' filledStacks newStacks leftoverBoxes
                ((stackIndex + 1) mod filledStacks)
        end
      else ret newStacks
  end.

(** [temp = s[i][j]; s[i][j] = s[r][k]; s[r][k] = temp].  When [s[r][k]] is
    not there the source stores [undefined] in [s[i][j]]; nothing removes it
    again and the post-condition scan, which reads [box.cat] of every box,
    then raises before any state is set: the model raises at once. *)
Definition swapBoxes (i j r k : nat) (newStacks : list Stack)
  : Gen (list Stack) :=
  let* stackI := defined (newStacks !! i) in
  let* temp := defined (stackI !! j) in
  let* stackR := defined (newStacks !! r) in
  let* other := defined (stackR !! k) in
  let newStacks := <[i := <[j := other]> stackI]> newStacks in
  let* stackR := defined (newStacks !! r) in
  ret (<[r := <[k := temp]> stackR]> newStacks).

(** Easy mode: each filled stack is sorted by cat with probability 0.7. *)
Definition groupStack (i : nat) (newStacks : list Stack) : Gen (list Stack) :=
  let* group := randomBelow (7 # 10) in
  if group then
    let* stack := defined (newStacks !! i) in
    let* sorted := sortM byCatId stack in
    ret (<[i := sorted]> newStacks)
  else ret newStacks.

(** [(i + 1 + Math.floor(Math.random() * (filledStacks - 1))) % filledStacks] *)
Definition randomOtherStack (i filledStacks : nat) : Gen nat :=
  let* offset := randomIndex (filledStacks - 1) in
  ret ((i + 1 + offset) mod filledStacks).

(** Medium and hard mode, step 1: shuffle the stack; a full stack of one cat
    swaps its top box with a random box of another stack. *)
Definition unsortStack (filledStacks : nat) (i : nat) (newStacks : list Stack)
  : Gen (list Stack) :=
  let* stack := defined (newStacks !! i) in
  let* shuffled := sortM randomOrder stack in
  let newStacks := <[i := shuffled]> newStacks in
  match shuffled with
  | [] => ret newStacks
  | first :: _ =>
      let allSamecat := forallb (λ box, sameKind box first) shuffled in
      if allSamecat && bool_decide (length shuffled = MAX_STACK_SIZE) then
        let* randomStackIndex := randomOtherStack i filledStacks in
        let* randomStack := defined (newStacks !! randomStackIndex) in
        let* randomBoxIndex := randomIndex (length randomStack) in
        swapBoxes i 0 randomStackIndex randomBoxIndex newStacks
      else ret newStacks
  end.

(** Step 2, one round of the inner loop: two consecutive boxes of one cat
    are broken up with probability [breakupProbability]. *)
Definition breakPair (filledStacks : nat) (breakupProbability : Q)
    (i j : nat) (newStacks : list Stack) : Gen (list Stack) :=
  let* stack := defined (newStacks !! i) in
  let* box := defined (stack !! j) in
  let* above := defined (stack !! (j - 1)) in
  if sameKind box above then
    let* break := randomBelow breakupProbability in
    if break then
      let* randomStackIndex := randomOtherStack i filledStacks in
      let* randomStack := defined (newStacks !! randomStackIndex) in
      if bool_decide (0 < length randomStack) then
        let* randomBoxIndex := randomIndex (length randomStack) in
        swapBoxes i j randomStackIndex randomBoxIndex newStacks
      else ret newStacks
    else ret newStacks
  else ret newStacks.

(** Step 2, the inner loop over [j = 1 .. length - 1] of stack [i]; the
    swaps keep the length of every stack. *)
Definition breakStack (filledStacks : nat) (breakupProbability : Q)
    (i : nat) (newStacks : list Stack) : Gen (list Stack) :=
  let* stack := defined (newStacks !! i) in
  forEachM (breakPair filledStacks breakupProbability i)
           (seq 1 (length stack - 1)) newStacks.

(** The callback of the inner [forEach] of the scan.  A count is a number,
    [None] standing for [NaN].  [!catCounts[id]] holds of [undefined], [0]
    and [NaN] and not of an inherited member; [catCounts[id]++] converts the
    old value to a number, [NaN] for an inherited member. *)
Definition countBox (catCounts : gmap string (option nat)) (box : CatBox)
  : gmap string (option nat) :=
  let id := kind box in
  let catCounts :=
    match getProp id catCounts with
    | Undefined | Own None | Own (Some 0) => setProp id (Some 0) catCounts
    | Own (Some (S _)) | Inherited => catCounts
    end in
  match getProp id catCounts with
  | Own (Some n) => setProp id (Some (S n)) catCounts
  | Own None | Inherited | Undefined => setProp id None catCounts
  end.

(** [catCounts] after the scan of all stacks. *)
Definition countCats (newStacks : list Stack) : gmap string (option nat) :=
  foldl countBox ∅ (concat newStacks).

Definition oversizedStacks (newStacks : list Stack) : bool :=
  existsb (λ stack, bool_decide (MAX_STACK_SIZE < length stack)) newStacks.

(** [Object.values(catCounts).some(count => count > MAX_STACK_SIZE)];
    [NaN > MAX_STACK_SIZE] is false. *)
Definition tooManyBoxesOfOnecat (newStacks : list Stack) : bool :=
  existsb (λ kv, match kv.2 with
                 | Some count => bool_decide (MAX_STACK_SIZE < count)
                 | None => false
                 end)
          (map_to_list (countCats newStacks)).

(** One pass of [initializeGame] up to the post-condition check: the board
    it builds. *)
Definition buildStacks (fuel : nat) (d : Difficulty)
    (availableCats : list Cat) (config : Config.t) : Gen (list Stack) :=
  let allBoxes := createBoxes availableCats in
  let* shuffledBoxes := sortM randomOrder allBoxes in
  (* a negative difference behaves as 0: no loop over filled stacks runs *)
  let filledStacks := Config.stacks config - Config.emptyStacks config in
  let boxesPerStack := boxesPerStackOf (length allBoxes) filledStacks in
  let preMatchedPairs :=
    match d with easy => 4 | medium => 3 | hard => 2 end in
  let* groups := preMatch preMatchedPairs [] shuffledBoxes in
  let mixedBoxes := groups.1 ++ groups.2 in
  let newStacks := fillStacks filledStacks boxesPerStack mixedBoxes in
  let leftoverBoxes := drop (filledStacks * boxesPerStack) mixedBoxes in
  let* newStacks :=
    leftoverLoop fuel filledStacks newStacks leftoverBoxes 0 in
  let newStacks := newStacks ++ replicate (Config.emptyStacks config) [] in
  let* newStacks :=
    match d with
    | easy => forEachM groupStack (seq 0 filledStacks) newStacks
    | _ => forEachM (unsortStack filledStacks) (seq 0 filledStacks) newStacks
    end in
  forEachM (breakStack filledStacks (Config.breakupProbability config))
           (seq 0 filledStacks) newStacks.

(** The state [initializeGame] sets when the board passed the check. *)
Definition startGame (newStacks : list Stack) (s : Session) : Session :=
  setIsAnimating false
    (setAnimatingBoxes []
       (setMoves []
          (setIsLost false
             (setIsComplete false
                (setMoveCount 0%Z
                   (setSelectedStackIndex None
                      (setStacks newStacks s))))))).

(** [initializeGame(availableCats, config)]: [fuel] bounds the number of
    nested calls (and, in each, the rounds of the leftover loop); the source
    has no such bound. *)
Fixpoint initializeGame (fuel : nat) (availableCats : list Cat)
    (config : Config.t) (s : Session) : Gen Session :=
  match fuel with
  | 0 => diverge
  | S fuel' =>
      if bool_decide (length availableCats = 0) then ret s
      else
        let* newStacks :=
          buildStacks fuel' (difficulty s) availableCats config in
        if oversizedStacks newStacks || tooManyBoxesOfOnecat newStacks
        then initializeGame fuel' availableCats config s
        else ret (startGame newStacks s)
  end.

(** ** Mounting, difficulty change and reset *)

(** The state of the first render. *)
Definition initialSession (initialDifficulty : Difficulty)
    (onCompleteProp : bool) : Session :=
  mkSession [] None 0%Z false false [] [] false initialDifficulty []
            onCompleteProp [] 0.

(** The effect that runs after the first render and after each change of
    [difficulty]: [loading] is never set. *)
Definition difficultyEffect (fuel : nat) (s : Session) : Gen Session :=
  let config := DIFFICULTY_CONFIG (difficulty s) in
  let* shuffledCats := shuffleArray placeholderCats in
  let gameCats := take (Config.cats config) shuffledCats in
  initializeGame fuel gameCats config (setActiveCats gameCats s).

Definition mount (fuel : nat) (initialDifficulty : Difficulty)
    (onCompleteProp : bool) : Gen Session :=
  difficultyEffect fuel (initialSession initialDifficulty onCompleteProp).

(** [handleSetDifficulty]; the effect runs only when the value changes. *)
Definition handleSetDifficulty (fuel : nat) (newDifficulty : Difficulty)
    (s : Session) : Gen Session :=
  if bool_decide (newDifficulty = difficulty s) then ret s
  else difficultyEffect fuel (setDifficulty newDifficulty s).

Definition handleReset (fuel : nat) (s : Session) : Gen Session :=
  if isAnimating s then ret s
  else
    let config := DIFFICULTY_CONFIG (difficulty s) in
    let* shuffledCats := shuffleArray placeholderCats in
    let newCats := take (Config.cats config) shuffledCats in
    initializeGame fuel newCats config (setActiveCats newCats s).

(** ** Sessions that can arise *)

(** The sessions a mounted component can be in: the one the mount effect
    produces, and those that follow by a click on a stack, on Undo, on Reset
    or on a difficulty button (disabled while an animation runs), or by a
    timeout firing. *)
Inductive reachable : Session → Prop :=
  | reach_mount fuel d onCompleteProp g s g' :
      mount fuel d onCompleteProp g = Returned (s, g') → reachable s
  | reach_step s e s' :
      reachable s → step e s = Some s' → reachable s'
  | reach_difficulty fuel d s g s' g' :
      reachable s → isAnimating s = false →
      handleSetDifficulty fuel d s g = Returned (s', g') → reachable s'
  | reach_reset fuel s g s' g' :
      reachable s → handleReset fuel s g = Returned (s', g') → reachable s'.

(** At most one timeout is pending, and only while an animation runs; no
    session is animating and complete at once. *)
Definition timerDiscipline (s : Session) : Prop :=
  timeouts s = []
  ∨ (isAnimating s = true ∧ isComplete s = false ∧ length (timeouts s) = 1).

(** A sample random source, a linear congruential generator modulo 1009,
    for the worked examples. *)
Definition demoRng : Rng :=
  mkRng 1 (λ seed, let seed' := (37 * seed + 11) mod 1009 in
                   ((Z.of_nat seed' # 1009)%Q, seed')).

(** The session the mount effect produces in easy mode from [demoRng], with
    an [onComplete] prop. *)
Definition demoSession : Session :=
  Eval vm_compute in
    match mount 2 easy true demoRng with
    | Returned (s, _) => s
    | _ => initialSession easy true
    end.

(** The ids of the boxes of a board, stack by stack. *)
Definition boardIds (board : list Stack) : list (list string) :=
  fmap (M := list) (fmap (M := list) box_id) board.

(** A small hand-made position: two cats, four stacks, stack 0 selected. *)
Definition sampleCats : list Cat := take 2 placeholderCats.

Definition sampleBox (c i : nat) : CatBox :=
  mkBox ("cat-" +:+ pretty c +:+ "-" +:+ pretty i)
        (default (mkCat "" "" "" "" None) (placeholderCats !! c)).

Definition sampleBoard : list Stack :=
  [ [sampleBox 0 0; sampleBox 0 1; sampleBox 1 0];
    [sampleBox 1 1; sampleBox 1 2; sampleBox 1 3];
    [];
    [sampleBox 0 2; sampleBox 0 3] ].

Definition sampleSession : Session :=
  mkSession sampleBoard (Some 0) 0%Z false false [] [] false easy sampleCats
            true [] 0.





(** A solved position of the two sample cats. *)
Definition solvedBoard : list Stack :=
  [ []; boxesOf (default (mkCat "" "" "" "" None) (sampleCats !! 1));
    boxesOf (default (mkCat "" "" "" "" None) (sampleCats !! 0)) ].

(** ** Vocabulary of the specification *)

(** The session takes input: the guard of [handleStackClick] lets a click
    through. *)
Definition playing (s : Session) : Prop :=
  isComplete s = false ∧ isLost s = false ∧ isAnimating s = false.

(** The legality predicate of the specification's [tryMove], in its words:
    [board[to].length + group.length ≤ CAPACITY] and ([board[to]] is empty or
    the kind of its top is the kind of the group). *)
Definition legalPlacement (group dest : Stack) : Prop :=
  length dest + length group ≤ MAX_STACK_SIZE
  ∧ (dest = [] ∨ kind <$> dest !! 0 = kind <$> group !! 0).

(** A legal move of the specification: two different stacks of the board, a
    source that is not empty, and a legal placement of its top group. *)
Definition legalMove (board : list Stack) (fromIdx toIdx : nat) : Prop :=
  fromIdx ≠ toIdx
  ∧ ∃ src dst, board !! fromIdx = Some src ∧ board !! toIdx = Some dst
      ∧ src ≠ [] ∧ legalPlacement (getMatchingTopBoxes src) dst.

(** Every stack of the board holds at most [MAX_STACK_SIZE] boxes. *)
Definition withinCapacity (board : list Stack) : Prop :=
  ∀ stack, stack ∈ board → length stack ≤ MAX_STACK_SIZE.

(** The session [handleStackClick] leaves when it accepts the move of
    [group] from [fromIdx] to [toIdx]: counter and history updated, the
    animation started, the selection cleared. *)
Definition acceptMove (fromIdx toIdx : nat) (group : Stack) (s : Session)
  : Session :=
  setSelectedStackIndex None
    (animateBoxMovement (box_id <$> group) fromIdx toIdx
       (setMoves (moves s ++ [mkMove fromIdx toIdx (length group)])
          (setMoveCount (moveCount s + 1)%Z s))).

(** The board after the group move from [fromIdx] to [toIdx]. *)
Definition boardAfterMove (board : list Stack) (fromIdx toIdx : nat)
    (src dst : Stack) : list Stack :=
  <[toIdx := getMatchingTopBoxes src ++ dst]>
    (<[fromIdx := drop (length (getMatchingTopBoxes src)) src]> board).

(** All boxes of the stack have one kind. *)
Definition singleKind (stack : Stack) : Prop :=
  ∀ a b, a ∈ stack → b ∈ stack → kind a = kind b.

(** The number of boxes of kind [k] on the board. *)
Definition kindCount (k : string) (board : list Stack) : nat :=
  length (filter (λ b, kind b = k) (concat board)).

(** All [MAX_STACK_SIZE] boxes of kind [k] reside together in exactly one
    stack: some stack is made of [MAX_STACK_SIZE] boxes of kind [k] and no
    other stack holds a box of that kind. *)
Definition kindTogether (k : string) (board : list Stack) : Prop :=
  ∃ i stack, board !! i = Some stack
    ∧ length stack = MAX_STACK_SIZE
    ∧ (∀ b, b ∈ stack → kind b = k)
    ∧ (∀ j other, j ≠ i → board !! j = Some other →
         ∀ b, b ∈ other → kind b ≠ k).

(** The completion condition of the specification for the kinds in play. *)
Definition sortedBoard (cats : list Cat) (board : list Stack) : Prop :=
  (∀ stack, stack ∈ board → singleKind stack)
  ∧ (∀ c, c ∈ cats → kindTogether (cat_id c) board).

(** What [setProp] does to the entry of the key it writes. *)
Definition keyWrite {V} (k : string) (v : V) (entry : option V) : option V :=
  if bool_decide (k = "__proto__") then entry else Some v.

(** What [checkCompletion]'s counting loop does to the entry of one key. *)
Definition countKeyAt (k : string) (entry : option Z) (stack : Stack)
  : option Z :=
  match stack with
  | [] => entry
  | first :: _ =>
      if decide (kind first = k) then
        match entry with
        | Some n =>
            if bool_decide (n = Z.of_nat MAX_STACK_SIZE)
            then keyWrite k (-1)%Z entry
            else keyWrite k (Z.of_nat (length stack)) entry
        | None =>
            if bool_decide (k ∈ objectPrototypeMembers)
            then keyWrite k (Z.of_nat (length stack)) entry
            else None
        end
      else entry
  end.

(** The same for a key that has an own entry and is not [__proto__]: the
    cats in play. *)
Definition countStackAt (k : string) (entry : option Z) (stack : Stack)
  : option Z :=
  match stack with
  | [] => entry
  | first :: _ =>
      if decide (kind first = k) then
        match entry with
        | None => None
        | Some n =>
            if bool_decide (n = Z.of_nat MAX_STACK_SIZE)
            then Some (-1)%Z
            else Some (Z.of_nat (length stack))
        end
      else entry
  end.

(** The invariant of the specification's Board, with what keeps it: no kind
    has more than [MAX_STACK_SIZE] boxes on the board; a pending timeout
    captured the current board and two different stacks; every recorded move
    is between two different stacks. *)
Definition boardInvariant (s : Session) : Prop :=
  (∀ k, kindCount k (stacks s) ≤ MAX_STACK_SIZE)
  ∧ (∀ t, t ∈ timeouts s → t_stacks t = stacks s ∧ t_from t ≠ t_to t)
  ∧ (∀ m, m ∈ moves s → from m ≠ to m).

(** ** Vocabulary for generation *)

(** Total correctness of a computation that draws random numbers: from
    every state of the random source it returns, and its value satisfies
    [post]. *)
Definition returns {A} (m : Gen A) (post : A → Prop) : Prop :=
  ∀ g, ∃ a g', m g = Returned (a, g') ∧ post a.

(** The number of boxes of kind [k] in a list. *)
Definition cntKind (k : string) (boxes : list CatBox) : nat :=
  length (filter (λ b, kind b = k) boxes).

(** Boxes with the same id have the same kind. *)
Definition idKind (boxes : list CatBox) : Prop :=
  ∀ a b, a ∈ boxes → b ∈ boxes → box_id a = box_id b → kind a = kind b.

(** The count [catCounts] holds for a key, 0 when it holds none or [NaN]. *)
Definition countOf (catCounts : gmap string (option nat)) (k : string)
  : nat :=
  match catCounts !! k with
  | Some (Some count) => count
  | _ => 0
  end.

(** 1 when the box is of kind [k], else 0. *)
Definition isKind (k : string) (b : CatBox) : nat :=
  if decide (kind b = k) then 1 else 0.

(** What the loops of generation keep: the lengths of the stacks and the
    number of boxes of each kind. *)
Definition sameShape (board board' : list Stack) : Prop :=
  length <$> board' = length <$> board
  ∧ ∀ k, kindCount k board' = kindCount k board.

(** ** Vocabulary for fresh games *)

(** The board of a fresh game of difficulty [d] with the cats [cats]: the
    cats are distinct cats of the catalog, as many as the profile asks for;
    the board has the profile's number of stacks, one full stack per cat
    followed by the empty stacks; it holds [MAX_STACK_SIZE] boxes of each of
    the cats and no other box. *)
Definition freshBoard (d : Difficulty) (cats : list Cat)
    (board : list Stack) : Prop :=
  let config := DIFFICULTY_CONFIG d in
  NoDup (cat_id <$> cats)
  ∧ cats ⊆ placeholderCats
  ∧ length cats = Config.cats config
  ∧ length board = Config.stacks config
  ∧ length <$> board
    = replicate (Config.cats config) MAX_STACK_SIZE
      ++ replicate (Config.emptyStacks config) 0
  ∧ ∀ k, kindCount k board
         = if decide (k ∈ cat_id <$> cats) then MAX_STACK_SIZE else 0.

(** A fresh game of difficulty [d]: nothing selected, no move made, no flag
    set, nothing animating, on a fresh board. *)
Definition freshGame (d : Difficulty) (s : Session) : Prop :=
  difficulty s = d
  ∧ selectedStackIndex s = None
  ∧ moveCount s = 0%Z ∧ moves s = []
  ∧ isComplete s = false ∧ isLost s = false
  ∧ isAnimating s = false ∧ animatingBoxes s = []
  ∧ freshBoard d (activeCats s) (stacks s).

(** ** What the session keeps between two renders *)

(** Besides [timerDiscipline] and [boardInvariant]: a lost session has no
    timeout pending, and an animating one has; a pending timeout captured
    the current cats and two stacks of the board; every recorded move and
    the selection name stacks of the board; the flags [isComplete] and
    [isLost] were computed, by [checkCompletion] and [checkForValidMoves],
    from the current board. *)
Definition sessionInvariant (s : Session) : Prop :=
  (timeouts s ≠ [] → isLost s = false)
  ∧ (isAnimating s = true → timeouts s ≠ [])
  ∧ (∀ t, t ∈ timeouts s →
       t_activeCats t = activeCats s
       ∧ t_from t < length (stacks s) ∧ t_to t < length (stacks s))
  ∧ (∀ m, m ∈ moves s →
       from m < length (stacks s) ∧ to m < length (stacks s))
  ∧ (∀ i, selectedStackIndex s = Some i → i < length (stacks s))
  ∧ (isComplete s = true → completionOf (activeCats s) (stacks s) = true)
  ∧ (isLost s = true →
       isComplete s = false ∧ checkForValidMoves (stacks s) = Some false).

(** ** What the render shows *)

(** The [disabled] attribute of the Undo button. *)
Definition undoDisabled (s : Session) : bool :=
  bool_decide (length (moves s) = 0)
  || (isComplete s && negb (isLost s))
  || isAnimating s.

(** [matchingBoxes] of the stack drawn at [stackIndex]. *)
Definition matchingBoxesAt (s : Session) (stackIndex : nat) (stack : Stack)
  : Stack :=
  if bool_decide (selectedStackIndex s = Some stackIndex)
  then getMatchingTopBoxes stack else [].

(** [isPartOfMatchingGroup] of a box of that stack: the box is drawn with a
    ring. *)
Definition isPartOfMatchingGroup (s : Session) (stackIndex : nat)
    (stack : Stack) (box : CatBox) : bool :=
  bool_decide (selectedStackIndex s = Some stackIndex)
  && existsb (λ matchBox, bool_decide (box_id matchBox = box_id box))
             (matchingBoxesAt s stackIndex stack).

(** ** More sessions for the worked examples *)

(** The demo session after the click that starts its first move, the three
    top boxes of stack 1 onto the empty stack 4: the timeout is pending. *)
Definition demoMoving : Session :=
  Eval vm_compute in default demoSession (run [Click 1; Click 4] demoSession).

(** The demo session after that move was made. *)
Definition demoMoved : Session :=
  Eval vm_compute in
    default demoSession (run [Click 1; Click 4; Tick] demoSession).

(** The demo session after that move was made, its destination selected and
    the move undone: the selected stack 4 is empty. *)
Definition demoEmptySelected : Session :=
  Eval vm_compute in
    default demoSession
      (run [Click 1; Click 4; Tick; Click 4; UndoClick; Tick] demoSession).

(** The nine moves that solve the demo board. *)
Definition demoSolution : list Event :=
  [Click 1; Click 4; Tick; Click 0; Click 4; Tick; Click 2; Click 1; Tick;
   Click 0; Click 5; Tick; Click 0; Click 1; Tick; Click 3; Click 0; Tick;
   Click 3; Click 2; Tick; Click 3; Click 0; Tick; Click 5; Click 0; Tick].

Definition demoSolved : Session :=
  Eval vm_compute in default demoSession (run demoSolution demoSession).

(** The demo session when the last move of the solution is in flight. *)
Definition demoFinishing : Session :=
  Eval vm_compute in
    default demoSession (run (take 26 demoSolution) demoSession).

(** ** Play without Undo *)

(** The board is within capacity, and a pending timeout is that of a legal
    move on the current board. *)
Definition capacityInvariant (s : Session) : Prop :=
  withinCapacity (stacks s)
  ∧ timerDiscipline s
  ∧ ∀ t, t ∈ timeouts s →
      t_stacks t = stacks s ∧ t_from t ≠ t_to t
      ∧ ∃ src dst,
          stacks s !! t_from t = Some src ∧ stacks s !! t_to t = Some dst
          ∧ legalPlacement (getMatchingTopBoxes src) dst.

(** The sample position without its empty stack, nothing selected. *)
Definition crowdedSession : Session :=
  mkSession (delete 2 sampleBoard) None 0%Z false false [] [] false easy
            sampleCats true [] 0.

(** ** Properties of [getMatchingTopBoxes] *)

Lemma sameKind_true a b : sameKind a b = true ↔ kind a = kind b.
Proof. unfold sameKind. apply bool_decide_eq_true. Qed.

Lemma sameKind_false a b : sameKind a b = false ↔ kind a ≠ kind b.
Proof. unfold sameKind. apply bool_decide_eq_false. Qed.

Lemma matchingLoop_prefix topBox rest :
  matchingLoop topBox rest = take (length (matchingLoop topBox rest)) rest.
Proof.
  induction rest as [|b rest IH]; simpl; [done|].
  destruct (sameKind b topBox); simpl; [by f_equal|done].
Qed.

Lemma matchingLoop_kind topBox rest b :
  b ∈ matchingLoop topBox rest → kind b = kind topBox.
Proof.
  induction rest as [|c rest IH]; simpl; [by intros ?%elem_of_nil|].
  destruct (sameKind c topBox) eqn:E; [|by intros ?%elem_of_nil].
  intros [->|?]%elem_of_cons; [|by auto].
  by apply bool_decide_eq_true in E.
Qed.

Lemma matchingLoop_stop topBox rest b :
  drop (length (matchingLoop topBox rest)) rest !! 0 = Some b →
  kind b ≠ kind topBox.
Proof.
  induction rest as [|c rest IH]; simpl; [done|].
  destruct (sameKind c topBox) eqn:E; simpl; [done|].
  intros [= ->]. by apply bool_decide_eq_false in E.
Qed.

Lemma getMatchingTopBoxes_take stack :
  getMatchingTopBoxes stack = take (length (getMatchingTopBoxes stack)) stack.
Proof.
  destruct stack as [|t rest]; simpl; [done|].
  f_equal. apply matchingLoop_prefix.
Qed.

Lemma getMatchingTopBoxes_split stack :
  stack = getMatchingTopBoxes stack
            ++ drop (length (getMatchingTopBoxes stack)) stack.
Proof.
  rewrite <- (take_drop (length (getMatchingTopBoxes stack)) stack) at 1.
  f_equal. symmetry. apply getMatchingTopBoxes_take.
Qed.

Lemma getMatchingTopBoxes_length stack :
  length (getMatchingTopBoxes stack) ≤ length stack.
Proof.
  pose proof (f_equal length (getMatchingTopBoxes_split stack)) as H.
  rewrite length_app in H. lia.
Qed.

Lemma getMatchingTopBoxes_nil stack :
  getMatchingTopBoxes stack = [] ↔ stack = [].
Proof. by destruct stack. Qed.

Lemma getMatchingTopBoxes_kind stack t b :
  stack !! 0 = Some t → b ∈ getMatchingTopBoxes stack → kind b = kind t.
Proof.
  destruct stack as [|t' rest]; simpl; [done|].
  intros [= ->] [->|?]%elem_of_cons; [done|].
  by eapply matchingLoop_kind.
Qed.

(** The box that follows the group, when there is one, is of another
    kind. *)
Lemma getMatchingTopBoxes_stop (stack : Stack) t b :
  stack !! 0 = Some t →
  stack !! length (getMatchingTopBoxes stack) = Some b →
  kind b ≠ kind t.
Proof.
  destruct stack as [|t' rest]; simpl; [done|].
  intros [= ->] Hb. eapply matchingLoop_stop.
  by rewrite lookup_drop, Nat.add_0_r.
Qed.

(** Boxes of the top kind put on top of a stack join its group. *)
Lemma matchingLoop_app topBox (l1 l2 : Stack) :
  (∀ b, b ∈ l1 → kind b = kind topBox) →
  matchingLoop topBox (l1 ++ l2) = l1 ++ matchingLoop topBox l2.
Proof.
  induction l1 as [|a l1 IH]; intros Hall; simpl; [done|].
  rewrite (proj2 (sameKind_true a topBox)) by (apply Hall; by left).
  f_equal. apply IH. intros b Hb. apply Hall. by right.
Qed.

Lemma getMatchingTopBoxes_app_group (src dst : Stack) t :
  src !! 0 = Some t →
  getMatchingTopBoxes (getMatchingTopBoxes src ++ dst)
  = getMatchingTopBoxes src ++ matchingLoop t dst.
Proof.
  destruct src as [|t' rest]; simpl; [done|]. intros [= ->].
  f_equal. apply matchingLoop_app. intros b Hb.
  by eapply matchingLoop_kind.
Qed.

(** C7. [getMatchingTopBoxes] (the spec's [matchingTopGroup]) returns the
    maximal prefix, counted from the top at index 0, of boxes whose kind is
    the kind of the top box: the result is a prefix of the stack, it starts
    with the top box, all its boxes have the top box's kind, and the box that
    follows it in the stack (when there is one) has another kind, so no
    longer prefix qualifies.  The empty stack gives the empty group. *)
Theorem getMatchingTopBoxes_maximal_prefix (stack : Stack) :
  let group := getMatchingTopBoxes stack in
  stack = group ++ drop (length group) stack
  ∧ group !! 0 = stack !! 0
  ∧ (∀ t b, stack !! 0 = Some t → b ∈ group → kind b = kind t)
  ∧ (∀ t b, stack !! 0 = Some t →
            stack !! length group = Some b → kind b ≠ kind t)
  ∧ (∀ n t, stack !! 0 = Some t → n ≤ length stack →
            (∀ b, b ∈ take n stack → kind b = kind t) → n ≤ length group)
  ∧ (stack = [] → group = []).
Proof.
  cbv zeta. split; [apply getMatchingTopBoxes_split|].
  split; [by destruct stack|].
  split; [apply getMatchingTopBoxes_kind|].
  split; [apply getMatchingTopBoxes_stop|].
  split; [|by intros ->].
  intros n t Ht Hn Hall.
  destruct (decide (n ≤ length (getMatchingTopBoxes stack))) as [|Hgt]; [done|].
  exfalso.
  assert (Hlt : length (getMatchingTopBoxes stack) < length stack) by lia.
  destruct (lookup_lt_is_Some_2 _ _ Hlt) as [b Hb].
  apply (getMatchingTopBoxes_stop stack t b Ht Hb), Hall.
  apply list_elem_of_lookup. exists (length (getMatchingTopBoxes stack)).
  rewrite lookup_take_lt; [done|lia].
Qed.

(** ** Loops with early exit *)

Lemma anyM_Some {A} (body : A → option bool) (l : list A) :
  (∀ x, x ∈ l → is_Some (body x)) →
  ∃ b, anyM body l = Some b
       ∧ (b = true ↔ ∃ x, x ∈ l ∧ body x = Some true).
Proof.
  induction l as [|x l IH]; intros Hall; simpl.
  - exists false. split; [done|]. split; [done|].
    intros (x & Hx & _). by apply elem_of_nil in Hx.
  - destruct (Hall x) as [[|] Hx]; [by left| |]; rewrite Hx.
    + exists true. split; [done|]. split; [|done].
      intros _. exists x. split; [by left|done].
    + destruct IH as (b & Hb & Hiff).
      { intros y Hy. apply Hall. by right. }
      exists b. split; [done|]. rewrite Hiff. split.
      * intros (y & Hy & Hby). exists y. split; [by right|done].
      * intros (y & [->|Hy]%elem_of_cons & Hby); [congruence|].
        by exists y.
Qed.

Lemma elem_of_indexed {A} (l : list A) (i : nat) (x : A) :
  (i, x) ∈ indexed l ↔ l !! i = Some x.
Proof.
  unfold indexed. rewrite elem_of_lookup_imap. split.
  - intros (j & y & [= -> ->] & Hj). done.
  - intros Hi. by exists i, x.
Qed.

(** ** The placement test of [checkForValidMoves] and [handleStackClick] *)

Lemma destBody_spec fromIdx (group : Stack) toIdx (dst : Stack) :
  group ≠ [] →
  ∃ b, destBody fromIdx group (toIdx, dst) = Some b
       ∧ (b = true ↔ fromIdx ≠ toIdx ∧ legalPlacement group dst).
Proof.
  intros Hg. unfold destBody, legalPlacement.
  case_bool_decide as Hft.
  { exists false. split; [done|]. split; [done|]. by intros [? _]. }
  destruct (length dst + length group <=? MAX_STACK_SIZE) eqn:Hcap.
  - apply Nat.leb_le in Hcap.
    destruct dst as [|d dst'].
    + exists true. split; [done|]. split; [|done]. intros _. eauto.
    + destruct group as [|g group']; [done|].
      exists (sameKind d g). split; [done|]. simpl. split.
      * intros Hk%sameKind_true. split; [done|]. split; [done|].
        right. by rewrite Hk.
      * intros (_ & _ & [?|[=]]); [done|]. by apply sameKind_true.
  - apply Nat.leb_gt in Hcap.
    exists false. split; [done|]. split; [done|]. intros (_ & ? & _). lia.
Qed.

(** [checkForValidMoves] never raises. *)
Lemma sourceBody_spec (board : list Stack) fromIdx (src : Stack) :
  (∀ stack, stack ∈ board → stack ≠ []) →
  ∃ b, sourceBody board (fromIdx, src) = Some b
       ∧ (b = true ↔ src ≠ [] ∧ ∃ toIdx dst, board !! toIdx = Some dst
            ∧ fromIdx ≠ toIdx ∧ legalPlacement (getMatchingTopBoxes src) dst).
Proof.
  intros Hne. unfold sourceBody.
  destruct src as [|t rest] eqn:Hsrc.
  { exists false. split; [done|]. split; [done|]. by intros [? _]. }
  rewrite <- Hsrc.
  assert (Hg : getMatchingTopBoxes src ≠ []).
  { rewrite getMatchingTopBoxes_nil. by subst. }
  destruct (anyM_Some (destBody fromIdx (getMatchingTopBoxes src))
              (indexed board)) as (b & Hb & Hiff).
  { intros [toIdx dst] _.
    destruct (destBody_spec fromIdx _ toIdx dst Hg) as (b & -> & _). by eexists. }
  exists b. split; [done|]. rewrite Hiff. split.
  - intros ([toIdx dst] & Hin%elem_of_indexed & Hbody).
    split; [by subst|]. exists toIdx, dst. split; [done|].
    destruct (destBody_spec fromIdx _ toIdx dst Hg) as (b' & Hb' & Hiff').
    apply Hiff'. congruence.
  - intros (_ & toIdx & dst & Hin & Hft & Hlegal).
    exists (toIdx, dst). split; [by apply elem_of_indexed|].
    destruct (destBody_spec fromIdx _ toIdx dst Hg) as (b' & Hb' & Hiff').
    assert (b' = true) as <-; [|exact Hb']. by apply Hiff'.
Qed.

Lemma existsb_empty (board : list Stack) :
  existsb isEmptyStack board = true
  ↔ ∃ stack, stack ∈ board ∧ stack = [].
Proof.
  rewrite existsb_exists. split.
  - intros (st & Hin%list_elem_of_In & Hlen%bool_decide_eq_true).
    exists st. split; [done|]. by destruct st.
  - intros (st & Hin & ->). exists []. split; [by apply list_elem_of_In|done].
Qed.

Lemma existsb_no_empty (board : list Stack) :
  existsb isEmptyStack board = false →
  ∀ stack, stack ∈ board → stack ≠ [].
Proof.
  intros He st Hin ->.
  assert (existsb isEmptyStack board = true) as Ht
    by (apply existsb_empty; eauto).
  congruence.
Qed.

Lemma checkForValidMoves_total (board : list Stack) :
  is_Some (checkForValidMoves board).
Proof.
  unfold checkForValidMoves.
  destruct (existsb isEmptyStack board) eqn:He; [by eexists|].
  pose proof (existsb_no_empty board He) as Hne.
  destruct (anyM_Some (sourceBody board) (indexed board)) as (b & -> & _);
    [|by eexists].
  intros [i src] _.
  destruct (sourceBody_spec board i src Hne) as (b & -> & _). by eexists.
Qed.

(** C6. [checkForValidMoves] (the spec's [hasAnyLegalMove]) returns, without
    raising, [true] whenever some stack of the board is empty, whatever the
    other stacks hold; on a board without empty stack it returns [true]
    exactly when there is an ordered pair of different stacks, the source not
    empty, for which the top group of the source is a legal placement on the
    destination. *)
Theorem checkForValidMoves_spec (board : list Stack) :
  ∃ b, checkForValidMoves board = Some b
    ∧ ((∃ stack, stack ∈ board ∧ stack = []) → b = true)
    ∧ ((∀ stack, stack ∈ board → stack ≠ []) →
       (b = true ↔ ∃ fromIdx toIdx, legalMove board fromIdx toIdx)).
Proof.
  unfold checkForValidMoves.
  destruct (existsb isEmptyStack board) eqn:He.
  - exists true. split; [done|]. split; [done|].
    intros Hne. apply existsb_empty in He as (st & Hin & ->).
    by destruct (Hne [] Hin).
  - pose proof (existsb_no_empty board He) as Hne.
    destruct (anyM_Some (sourceBody board) (indexed board)) as (b & Hb & Hiff).
    { intros [i src] _.
      destruct (sourceBody_spec board i src Hne) as (b & -> & _). by eexists. }
    exists b. split; [done|]. split.
    { intros (st & Hin & ->). by destruct (Hne [] Hin). }
    intros _. rewrite Hiff. unfold legalMove. split.
    + intros ([i src] & Hin%elem_of_indexed & Hbody).
      destruct (sourceBody_spec board i src Hne) as (b' & Hb' & Hiff').
      assert (b' = true) as Hb'' by congruence.
      apply Hiff' in Hb'' as (Hsrc & j & dst & Hj & Hij & Hlegal).
      exists i, j. split; [done|]. by exists src, dst.
    + intros (i & j & Hij & src & dst & Hi & Hj & Hsrc & Hlegal).
      exists (i, src). split; [by apply elem_of_indexed|].
      destruct (sourceBody_spec board i src Hne) as (b' & Hb' & Hiff').
      assert (b' = true) as <-; [|exact Hb'].
      apply Hiff'. split; [done|]. by exists j, dst.
Qed.

(** ** Accepted and rejected moves *)

Section click.
Variables (s : Session) (fromIdx toIdx : nat) (src dst : Stack).
Hypothesis Hplaying : playing s.
Hypothesis Hselected : selectedStackIndex s = Some fromIdx.
Hypothesis Hdiff : fromIdx ≠ toIdx.
Hypothesis Hsrc : stacks s !! fromIdx = Some src.
Hypothesis Hdst : stacks s !! toIdx = Some dst.
Hypothesis Hnonempty : src ≠ [].

(** The second click of a move either accepts it, and then the placement
    is legal, or clears the selection and does nothing else, and then the
    placement is not legal.  It does not raise. *)
Lemma handleStackClick_cases :
  (legalPlacement (getMatchingTopBoxes src) dst
   ∧ handleStackClick toIdx s
     = Some (acceptMove fromIdx toIdx (getMatchingTopBoxes src) s))
  ∨ (¬ legalPlacement (getMatchingTopBoxes src) dst
     ∧ handleStackClick toIdx s = Some (setSelectedStackIndex None s)).
Proof using Hplaying Hselected Hdiff Hsrc Hdst Hnonempty.
  destruct Hplaying as (Hc & Hl & Ha).
  unfold handleStackClick, legalPlacement.
  rewrite Hc, Hl, Ha, Hselected. simpl.
  rewrite bool_decide_eq_false_2 by done.
  rewrite Hsrc. simpl. rewrite Hdst. simpl.
  destruct (length dst + length (getMatchingTopBoxes src) <=? MAX_STACK_SIZE)
    eqn:Hcap.
  - apply Nat.leb_le in Hcap. unfold topMismatch.
    destruct dst as [|d dst']; [left; eauto|].
    destruct src as [|t rest]; [done|]. simpl.
    destruct (sameKind d t) eqn:Hk; simpl.
    + left. apply sameKind_true in Hk. split; [|done].
      split; [done|]. right. by rewrite Hk.
    + right. apply sameKind_false in Hk. split; [|done].
      intros (_ & [?|[= ?]]); done.
  - apply Nat.leb_gt in Hcap. right. split; [|done].
    intros (? & _). lia.
Qed.
End click.

Lemma movedStacks_move (board : list Stack) fromIdx toIdx (src dst : Stack) :
  fromIdx ≠ toIdx →
  board !! fromIdx = Some src → board !! toIdx = Some dst →
  movedStacks board fromIdx toIdx
  = Some (boardAfterMove board fromIdx toIdx src dst).
Proof.
  intros Hdiff Hsrc Hdst. unfold movedStacks, boardAfterMove.
  rewrite Hsrc. simpl.
  rewrite list_lookup_insert_ne by done. by rewrite Hdst.
Qed.

(** The timeout, when its captured indices are in range, does not raise; it
    installs the board it computed and leaves counter, history and selection
    alone. *)
Lemma runTimeout_Some (t : Timeout) (s : Session) (newStacks : list Stack) :
  movedStacks (t_stacks t) (t_from t) (t_to t) = Some newStacks →
  ∃ s2, runTimeout t s = Some s2
    ∧ stacks s2 = newStacks
    ∧ moves s2 = moves s ∧ moveCount s2 = moveCount s
    ∧ selectedStackIndex s2 = selectedStackIndex s
    ∧ timeouts s2 = timeouts s
    ∧ isAnimating s2 = false
    ∧ isComplete s2 = completionOf (t_activeCats t) newStacks
    ∧ onComplete s2 = onComplete s
    ∧ notified s2
      = (if completionOf (t_activeCats t) newStacks && onComplete s
         then S (notified s) else notified s).
Proof.
  intros Hmoved. unfold runTimeout. rewrite Hmoved. simpl.
  unfold checkCompletion. simpl.
  destruct (completionOf (t_activeCats t) newStacks) eqn:Hdone; simpl.
  - destruct (onComplete s) eqn:Hoc; simpl; eexists; (split; [done|]);
      simpl; by rewrite ?Hoc.
  - destruct (checkForValidMoves_total newStacks) as [[|] ->];
      eexists; (split; [done|]); by simpl.
Qed.

Lemma runTimeout_inv (t : Timeout) (s s' : Session) :
  runTimeout t s = Some s' →
  ∃ newStacks,
    movedStacks (t_stacks t) (t_from t) (t_to t) = Some newStacks
    ∧ stacks s' = newStacks
    ∧ moves s' = moves s ∧ moveCount s' = moveCount s
    ∧ timeouts s' = timeouts s
    ∧ isAnimating s' = false
    ∧ isComplete s' = completionOf (t_activeCats t) newStacks
    ∧ onComplete s' = onComplete s
    ∧ notified s'
      = (if completionOf (t_activeCats t) newStacks && onComplete s
         then S (notified s) else notified s).
Proof.
  intros Hrun.
  destruct (movedStacks (t_stacks t) (t_from t) (t_to t)) as [newStacks|]
    eqn:Hmoved.
  - destruct (runTimeout_Some t s newStacks Hmoved)
      as (s2 & Hrun2 & ? & ? & ? & _ & ? & ? & ? & ? & ?).
    assert (s2 = s') as -> by congruence.
    by exists newStacks.
  - unfold runTimeout in Hrun. by rewrite Hmoved in Hrun.
Qed.

Lemma boardAfterMove_lookup (board : list Stack) fromIdx toIdx
    (src dst : Stack) :
  fromIdx ≠ toIdx →
  board !! fromIdx = Some src → board !! toIdx = Some dst →
  let board' := boardAfterMove board fromIdx toIdx src dst in
  board' !! fromIdx = Some (drop (length (getMatchingTopBoxes src)) src)
  ∧ board' !! toIdx = Some (getMatchingTopBoxes src ++ dst)
  ∧ (∀ i, i ≠ fromIdx → i ≠ toIdx → board' !! i = board !! i)
  ∧ length board' = length board.
Proof.
  intros Hdiff Hsrc Hdst. unfold boardAfterMove. cbv zeta.
  pose proof (lookup_lt_Some _ _ _ Hsrc) as Hlf.
  pose proof (lookup_lt_Some _ _ _ Hdst) as Hlt.
  split.
  { rewrite list_lookup_insert_ne by done.
    apply list_lookup_insert_eq. done. }
  split.
  { apply list_lookup_insert_eq. by rewrite length_insert. }
  split.
  { intros i Hif Hit. by rewrite !list_lookup_insert_ne. }
  by rewrite !length_insert.
Qed.

(** C5. A legal move, asked for in a session that takes input with [fromIdx]
    selected and nothing in flight: the click on [toIdx] is accepted; it
    appends the record [{from, to, count}] with [count] the length of the
    top group of the source, adds one to the move counter and starts the
    animation of the group's boxes; when the animation's timeout fires the
    group has left the top of the source and sits on top of the destination
    in its original order, the other stacks are as before, and counter and
    history are not touched again.  So a top group of two boxes moved onto
    an empty stack gives a destination that is exactly that group and a
    source shorter by two. *)
Theorem accepted_move_effect (s : Session) (fromIdx toIdx : nat)
    (src dst : Stack) :
  playing s → timeouts s = [] →
  selectedStackIndex s = Some fromIdx → fromIdx ≠ toIdx →
  stacks s !! fromIdx = Some src → stacks s !! toIdx = Some dst →
  src ≠ [] →
  legalPlacement (getMatchingTopBoxes src) dst →
  let group := getMatchingTopBoxes src in
  ∃ s1 s2,
    handleStackClick toIdx s = Some s1 ∧ step Tick s1 = Some s2
    ∧ moves s1 = moves s ++ [mkMove fromIdx toIdx (length group)]
    ∧ moveCount s1 = (moveCount s + 1)%Z
    ∧ anim_id <$> animatingBoxes s1 = box_id <$> group
    ∧ stacks s1 = stacks s
    ∧ moves s2 = moves s1 ∧ moveCount s2 = moveCount s1
    ∧ src = group ++ drop (length group) src
    ∧ stacks s2 !! fromIdx = Some (drop (length group) src)
    ∧ stacks s2 !! toIdx = Some (group ++ dst)
    ∧ (∀ i, i ≠ fromIdx → i ≠ toIdx → stacks s2 !! i = stacks s !! i)
    ∧ length (stacks s2) = length (stacks s)
    ∧ (dst = [] → stacks s2 !! toIdx = Some group)
    ∧ length (drop (length group) src) + length group = length src.
Proof.
  intros Hplaying Htimeouts Hselected Hdiff Hsrc Hdst Hnonempty Hlegal group.
  destruct (handleStackClick_cases s fromIdx toIdx src dst)
    as [[_ Hclick]|[Hno _]]; [done..| |done].
  set (s1 := acceptMove fromIdx toIdx group s) in *.
  destruct (runTimeout_Some
              (mkTimeout (stacks s) (activeCats s) fromIdx toIdx)
              (setTimeouts [] s1)
              (boardAfterMove (stacks s) fromIdx toIdx src dst))
    as (s2 & Hrun & Hst & Hmv & Hmc & _).
  { by apply movedStacks_move. }
  destruct (boardAfterMove_lookup (stacks s) fromIdx toIdx src dst)
    as (Hf & Ht & Hother & Hlen); [done..|].
  exists s1, s2.
  split; [done|]. split.
  { simpl. subst s1. unfold acceptMove, animateBoxMovement. simpl.
    rewrite Htimeouts. simpl. exact Hrun. }
  split; [done|]. split; [done|]. split.
  { subst s1. simpl. rewrite <- list_fmap_compose. exact (list_fmap_id _). }
  split; [done|]. split; [done|]. split; [done|].
  split; [apply getMatchingTopBoxes_split|].
  rewrite Hst. split; [done|]. split; [done|]. split; [done|].
  split; [done|]. split.
  { intros ->. by rewrite Ht, app_nil_r. }
  rewrite length_drop.
  pose proof (getMatchingTopBoxes_length src). subst group. lia.
Qed.

(** C4. With [fromIdx] selected in a session that takes input, a click on
    another stack [toIdx], the source not being empty, does not raise and is
    accepted exactly when the placement of the source's top group on the
    destination is legal: [dst.length + group.length ≤ MAX_STACK_SIZE] and
    the destination is empty or has the group's kind on top.  A rejected
    click leaves board, history, counter and timers as they were and clears
    the selection. *)
Theorem handleStackClick_legality (s : Session) (fromIdx toIdx : nat)
    (src dst : Stack) :
  playing s →
  selectedStackIndex s = Some fromIdx → fromIdx ≠ toIdx →
  stacks s !! fromIdx = Some src → stacks s !! toIdx = Some dst →
  src ≠ [] →
  let group := getMatchingTopBoxes src in
  ∃ s1, handleStackClick toIdx s = Some s1
    ∧ (legalPlacement group dst ↔ s1 = acceptMove fromIdx toIdx group s)
    ∧ (legalPlacement group dst ↔
         moves s1 = moves s ++ [mkMove fromIdx toIdx (length group)])
    ∧ (¬ legalPlacement group dst →
         stacks s1 = stacks s ∧ selectedStackIndex s1 = None
         ∧ moves s1 = moves s ∧ moveCount s1 = moveCount s
         ∧ timeouts s1 = timeouts s ∧ isAnimating s1 = false).
Proof.
  intros Hplaying Hselected Hdiff Hsrc Hdst Hnonempty group.
  assert (Hneq : ∀ (l : list Move) x, l ≠ l ++ [x]).
  { intros l x Heq. apply (f_equal length) in Heq.
    rewrite length_app in Heq. simpl in Heq. lia. }
  destruct (handleStackClick_cases s fromIdx toIdx src dst)
    as [[Hlegal Hclick]|[Hno Hclick]]; [done..| |].
  - eexists. split; [exact Hclick|]. split; [done|]. split; [done|]. done.
  - eexists. split; [exact Hclick|]. split.
    { split; [done|]. intros Heq. apply (f_equal moves) in Heq.
      simpl in Heq. by apply Hneq in Heq. }
    split.
    { split; [done|]. simpl. intros Heq. by apply Hneq in Heq. }
    intros _. destruct Hplaying as (_ & _ & Ha). by simpl.
Qed.

(** ** Completion *)

Lemma stackValid_singleKind (stack : Stack) :
  stackValid stack = true ↔ singleKind stack.
Proof.
  unfold stackValid, singleKind. destruct stack as [|first rest].
  { split; [|done]. by intros _ a b ?%elem_of_nil. }
  rewrite forallb_forall. split.
  - intros Hall a b Ha%list_elem_of_In Hb%list_elem_of_In.
    apply Hall, sameKind_true in Ha. apply Hall, sameKind_true in Hb.
    congruence.
  - intros Hall a Ha%list_elem_of_In. apply sameKind_true.
    apply Hall; [done|by left].
Qed.

Lemma setProp_lookup {V} (obj : gmap string V) k v k' :
  setProp k v obj !! k'
  = if decide (k' = k) then keyWrite k v (obj !! k) else obj !! k'.
Proof.
  unfold setProp, keyWrite. case_decide as Hk.
  - subst k'. case_bool_decide; [done|]. by rewrite lookup_insert_eq.
  - case_bool_decide; [done|]. by rewrite lookup_insert_ne.
Qed.

Lemma countStack_lookup (catMap : gmap string Z) (stack : Stack) k :
  countStack catMap stack !! k = countKeyAt k (catMap !! k) stack.
Proof.
  unfold countStack, countKeyAt, getProp.
  destruct stack as [|first rest]; [done|]. cbv zeta.
  destruct (decide (kind first = k)) as [<-|Hne].
  - destruct (catMap !! kind first) as [n|] eqn:E.
    + case_bool_decide; by rewrite setProp_lookup, decide_True, E.
    + case_bool_decide; [|by rewrite E].
      by rewrite setProp_lookup, decide_True, E.
  - destruct (catMap !! kind first) as [n|] eqn:E;
      repeat case_bool_decide; try done;
      by rewrite setProp_lookup, decide_False.
Qed.

Lemma foldl_countStack_lookup (board : list Stack) (catMap : gmap string Z) k :
  foldl countStack catMap board !! k
  = foldl (countKeyAt k) (catMap !! k) board.
Proof.
  revert catMap. induction board as [|st board IH]; intros catMap; [done|].
  simpl. by rewrite IH, countStack_lookup.
Qed.

(** The cats in play have an entry, but for a cat named [__proto__]. *)
Lemma initCatMap_lookup (cats : list Cat) k :
  initCatMap cats !! k
  = if decide (k ∈ cat_id <$> cats ∧ k ≠ "__proto__")
    then Some 0%Z else None.
Proof.
  unfold initCatMap.
  assert (Hgen : ∀ m : gmap string Z,
    foldl (λ catMap c, setProp (cat_id c) 0%Z catMap) m cats !! k
    = if decide (k ∈ cat_id <$> cats ∧ k ≠ "__proto__")
      then Some 0%Z else m !! k).
  { induction cats as [|c cats IH]; intros m.
    - rewrite decide_False; [done|]. by intros [?%elem_of_nil _].
    - rewrite fmap_cons. cbn [foldl]. rewrite IH, setProp_lookup.
      unfold keyWrite.
      destruct (decide (k ∈ cat_id <$> cats ∧ k ≠ "__proto__"))
        as [[Hin Hk]|Hno].
      + rewrite decide_True; [done|]. split; [by right|done].
      + destruct (decide (k = cat_id c)) as [->|Hne].
        * case_bool_decide as Hp.
          -- rewrite decide_False; [done|]. by intros [_ ?].
          -- rewrite decide_True; [done|]. split; [by left|done].
        * rewrite decide_False; [done|].
          intros [[?|?]%elem_of_cons ?]; [done|]. by apply Hno. }
  rewrite Hgen. by rewrite lookup_empty.
Qed.

Lemma allcatsComplete_spec (catMap : gmap string Z) :
  allcatsComplete catMap = true
  ↔ ∀ k n, catMap !! k = Some n → n = Z.of_nat MAX_STACK_SIZE.
Proof.
  unfold allcatsComplete. rewrite forallb_forall. split.
  - intros Hall k n Hk. apply elem_of_map_to_list, list_elem_of_In in Hk.
    apply Hall in Hk. by apply bool_decide_eq_true in Hk.
  - intros Hall [k n] Hin%list_elem_of_In%elem_of_map_to_list.
    apply bool_decide_eq_true. simpl. by eapply Hall.
Qed.

Lemma countStackAt_is_Some k entry (stack : Stack) :
  is_Some entry → is_Some (countStackAt k entry stack).
Proof.
  intros [n ->]. unfold countStackAt. destruct stack as [|first rest]; [done|].
  case_decide; [|done]. by case_bool_decide.
Qed.

Lemma foldl_countStackAt_is_Some k (board : list Stack) entry :
  is_Some entry → is_Some (foldl (countStackAt k) entry board).
Proof.
  revert entry. induction board as [|st board IH]; intros entry He; [done|].
  simpl. by apply IH, countStackAt_is_Some.
Qed.

(** A key with an own entry, other than [__proto__], is counted as
    [countStackAt] says. *)
Lemma countKeyAt_own k n (stack : Stack) :
  k ≠ "__proto__" →
  countKeyAt k (Some n) stack = countStackAt k (Some n) stack.
Proof.
  intros Hk. unfold countKeyAt, countStackAt, keyWrite.
  destruct stack as [|first rest]; [done|].
  by rewrite (bool_decide_eq_false_2 (k = "__proto__")).
Qed.

Lemma foldl_countKeyAt_own k (board : list Stack) n :
  k ≠ "__proto__" →
  foldl (countKeyAt k) (Some n) board = foldl (countStackAt k) (Some n) board.
Proof.
  intros Hk. revert n. induction board as [|st board IH]; intros n; [done|].
  simpl. rewrite countKeyAt_own by done.
  destruct (countStackAt_is_Some k (Some n) st) as [n' ->]; [done|].
  apply IH.
Qed.

Lemma countKeyAt_other k entry (stack : Stack) :
  (∀ b, b ∈ stack → kind b ≠ k) → countKeyAt k entry stack = entry.
Proof.
  intros Hno. unfold countKeyAt. destruct stack as [|first rest]; [done|].
  case_decide as Hk; [|done]. exfalso. by apply (Hno first); [left|].
Qed.

Lemma foldl_countKeyAt_other k (board : list Stack) entry :
  (∀ stack, stack ∈ board → ∀ b, b ∈ stack → kind b ≠ k) →
  foldl (countKeyAt k) entry board = entry.
Proof.
  revert entry. induction board as [|st board IH]; intros entry Hno; [done|].
  simpl. rewrite countKeyAt_other by (apply Hno; by left).
  apply IH. intros st' Hin. apply Hno. by right.
Qed.

(** Nothing is ever written to [__proto__]. *)
Lemma foldl_countKeyAt_proto (board : list Stack) entry :
  foldl (countKeyAt "__proto__") entry board = entry.
Proof.
  induction board as [|st board IH]; [done|]. simpl.
  replace (countKeyAt "__proto__" entry st) with entry; [done|].
  unfold countKeyAt, keyWrite. destruct st; [done|].
  case_decide; [|done]. destruct entry; repeat case_bool_decide; done.
Qed.

(** A key without entry that names no inherited member gets none. *)
Lemma foldl_countKeyAt_plain k (board : list Stack) :
  k ∉ objectPrototypeMembers → foldl (countKeyAt k) None board = None.
Proof.
  intros Hk. induction board as [|st board IH]; [done|]. simpl.
  replace (countKeyAt k None st) with (@None Z); [done|].
  unfold countKeyAt. destruct st; [done|]. case_decide; [|done].
  by rewrite bool_decide_eq_false_2.
Qed.

(** A stack without box of kind [k] leaves the entry of [k] alone. *)
Lemma countStackAt_other k entry (stack : Stack) :
  (∀ b, b ∈ stack → kind b ≠ k) → countStackAt k entry stack = entry.
Proof.
  intros Hno. unfold countStackAt. destruct stack as [|first rest]; [done|].
  case_decide as Hk; [|done]. exfalso. by apply (Hno first); [left|].
Qed.

Lemma foldl_countStackAt_other k (board : list Stack) entry :
  (∀ stack, stack ∈ board → ∀ b, b ∈ stack → kind b ≠ k) →
  foldl (countStackAt k) entry board = entry.
Proof.
  revert entry. induction board as [|st board IH]; intros entry Hno; [done|].
  simpl. rewrite countStackAt_other by (apply Hno; by left).
  apply IH. intros st' Hin. apply Hno. by right.
Qed.

Lemma kindCount_snoc k (board : list Stack) (stack : Stack) :
  kindCount k (board ++ [stack])
  = kindCount k board + length (filter (λ b, kind b = k) stack).
Proof.
  unfold kindCount. rewrite concat_app, filter_app, length_app. simpl.
  by rewrite app_nil_r.
Qed.

Lemma filter_kind_all k (stack : Stack) :
  (∀ b, b ∈ stack → kind b = k) → filter (λ b, kind b = k) stack = stack.
Proof.
  induction stack as [|a stack IH]; intros Hall; [done|].
  rewrite filter_cons_True by (apply Hall; by left).
  f_equal. apply IH. intros b Hb. apply Hall. by right.
Qed.

Lemma kindCount_zero k (board : list Stack) :
  kindCount k board = 0 →
  ∀ stack, stack ∈ board → ∀ b, b ∈ stack → kind b ≠ k.
Proof.
  unfold kindCount. intros Hz st Hst b Hb Hk.
  assert (Hin : b ∈ filter (λ b, kind b = k) (concat board)).
  { apply list_elem_of_filter. split; [done|].
    apply list_elem_of_In, in_concat. exists st.
    by rewrite <- !list_elem_of_In. }
  destruct (filter (λ b, kind b = k) (concat board)); [|done].
  by apply elem_of_nil in Hin.
Qed.

(** The counting loop ends on [MAX_STACK_SIZE] for a kind that sits together
    in one stack. *)
Lemma kindTogether_counted k (board : list Stack) :
  kindTogether k board →
  foldl (countStackAt k) (Some 0%Z) board
  = Some (Z.of_nat MAX_STACK_SIZE).
Proof.
  intros (i & st & Hi & Hlen & Hall & Hothers).
  rewrite <- (take_drop_middle board i st Hi).
  rewrite foldl_app. cbn [foldl].
  rewrite (foldl_countStackAt_other k (drop (S i) board)).
  2:{ intros st' Hin b Hb.
      apply list_elem_of_lookup in Hin as [j Hj].
      rewrite lookup_drop in Hj.
      eapply (Hothers (S i + j) st'); [lia|done..]. }
  rewrite (foldl_countStackAt_other k (take i board)).
  2:{ intros st' Hin b Hb.
      apply list_elem_of_lookup in Hin as [j Hj].
      pose proof (lookup_lt_Some _ _ _ Hj) as Hlt.
      rewrite length_take in Hlt.
      rewrite lookup_take_lt in Hj by lia.
      eapply (Hothers j st'); [lia|done..]. }
  unfold countStackAt. destruct st as [|first rest]; [done|].
  rewrite decide_True by (apply Hall; by left).
  rewrite bool_decide_eq_false_2 by done. by rewrite Hlen.
Qed.

(** On a board of single-kind stacks that holds at most [MAX_STACK_SIZE]
    boxes of kind [k], the counting loop ends on [MAX_STACK_SIZE] only if
    the kind sits together in one stack. *)
Lemma counted_kindTogether k (board : list Stack) :
  (∀ stack, stack ∈ board → singleKind stack) →
  kindCount k board ≤ MAX_STACK_SIZE →
  foldl (countStackAt k) (Some 0%Z) board = Some (Z.of_nat MAX_STACK_SIZE) →
  kindTogether k board.
Proof.
  induction board as [|st board IH] using rev_ind; intros Hsingle Hcount.
  { simpl. intros [= ?]. }
  rewrite foldl_app. simpl. rewrite kindCount_snoc in Hcount.
  assert (Hsingle' : ∀ stack, stack ∈ board → singleKind stack).
  { intros st' Hin. apply Hsingle, elem_of_app. by left. }
  assert (Hst : singleKind st).
  { apply Hsingle, elem_of_app. right. by left. }
  destruct (foldl_countStackAt_is_Some k board (Some 0%Z)) as [n Hn];
    [done|].
  rewrite Hn. unfold countStackAt.
  destruct st as [|first rest] eqn:Est.
  - (* an empty last stack *)
    intros Hfin. rewrite <- Hn in Hfin.
    destruct IH as (i & st' & Hi & Hlen & Hall & Hothers);
      [done|lia|done|].
    exists i, st'. split; [by apply lookup_app_l_Some|].
    split; [done|]. split; [done|].
    intros j other Hj Hlook b Hb.
    apply lookup_app_Some in Hlook as [Hlook|[_ Hlook]]; [by eapply Hothers|].
    apply list_lookup_singleton_Some in Hlook as [_ <-].
    by apply elem_of_nil in Hb.
  - rewrite <- Est in *. case_decide as Hk.
    + (* the last stack is of kind [k] *)
      assert (Hall : ∀ b, b ∈ st → kind b = k).
      { intros b Hb. rewrite <- Hk. apply Hst; [done|]. subst st. by left. }
      case_bool_decide as Hfull; [done|]. intros [= Hlen].
      apply Nat2Z.inj in Hlen.
      rewrite filter_kind_all in Hcount by done.
      exists (length board), st.
      split; [by apply list_lookup_middle|]. split; [done|]. split; [done|].
      intros j other Hj Hlook b Hb.
      apply lookup_app_Some in Hlook as [Hlook|[Hge Hlook]].
      * eapply (kindCount_zero k board); [lia| |done].
        by eapply list_elem_of_lookup_2.
      * apply list_lookup_singleton_Some in Hlook as [Hz _]. lia.
    + (* the last stack is of another kind *)
      assert (Hno : ∀ b, b ∈ st → kind b ≠ k).
      { intros b Hb Hkb. apply Hk. rewrite <- Hkb.
        apply Hst; [subst st; by left|done]. }
      intros Hfin. rewrite <- Hn in Hfin.
      destruct IH as (i & st' & Hi & Hlen & Hall & Hothers);
        [done|lia|done|].
      exists i, st'. split; [by apply lookup_app_l_Some|].
      split; [done|]. split; [done|].
      intros j other Hj Hlook b Hb.
      apply lookup_app_Some in Hlook as [Hlook|[_ Hlook]];
        [by eapply Hothers|].
      apply list_lookup_singleton_Some in Hlook as [_ <-]. by apply Hno.
Qed.

(** No cat in play is named [__proto__], and a box whose cat id names
    another member of [Object.prototype] is of a cat in play: [catMap] then
    holds the cats in play and nothing else. *)
Lemma completionOf_true (cats : list Cat) (board : list Stack) :
  "__proto__" ∉ cat_id <$> cats →
  (∀ stack b, stack ∈ board → b ∈ stack →
     kind b ∈ objectPrototypeMembers → kind b ≠ "__proto__" →
     kind b ∈ cat_id <$> cats) →
  completionOf cats board = true
  ↔ (∀ stack, stack ∈ board → singleKind stack)
    ∧ (∀ c, c ∈ cats →
         foldl (countStackAt (cat_id c)) (Some 0%Z) board
         = Some (Z.of_nat MAX_STACK_SIZE)).
Proof.
  intros Hproto Hboard. unfold completionOf.
  assert (Hvalid : forallb stackValid board = true
                   ↔ ∀ stack, stack ∈ board → singleKind stack).
  { rewrite forallb_forall. split.
    - intros H st Hin%list_elem_of_In. by apply stackValid_singleKind, H.
    - intros H st Hin%list_elem_of_In. by apply stackValid_singleKind, H. }
  assert (Hin : ∀ c, c ∈ cats →
            catMapOf cats board !! cat_id c
            = foldl (countStackAt (cat_id c)) (Some 0%Z) board).
  { intros c Hc. unfold catMapOf.
    assert (cat_id c ∈ cat_id <$> cats) as Hid by (by apply list_elem_of_fmap_2).
    assert (cat_id c ≠ "__proto__") as Hne by (by intros E; rewrite E in Hid).
    rewrite foldl_countStack_lookup, initCatMap_lookup.
    rewrite decide_True by done. by apply foldl_countKeyAt_own. }
  assert (Hout : ∀ k, k ∉ cat_id <$> cats → catMapOf cats board !! k = None).
  { intros k Hk. unfold catMapOf.
    rewrite foldl_countStack_lookup, initCatMap_lookup.
    rewrite decide_False by (by intros [? _]).
    destruct (decide (k = "__proto__")) as [->|Hne];
      [by apply foldl_countKeyAt_proto|].
    destruct (decide (k ∈ objectPrototypeMembers)) as [Hmember|Hplain];
      [|by apply foldl_countKeyAt_plain].
    apply foldl_countKeyAt_other. intros st Hst b Hb Hkind.
    apply Hk. rewrite <- Hkind. apply (Hboard st b); [done..| |];
      by rewrite Hkind. }
  assert (Hcount : allcatsComplete (catMapOf cats board) = true
                   ↔ ∀ c, c ∈ cats →
                       foldl (countStackAt (cat_id c)) (Some 0%Z) board
                       = Some (Z.of_nat MAX_STACK_SIZE)).
  { rewrite allcatsComplete_spec. split.
    - intros H c Hc.
      destruct (foldl_countStackAt_is_Some (cat_id c) board (Some 0%Z))
        as [n Hn]; [done|].
      rewrite Hn. f_equal. apply (H (cat_id c)). by rewrite Hin.
    - intros H k n Hk.
      destruct (decide (k ∈ cat_id <$> cats)) as [Hid|Hid].
      + apply list_elem_of_fmap in Hid as (c & -> & Hc).
        rewrite Hin, (H c Hc) in Hk by done. by injection Hk as <-.
      + by rewrite Hout in Hk. }
  destruct (forallb stackValid board) eqn:Hv; simpl.
  - rewrite Hcount. split; [|by intros [_ ?]].
    intros H. split; [|done]. by apply Hvalid.
  - split; [done|]. intros [H _]. apply Hvalid in H. done.
Qed.

(** On a board that keeps the invariant, [completionOf] decides
    [sortedBoard]. *)
Lemma completionOf_sorted (cats : list Cat) (board : list Stack) :
  (∀ c, c ∈ cats → kindCount (cat_id c) board ≤ MAX_STACK_SIZE) →
  "__proto__" ∉ cat_id <$> cats →
  (∀ stack b, stack ∈ board → b ∈ stack →
     kind b ∈ objectPrototypeMembers → kind b ≠ "__proto__" →
     kind b ∈ cat_id <$> cats) →
  completionOf cats board = true ↔ sortedBoard cats board.
Proof.
  intros Hcount Hproto Hboard.
  rewrite completionOf_true by done. unfold sortedBoard. split.
  - intros [Hsingle Hfold]. split; [done|].
    intros c Hc. apply counted_kindTogether; auto.
  - intros [Hsingle Htog]. split; [done|].
    intros c Hc. by apply kindTogether_counted, Htog.
Qed.


(** ** Computations that draw random numbers *)

Lemma returns_ret {A} (a : A) (post : A → Prop) :
  post a → returns (ret a) post.
Proof. intros Ha g. by exists a, g. Qed.

Lemma returns_bind {A B} (m : Gen A) (k : A → Gen B)
    (mid : A → Prop) (post : B → Prop) :
  returns m mid → (∀ a, mid a → returns (k a) post) →
  returns (bind m k) post.
Proof.
  intros Hm Hk g. destruct (Hm g) as (a & g1 & Hrun & Ha).
  destruct (Hk a Ha g1) as (b & g2 & Hrun2 & Hb).
  exists b, g2. unfold bind. by rewrite Hrun.
Qed.

Lemma returns_weaken {A} (m : Gen A) (post post' : A → Prop) :
  returns m post → (∀ a, post a → post' a) → returns m post'.
Proof.
  intros Hm Himp g. destruct (Hm g) as (a & g' & Hrun & Ha).
  exists a, g'. auto.
Qed.

Lemma returns_defined {A} (o : option A) (a : A) (post : A → Prop) :
  o = Some a → post a → returns (defined o) post.
Proof. intros -> Ha. by apply returns_ret. Qed.

(** [Math.random()] is in the interval [0, 1). *)
Lemma returns_random : returns random (λ q, (0 <= q)%Q ∧ (q < 1)%Q).
Proof.
  intros g. unfold random. destruct (gen g (seed g)) as [q seed'].
  eexists _, _. split; [done|].
  destruct (Qle_bool 0 q && Qltb q 1) eqn:Hin.
  - apply andb_true_iff in Hin as [Hlo Hhi].
    split; [by apply Qle_bool_iff|].
    apply Qnot_le_lt. intros Hle%Qle_bool_iff.
    unfold Qltb in Hhi. by rewrite Hle in Hhi.
  - split; [apply Qle_refl|reflexivity].
Qed.

Lemma floor_scaled_lt (q : Q) (n : nat) :
  (0 <= q)%Q → (q < 1)%Q → 0 < n →
  Z.to_nat (Qfloor (q * inject_Z (Z.of_nat n))) < n.
Proof.
  intros Hlo Hhi Hn.
  assert (Hpos : (0 < inject_Z (Z.of_nat n))%Q).
  { change 0%Q with (inject_Z 0). rewrite <- Zlt_Qlt. lia. }
  assert (Hlt : (q * inject_Z (Z.of_nat n) < inject_Z (Z.of_nat n))%Q).
  { rewrite <- (Qmult_1_l (inject_Z (Z.of_nat n))) at 2.
    by apply Qmult_lt_compat_r. }
  assert (Hfl : (Qfloor (q * inject_Z (Z.of_nat n)) < Z.of_nat n)%Z).
  { rewrite Zlt_Qlt. eapply Qle_lt_trans; [apply Qfloor_le|exact Hlt]. }
  lia.
Qed.

Lemma returns_randomIndex (n : nat) :
  0 < n → returns (randomIndex n) (λ i, i < n).
Proof.
  intros Hn. unfold randomIndex.
  eapply returns_bind; [apply returns_random|].
  intros q [Hlo Hhi]. apply returns_ret. by apply floor_scaled_lt.
Qed.

Lemma returns_randomIndex_any (n : nat) :
  returns (randomIndex n) (λ _, True).
Proof.
  unfold randomIndex. eapply returns_bind; [apply returns_random|].
  intros q _. by apply returns_ret.
Qed.

Lemma returns_randomBelow (p : Q) : returns (randomBelow p) (λ _, True).
Proof.
  unfold randomBelow. eapply returns_bind; [apply returns_random|].
  intros q _. by apply returns_ret.
Qed.

(** A loop returns when each round does and keeps the invariant. *)
Lemma returns_forEachM {S} (body : nat → S → Gen S) (inv : S → Prop)
    (indices : list nat) (st : S) :
  (∀ i st, i ∈ indices → inv st → returns (body i st) inv) →
  inv st → returns (forEachM body indices st) inv.
Proof.
  revert st. induction indices as [|i rest IH]; intros st Hbody Hst; simpl.
  - by apply returns_ret.
  - eapply returns_bind; [apply Hbody; [by left|done]|].
    intros st' Hst'. apply IH; [|done].
    intros j st'' Hj. apply Hbody. by right.
Qed.

(** ** Sorting returns a permutation *)

Section sort_facts.
Context {A : Type} (compareFn : A → A → Gen Q).
Hypothesis compareFn_returns : ∀ a b, returns (compareFn a b) (λ _, True).

Lemma returns_insertM (x : A) (sorted : list A) :
  returns (insertM compareFn x sorted) (λ l, l ≡ₚ x :: sorted).
Proof using compareFn_returns.
  induction sorted as [|y rest IH]; simpl.
  - by apply returns_ret.
  - eapply returns_bind; [apply compareFn_returns|].
    intros v _. destruct (Qltb 0 v).
    + by apply returns_ret.
    + eapply returns_bind; [apply IH|].
      intros rest' Hperm. apply returns_ret.
      rewrite Hperm. apply perm_swap.
Qed.

Lemma returns_sortLoop (sorted todo : list A) :
  returns (sortLoop compareFn sorted todo) (λ l, l ≡ₚ sorted ++ todo).
Proof using compareFn_returns.
  revert sorted. induction todo as [|x todo IH]; intros sorted; simpl.
  - apply returns_ret. by rewrite app_nil_r.
  - eapply returns_bind; [apply returns_insertM|].
    intros sorted' Hperm. eapply returns_weaken; [apply IH|].
    intros l Hl. simpl in Hl. rewrite Hl, Hperm. simpl.
    apply Permutation_middle.
Qed.

Lemma returns_sortM (l : list A) :
  returns (sortM compareFn l) (λ l', l' ≡ₚ l).
Proof using compareFn_returns.
  unfold sortM. eapply returns_weaken; [apply returns_sortLoop|]. done.
Qed.
End sort_facts.

Lemma returns_randomOrder {A} (a b : A) :
  returns (randomOrder a b) (λ _, True).
Proof.
  unfold randomOrder. eapply returns_bind; [apply returns_random|].
  intros q _. by apply returns_ret.
Qed.

Lemma returns_byCatId (a b : CatBox) : returns (byCatId a b) (λ _, True).
Proof. unfold byCatId. by apply returns_ret. Qed.

(** ** Counting boxes by kind *)

Lemma cntKind_nil k : cntKind k [] = 0.
Proof. done. Qed.

Lemma cntKind_cons k b l : cntKind k (b :: l) = isKind k b + cntKind k l.
Proof.
  unfold cntKind, isKind. rewrite filter_cons. by case_decide.
Qed.

Lemma cntKind_app k l1 l2 : cntKind k (l1 ++ l2) = cntKind k l1 + cntKind k l2.
Proof. unfold cntKind. by rewrite filter_app, length_app. Qed.

Lemma cntKind_perm k l l' : l ≡ₚ l' → cntKind k l = cntKind k l'.
Proof. unfold cntKind. by intros ->. Qed.

Lemma cntKind_insert k (stack : Stack) j a b :
  stack !! j = Some a →
  cntKind k (<[j := b]> stack) + isKind k a = cntKind k stack + isKind k b.
Proof.
  revert j. induction stack as [|c stack IH]; intros j Hj; [done|].
  destruct j as [|j]; simpl in *.
  - injection Hj as ->. rewrite !cntKind_cons. lia.
  - rewrite !cntKind_cons. specialize (IH j Hj). lia.
Qed.

Lemma kindCount_cntKind k (board : list Stack) :
  kindCount k board = cntKind k (concat board).
Proof. done. Qed.

Lemma kindCount_cons k (stack : Stack) (board : list Stack) :
  kindCount k (stack :: board) = cntKind k stack + kindCount k board.
Proof. rewrite !kindCount_cntKind. simpl. apply cntKind_app. Qed.

Lemma kindCount_app k (b1 b2 : list Stack) :
  kindCount k (b1 ++ b2) = kindCount k b1 + kindCount k b2.
Proof. rewrite !kindCount_cntKind, concat_app. apply cntKind_app. Qed.

Lemma kindCount_insert k (board : list Stack) i (stack stack' : Stack) :
  board !! i = Some stack →
  kindCount k (<[i := stack']> board) + cntKind k stack
  = kindCount k board + cntKind k stack'.
Proof.
  revert i. induction board as [|st board IH]; intros i Hi; [done|].
  destruct i as [|i]; simpl in *.
  - injection Hi as ->. rewrite !kindCount_cons. lia.
  - rewrite !kindCount_cons. specialize (IH i Hi). lia.
Qed.

Lemma kindCount_replicate_nil k n : kindCount k (replicate n []) = 0.
Proof.
  induction n as [|n IH]; [done|]. simpl. by rewrite kindCount_cons, IH.
Qed.

(** ** Removing boxes by id *)

Lemma idKind_subseteq (l l' : list CatBox) : l' ⊆ l → idKind l → idKind l'.
Proof. intros Hsub Hl a b Ha Hb. apply Hl; by apply Hsub. Qed.

Lemma removeById_sublist id (l : list CatBox) :
  removeById id l `sublist_of` l.
Proof.
  induction l as [|a l IH]; simpl; [constructor|].
  case_bool_decide; by constructor.
Qed.

Lemma removeById_cnt k b (l : list CatBox) :
  b ∈ l → idKind l →
  cntKind k (removeById (box_id b) l) + isKind k b = cntKind k l.
Proof.
  induction l as [|a l IH]; intros Hin Hid; [by apply elem_of_nil in Hin|].
  simpl. case_bool_decide as Heq.
  - rewrite cntKind_cons.
    assert (kind a = kind b) as Hk.
    { apply Hid; [by left|done|done]. }
    unfold isKind. rewrite Hk. lia.
  - apply elem_of_cons in Hin as [->|Hin]; [done|].
    rewrite !cntKind_cons. rewrite <- IH; [lia|done|].
    eapply idKind_subseteq; [|done]. intros x Hx. by right.
Qed.

Lemma removeById_length b (l : list CatBox) :
  b ∈ l → S (length (removeById (box_id b) l)) = length l.
Proof.
  induction l as [|a l IH]; intros Hin; [by apply elem_of_nil in Hin|].
  simpl. case_bool_decide as Heq; [done|].
  apply elem_of_cons in Hin as [->|Hin]; [done|].
  simpl. by rewrite IH.
Qed.

Lemma sublist_removeById b (sel l : list CatBox) :
  b :: sel `sublist_of` l → sel `sublist_of` removeById (box_id b) l.
Proof.
  induction l as [|a l IH]; intros Hsub.
  { by apply sublist_nil_r in Hsub. }
  simpl. case_bool_decide as Heq.
  - apply sublist_cons_r in Hsub as [Hsub|(sel' & [= _ <-] & Hsub)]; [|done].
    etrans; [|exact Hsub]. by apply sublist_cons.
  - apply sublist_cons_r in Hsub as [Hsub|(sel' & [= <- _] & _)]; [|done].
    apply sublist_cons. by apply IH.
Qed.

(** Removing the selected boxes one by one, each by its id, takes away as
    many boxes of each kind as were selected. *)
Lemma removeAll_spec (sel l : list CatBox) :
  sel `sublist_of` l → idKind l →
  let l' := foldl (λ remaining box, removeById (box_id box) remaining) l sel in
  (∀ k, cntKind k l' + cntKind k sel = cntKind k l)
  ∧ length l' + length sel = length l
  ∧ l' `sublist_of` l.
Proof.
  revert l. induction sel as [|b sel IH]; intros l Hsub Hid; simpl.
  { split; [intros k; rewrite cntKind_nil; lia|]. split; [lia|done]. }
  assert (Hb : b ∈ l).
  { apply (sublist_subseteq _ _ Hsub). by left. }
  destruct (IH (removeById (box_id b) l)) as (Hcnt & Hlen & Hsub').
  { by apply sublist_removeById. }
  { eapply idKind_subseteq; [|done].
    apply sublist_subseteq, removeById_sublist. }
  split; [|split].
  - intros k. rewrite cntKind_cons.
    pose proof (Hcnt k). pose proof (removeById_cnt k b l Hb Hid). lia.
  - pose proof (removeById_length b l Hb). lia.
  - etrans; [exact Hsub'|]. apply removeById_sublist.
Qed.

(** The grouping loop returns, and keeps the number of boxes and the number
    of boxes of each kind. *)
Lemma returns_preMatch (rounds : nat) (organized remaining : list CatBox) :
  idKind remaining →
  returns (preMatch rounds organized remaining)
    (λ groups,
       (∀ k, cntKind k (groups.1 ++ groups.2)
             = cntKind k (organized ++ remaining))
       ∧ length (groups.1 ++ groups.2) = length (organized ++ remaining)).
Proof.
  revert organized remaining.
  induction rounds as [|rounds IH]; intros organized remaining Hid;
    cbn [preMatch].
  { by apply returns_ret. }
  case_bool_decide as Hlen; [|by apply returns_ret].
  eapply returns_bind; [by apply returns_randomIndex|].
  intros boxIndex Hidx. simpl in Hidx.
  destruct (lookup_lt_is_Some_2 remaining boxIndex Hidx) as [picked Hpicked].
  eapply (returns_bind _ _ (λ a, a = picked));
    [by eapply returns_defined|].
  intros ? ->.
  set (sel := take (3 `min` length (filter (λ box, kind box = kind picked)
                                          remaining))
                   (filter (λ box, kind box = kind picked) remaining)).
  assert (Hsel : sel `sublist_of` remaining).
  { etrans; [apply sublist_take|]. apply sublist_filter. }
  destruct (removeAll_spec sel remaining Hsel Hid) as (Hcnt & Hlen' & Hsub).
  eapply returns_weaken.
  { apply IH. eapply idKind_subseteq; [|done]. by apply sublist_subseteq. }
  intros groups [Hc Hl]. split.
  - intros k. rewrite Hc, !cntKind_app. pose proof (Hcnt k). lia.
  - rewrite Hl, !length_app. lia.
Qed.

(** ** Dealing the boxes *)

Lemma fillStacks_length f bps (mixed : list CatBox) :
  length (fillStacks f bps mixed) = f.
Proof. unfold fillStacks. by rewrite length_fmap, length_seq. Qed.

Lemma fillStacks_lookup f bps (mixed : list CatBox) i :
  i < f →
  fillStacks f bps mixed !! i = Some (take bps (drop (i * bps) mixed)).
Proof.
  intros Hi. unfold fillStacks.
  by rewrite list_lookup_fmap, lookup_seq_lt.
Qed.

Lemma fillStacks_concat f bps (mixed : list CatBox) :
  concat (fillStacks f bps mixed) = take (f * bps) mixed.
Proof.
  unfold fillStacks. induction f as [|f IH]; [done|].
  rewrite seq_S, fmap_app, concat_app, IH. simpl.
  rewrite app_nil_r, take_take_drop. f_equal. lia.
Qed.

(** ** Swaps and sorts keep the shape of the board *)

Lemma sameShape_refl (board : list Stack) : sameShape board board.
Proof. by split. Qed.

Lemma sameShape_trans (b1 b2 b3 : list Stack) :
  sameShape b1 b2 → sameShape b2 b3 → sameShape b1 b3.
Proof.
  intros [Hl1 Hc1] [Hl2 Hc2]. split; [congruence|].
  intros k. by rewrite Hc2.
Qed.

Lemma sameShape_length (b1 b2 : list Stack) :
  sameShape b1 b2 → length b2 = length b1.
Proof.
  intros [Hl _]. apply (f_equal length) in Hl.
  by rewrite !length_fmap in Hl.
Qed.

Lemma sameShape_lookup (b1 b2 : list Stack) i (st : Stack) :
  sameShape b1 b2 → b1 !! i = Some st →
  ∃ st', b2 !! i = Some st' ∧ length st' = length st.
Proof.
  intros [Hl _] Hi.
  assert (Hli : (length <$> b2) !! i = Some (length st)).
  { rewrite Hl, list_lookup_fmap, Hi. done. }
  rewrite list_lookup_fmap in Hli.
  destruct (b2 !! i) as [st'|]; [|done].
  injection Hli as Hli. by exists st'.
Qed.

Lemma sameShape_sym (b1 b2 : list Stack) : sameShape b1 b2 → sameShape b2 b1.
Proof. intros [Hl Hc]. split; [done|]. intros k. by rewrite Hc. Qed.

Lemma sameShape_insert (board : list Stack) i (st st' : Stack) :
  board !! i = Some st → length st' = length st →
  (∀ k, cntKind k st' = cntKind k st) →
  sameShape board (<[i := st']> board).
Proof.
  intros Hi Hlen Hcnt. split.
  - rewrite list_fmap_insert. apply list_insert_id.
    rewrite list_lookup_fmap, Hi. simpl. by rewrite Hlen.
  - intros k. pose proof (kindCount_insert k board i st st' Hi).
    rewrite Hcnt in H. lia.
Qed.

Lemma sameShape_insert_perm (board : list Stack) i (st st' : Stack) :
  board !! i = Some st → st' ≡ₚ st → sameShape board (<[i := st']> board).
Proof.
  intros Hi Hperm. apply (sameShape_insert board i st); [done| |].
  - by rewrite Hperm.
  - intros k. by apply cntKind_perm.
Qed.

(** A read that is known to succeed, followed by the rest. *)
Lemma returns_bind_defined {A B} (o : option A) (a : A) (k : A → Gen B)
    (post : B → Prop) :
  o = Some a → returns (k a) post → returns (bind (defined o) k) post.
Proof.
  intros -> Hk. eapply (returns_bind _ _ (λ x, x = a)).
  - by apply returns_ret.
  - by intros ? ->.
Qed.

(** The swap of two boxes that are there returns and keeps the shape. *)
Lemma returns_swapBoxes (board : list Stack) i j r k (si sr : Stack) a b :
  board !! i = Some si → si !! j = Some a →
  board !! r = Some sr → sr !! k = Some b →
  returns (swapBoxes i j r k board) (sameShape board).
Proof.
  intros Hi Hj Hr Hk. unfold swapBoxes.
  apply (returns_bind_defined _ si); [done|].
  apply (returns_bind_defined _ a); [done|].
  apply (returns_bind_defined _ sr); [done|].
  apply (returns_bind_defined _ b); [done|].
  set (board1 := <[i := <[j := b]> si]> board).
  pose proof (lookup_lt_Some _ _ _ Hi) as Hli.
  pose proof (lookup_lt_Some _ _ _ Hj) as Hlj.
  assert (∃ sr1, board1 !! r = Some sr1 ∧ sr1 !! k = Some b
                 ∧ length sr1 = length sr) as (sr1 & Hr1 & Hk1 & Hlen1).
  { subst board1. destruct (decide (r = i)) as [->|Hne].
    - exists (<[j := b]> si).
      rewrite list_lookup_insert_eq by done.
      assert (sr = si) as -> by congruence.
      split; [done|]. rewrite length_insert. split; [|done].
      destruct (decide (k = j)) as [->|Hkj].
      + by rewrite list_lookup_insert_eq.
      + by rewrite list_lookup_insert_ne.
    - exists sr. by rewrite list_lookup_insert_ne. }
  apply (returns_bind_defined _ sr1); [done|].
  apply returns_ret. split.
  - rewrite list_fmap_insert.
    rewrite list_insert_id.
    2:{ rewrite list_lookup_fmap, Hr1. simpl. by rewrite length_insert. }
    subst board1. rewrite list_fmap_insert. apply list_insert_id.
    rewrite list_lookup_fmap, Hi. simpl. by rewrite length_insert.
  - intros kd.
    pose proof (kindCount_insert kd board1 r sr1 (<[k := a]> sr1) Hr1) as E1.
    pose proof (cntKind_insert kd sr1 k b a Hk1) as E2.
    pose proof (kindCount_insert kd board i si (<[j := b]> si) Hi) as E3.
    pose proof (cntKind_insert kd si j a b Hj) as E4.
    fold board1 in E3. lia.
Qed.

Lemma returns_randomOtherStack i filledStacks :
  0 < filledStacks →
  returns (randomOtherStack i filledStacks) (λ r, r < filledStacks).
Proof.
  intros Hf. unfold randomOtherStack.
  eapply returns_bind; [apply returns_randomIndex_any|].
  intros offset _. apply returns_ret. apply Nat.mod_upper_bound. lia.
Qed.

Section shape_loops.
Variable filledStacks : nat.
Hypothesis filled_pos : 0 < filledStacks.

(** Easy mode, one stack. *)
Lemma returns_groupStack (board : list Stack) i :
  i < length board →
  returns (groupStack i board) (sameShape board).
Proof.
  intros Hi. unfold groupStack.
  eapply returns_bind; [apply returns_randomBelow|].
  intros [|] _; [|apply returns_ret, sameShape_refl].
  destruct (lookup_lt_is_Some_2 board i Hi) as [st Hst].
  apply (returns_bind_defined _ st); [done|].
  eapply returns_bind; [apply returns_sortM, returns_byCatId|].
  intros sorted Hperm. apply returns_ret.
  by apply (sameShape_insert_perm board i st).
Qed.

(** Medium and hard mode, one stack: every filled stack must hold a box for
    the swap to find a partner. *)
Lemma returns_unsortStack (board : list Stack) i :
  filledStacks ≤ length board → i < filledStacks →
  (∀ r st, r < filledStacks → board !! r = Some st → st ≠ []) →
  returns (unsortStack filledStacks i board) (sameShape board).
Proof using filled_pos.
  intros Hf Hi Hne. unfold unsortStack.
  destruct (lookup_lt_is_Some_2 board i) as [st Hst]; [lia|].
  apply (returns_bind_defined _ st); [done|].
  eapply returns_bind; [apply returns_sortM, @returns_randomOrder|].
  intros shuffled Hperm.
  assert (Hshape : sameShape board (<[i := shuffled]> board)).
  { by apply (sameShape_insert_perm board i st). }
  destruct shuffled as [|first rest] eqn:Hsh; [by apply returns_ret|].
  rewrite <- Hsh in *.
  destruct (forallb (λ box, sameKind box first) shuffled
            && bool_decide (length shuffled = MAX_STACK_SIZE));
    [|by apply returns_ret].
  eapply returns_bind; [by apply returns_randomOtherStack|].
  intros r Hr. simpl in Hr.
  destruct (lookup_lt_is_Some_2 board r) as [sr0 Hsr0]; [lia|].
  destruct (sameShape_lookup _ _ r sr0 Hshape Hsr0) as (sr & Hsr & Hlen).
  apply (returns_bind_defined _ sr); [done|].
  assert (0 < length sr) as Hpos.
  { rewrite Hlen. specialize (Hne r sr0 Hr Hsr0). destruct sr0; [done|].
    simpl. lia. }
  eapply returns_bind; [by apply returns_randomIndex|].
  intros k Hk. simpl in Hk.
  destruct (lookup_lt_is_Some_2 sr k Hk) as [b Hb].
  eapply returns_weaken.
  - eapply (returns_swapBoxes _ i 0 r k shuffled sr first b); [|by subst|done..].
    apply list_lookup_insert_eq. by eapply lookup_lt_Some.
  - intros board' Hshape'. by eapply sameShape_trans.
Qed.

Variable breakupProbability : Q.

Lemma returns_breakPair (board : list Stack) i j (st : Stack) :
  filledStacks ≤ length board →
  board !! i = Some st → 1 ≤ j → j < length st →
  returns (breakPair filledStacks breakupProbability i j board)
          (sameShape board).
Proof using filled_pos.
  intros Hf Hst Hj1 Hj. unfold breakPair.
  apply (returns_bind_defined _ st); [done|].
  destruct (lookup_lt_is_Some_2 st j Hj) as [box Hbox].
  apply (returns_bind_defined _ box); [done|].
  destruct (lookup_lt_is_Some_2 st (j - 1)) as [above Habove]; [lia|].
  apply (returns_bind_defined _ above); [done|].
  destruct (sameKind box above); [|apply returns_ret, sameShape_refl].
  eapply returns_bind; [apply returns_randomBelow|].
  intros [|] _; [|apply returns_ret, sameShape_refl].
  eapply returns_bind; [by apply returns_randomOtherStack|].
  intros r Hr. simpl in Hr.
  destruct (lookup_lt_is_Some_2 board r) as [sr Hsr]; [lia|].
  apply (returns_bind_defined _ sr); [done|].
  case_bool_decide as Hpos; [|apply returns_ret, sameShape_refl].
  eapply returns_bind; [by apply returns_randomIndex|].
  intros k Hk. simpl in Hk.
  destruct (lookup_lt_is_Some_2 sr k Hk) as [b Hb].
  by eapply (returns_swapBoxes _ i j r k st sr box b).
Qed.

Lemma returns_breakStack (board : list Stack) i :
  filledStacks ≤ length board → i < filledStacks →
  returns (breakStack filledStacks breakupProbability i board)
          (sameShape board).
Proof using filled_pos.
  intros Hf Hi. unfold breakStack.
  destruct (lookup_lt_is_Some_2 board i) as [st Hst]; [lia|].
  apply (returns_bind_defined _ st); [done|].
  apply returns_forEachM; [|apply sameShape_refl].
  intros j board' [Hj1 Hj2]%elem_of_seq Hshape.
  destruct (sameShape_lookup _ _ i st Hshape Hst) as (st' & Hst' & Hlen).
  eapply returns_weaken.
  - eapply (returns_breakPair board' i j st'); [|done|done|lia].
    by rewrite (sameShape_length _ _ Hshape).
  - intros board'' Hshape'. by eapply sameShape_trans.
Qed.
End shape_loops.

(** ** The boxes of the chosen cats *)

Lemma string_length_append (s t : string) :
  String.length (s +:+ t) = String.length s + String.length t.
Proof. induction s as [|c s IH]; simpl; [done|]. by rewrite IH. Qed.

(** Two strings that end in suffixes of the same length and are equal have
    the same front part. *)
Lemma string_append_front (s1 s2 t1 t2 : string) :
  String.length t1 = String.length t2 →
  s1 +:+ t1 = s2 +:+ t2 → s1 = s2.
Proof.
  intros Hlen. revert s2.
  induction s1 as [|c s1 IH]; intros [|c' s2] Heq; simpl in *.
  - done.
  - apply (f_equal String.length) in Heq.
    rewrite ?string_length_append in Heq. simpl in Heq.
    rewrite ?string_length_append in Heq. lia.
  - apply (f_equal String.length) in Heq.
    rewrite ?string_length_append in Heq. simpl in Heq.
    rewrite ?string_length_append in Heq. lia.
  - injection Heq as -> Heq. f_equal. by apply IH.
Qed.

Lemma boxesOf_elem c b :
  b ∈ boxesOf c →
  cat b = c ∧ ∃ suffix, box_id b = cat_id c +:+ suffix
                         ∧ String.length suffix = 2.
Proof.
  unfold boxesOf. intros (i & -> & Hi)%list_elem_of_fmap.
  split; [done|]. exists ("-" +:+ pretty i). split; [done|].
  apply elem_of_seq in Hi as [_ Hi].
  assert (i = 0 ∨ i = 1 ∨ i = 2 ∨ i = 3) as [-> | [-> | [-> | ->]]]
    by (unfold MAX_STACK_SIZE in Hi; lia); done.
Qed.

Lemma createBoxes_idKind (cats : list Cat) : idKind (createBoxes cats).
Proof.
  unfold createBoxes. intros a b Ha Hb Hid.
  apply list_elem_of_bind in Ha as (ca & Ha & _).
  apply list_elem_of_bind in Hb as (cb & Hb & _).
  apply boxesOf_elem in Ha as (Hca & sa & Hida & Hla).
  apply boxesOf_elem in Hb as (Hcb & sb & Hidb & Hlb).
  unfold kind. rewrite Hca, Hcb.
  apply (string_append_front _ _ sa sb); congruence.
Qed.

Lemma boxesOf_length c : length (boxesOf c) = MAX_STACK_SIZE.
Proof. unfold boxesOf. by rewrite length_fmap, length_seq. Qed.

Lemma boxesOf_cntKind k c :
  cntKind k (boxesOf c)
  = if decide (cat_id c = k) then MAX_STACK_SIZE else 0.
Proof.
  assert (Hgen : ∀ l : list nat,
    cntKind k ((λ i, mkBox (cat_id c +:+ "-" +:+ pretty i) c) <$> l)
    = if decide (cat_id c = k) then length l else 0).
  { induction l as [|i l IH]; [by case_decide|].
    rewrite fmap_cons, cntKind_cons, IH. unfold isKind, kind. simpl.
    by case_decide. }
  unfold boxesOf. by rewrite Hgen, length_seq.
Qed.

Lemma createBoxes_length (cats : list Cat) :
  length (createBoxes cats) = MAX_STACK_SIZE * length cats.
Proof.
  unfold createBoxes. induction cats as [|c cats IH]; [done|].
  rewrite bind_cons, length_app, IH, boxesOf_length. simpl. lia.
Qed.

Lemma createBoxes_cntKind k (cats : list Cat) :
  cntKind k (createBoxes cats)
  = MAX_STACK_SIZE * length (filter (λ c, cat_id c = k) cats).
Proof.
  unfold createBoxes. induction cats as [|c cats IH]; [done|].
  rewrite bind_cons, cntKind_app, IH, boxesOf_cntKind, filter_cons.
  case_decide; simpl; lia.
Qed.

(** Distinct cats have at most [MAX_STACK_SIZE] boxes per kind. *)
Lemma createBoxes_NoDup k (cats : list Cat) :
  NoDup (cat_id <$> cats) → cntKind k (createBoxes cats) ≤ MAX_STACK_SIZE.
Proof.
  intros Hnd. rewrite createBoxes_cntKind.
  assert (length (filter (λ c, cat_id c = k) cats) ≤ 1);
    [|unfold MAX_STACK_SIZE; lia].
  induction cats as [|c cats IH]; [simpl; lia|].
  rewrite fmap_cons in Hnd. apply NoDup_cons in Hnd as [Hc Hnd].
  rewrite filter_cons. case_decide as Hk; [|by apply IH].
  simpl. assert (filter (λ c, cat_id c = k) cats = []) as ->; [|done].
  destruct (filter (λ c, cat_id c = k) cats) as [|c' l] eqn:Hf; [done|].
  exfalso. apply Hc.
  assert (c' ∈ filter (λ c, cat_id c = k) cats) as Hin by (rewrite Hf; by left).
  apply list_elem_of_filter in Hin as [Hk' Hin].
  apply list_elem_of_fmap. exists c'. split; [congruence|done].
Qed.

(** ** The post-condition check *)

(** Counting a box adds at most one to the count of its kind and nothing to
    the count of another. *)
Lemma countBox_le (catCounts : gmap string (option nat)) (box : CatBox) k :
  countOf (countBox catCounts box) k ≤ countOf catCounts k + isKind k box.
Proof.
  unfold countBox, isKind. cbv zeta.
  destruct (decide (kind box = "__proto__")) as [Hp|Hp].
  { assert (Hset : ∀ v (m : gmap string (option nat)),
              setProp (kind box) v m = m).
    { intros v m. unfold setProp. by rewrite bool_decide_eq_true_2. }
    rewrite !Hset.
    destruct (getProp (kind box) catCounts) as [|[[|n]|]|] eqn:E; simpl;
      rewrite ?E, ?Hset; simpl; lia. }
  assert (Hset : ∀ v (m : gmap string (option nat)),
            setProp (kind box) v m = <[kind box := v]> m).
  { intros v m. unfold setProp. by rewrite bool_decide_eq_false_2. }
  assert (Hget : ∀ v (m : gmap string (option nat)),
            getProp (kind box) (<[kind box := v]> m) = Own v).
  { intros v m. unfold getProp. by rewrite lookup_insert_eq. }
  unfold countOf.
  destruct (decide (kind box = k)) as [<-|Hne].
  - unfold getProp at 2.
    destruct (catCounts !! kind box) as [[[|n]|]|] eqn:E.
    + rewrite !Hset, Hget, Hset, lookup_insert_eq. lia.
    + unfold getProp. rewrite E, Hset, lookup_insert_eq. lia.
    + rewrite !Hset, Hget, Hset, lookup_insert_eq. lia.
    + case_bool_decide.
      * unfold getProp. rewrite E, bool_decide_eq_true_2 by done.
        rewrite Hset, lookup_insert_eq. lia.
      * rewrite !Hset, Hget, Hset, lookup_insert_eq. lia.
  - assert (Hother : ∀ v (m : gmap string (option nat)),
              setProp (kind box) v m !! k = m !! k).
    { intros v m. by rewrite Hset, lookup_insert_ne. }
    destruct (getProp (kind box) catCounts) as [|[[|n]|]|];
      match goal with
      | |- context [match getProp ?i ?m with _ => _ end] =>
          destruct (getProp i m) as [|[?|]|]
      end; rewrite ?Hother; lia.
Qed.

Lemma countCats_le (board : list Stack) k :
  countOf (countCats board) k ≤ kindCount k board.
Proof.
  unfold countCats. rewrite kindCount_cntKind.
  assert (Hgen : ∀ boxes (m : gmap string (option nat)),
    countOf (foldl countBox m boxes) k ≤ countOf m k + cntKind k boxes).
  { induction boxes as [|b boxes IH]; intros m; [simpl; lia|].
    cbn [foldl]. rewrite cntKind_cons.
    pose proof (IH (countBox m b)). pose proof (countBox_le m b k). lia. }
  pose proof (Hgen (concat board) ∅) as Hle.
  unfold countOf at 2 in Hle. by rewrite lookup_empty in Hle.
Qed.

(** The check only fires on a kind with more than [MAX_STACK_SIZE] boxes. *)
Lemma tooManyBoxesOfOnecat_true (board : list Stack) :
  tooManyBoxesOfOnecat board = true
  → ∃ k, MAX_STACK_SIZE < kindCount k board.
Proof.
  unfold tooManyBoxesOfOnecat. rewrite existsb_exists.
  intros ([k [count|]] & Hin%list_elem_of_In%elem_of_map_to_list & Hn);
    [|done].
  apply bool_decide_eq_true in Hn. simpl in Hn.
  exists k. pose proof (countCats_le board k) as Hle.
  unfold countOf in Hle. rewrite Hin in Hle. lia.
Qed.

Lemma oversizedStacks_withinCapacity (board : list Stack) :
  withinCapacity board → oversizedStacks board = false.
Proof.
  intros Hcap. apply not_true_iff_false. unfold oversizedStacks.
  rewrite existsb_exists.
  intros (st & Hin%list_elem_of_In & Hlen%bool_decide_eq_true).
  specialize (Hcap st Hin). lia.
Qed.

(** ** One pass of generation *)

Lemma withinCapacity_sameShape (b1 b2 : list Stack) :
  sameShape b1 b2 → withinCapacity b1 → withinCapacity b2.
Proof.
  intros Hshape Hcap st' [i Hi]%list_elem_of_lookup.
  destruct (sameShape_lookup _ _ i st' (sameShape_sym _ _ Hshape) Hi)
    as (st & Hst & Hlen).
  rewrite <- Hlen. apply Hcap. by eapply list_elem_of_lookup_2.
Qed.

Lemma nonempty_sameShape (b1 b2 : list Stack) f :
  sameShape b1 b2 →
  (∀ r st, r < f → b1 !! r = Some st → st ≠ []) →
  ∀ r st, r < f → b2 !! r = Some st → st ≠ [].
Proof.
  intros Hshape Hne r st' Hr Hst'.
  destruct (sameShape_lookup _ _ r st' (sameShape_sym _ _ Hshape) Hst')
    as (st & Hst & Hlen).
  specialize (Hne r st Hr Hst). destruct st'; [|done].
  destruct st; [done|]. done.
Qed.

Lemma returns_groupStacks f (board : list Stack) :
  f ≤ length board →
  returns (forEachM groupStack (seq 0 f) board) (sameShape board).
Proof.
  intros Hf. apply returns_forEachM; [|apply sameShape_refl].
  intros i b [_ Hi]%elem_of_seq Hshape.
  eapply returns_weaken.
  - apply returns_groupStack. rewrite (sameShape_length _ _ Hshape). lia.
  - intros b' Hb'. by eapply sameShape_trans.
Qed.

Lemma returns_unsortStacks f (board : list Stack) :
  0 < f → f ≤ length board →
  (∀ r st, r < f → board !! r = Some st → st ≠ []) →
  returns (forEachM (unsortStack f) (seq 0 f) board) (sameShape board).
Proof.
  intros Hpos Hf Hne. apply returns_forEachM; [|apply sameShape_refl].
  intros i b [_ Hi]%elem_of_seq Hshape.
  eapply returns_weaken.
  - apply returns_unsortStack; [done| |lia|].
    + rewrite (sameShape_length _ _ Hshape). lia.
    + by eapply nonempty_sameShape.
  - intros b' Hb'. by eapply sameShape_trans.
Qed.

Lemma returns_breakStacks f p (board : list Stack) :
  0 < f → f ≤ length board →
  returns (forEachM (breakStack f p) (seq 0 f) board) (sameShape board).
Proof.
  intros Hpos Hf. apply returns_forEachM; [|apply sameShape_refl].
  intros i b [_ Hi]%elem_of_seq Hshape.
  eapply returns_weaken.
  - apply returns_breakStack; [done| |lia].
    rewrite (sameShape_length _ _ Hshape). lia.
  - intros b' Hb'. by eapply sameShape_trans.
Qed.

Lemma leftoverLoop_nil fuel f (newStacks : list Stack) i :
  leftoverLoop fuel f newStacks [] i = ret newStacks.
Proof. by destruct fuel. Qed.

Lemma returns_bind_ret {A B} (a : A) (k : A → Gen B) (post : B → Prop) :
  returns (k a) post → returns (bind (ret a) k) post.
Proof.
  intros Hk. eapply (returns_bind _ _ (λ x, x = a)).
  - by apply returns_ret.
  - by intros ? ->.
Qed.

(** When the filled stacks can take all boxes (and, outside easy mode, each
    of them receives one), a pass returns a board within capacity that holds
    exactly the created boxes of each kind. *)
Lemma returns_buildStacks fuel d (cats : list Cat) (config : Config.t) :
  let n := length (createBoxes cats) in
  let f := Config.stacks config - Config.emptyStacks config in
  let bps := boxesPerStackOf n f in
  0 < f → n ≤ f * bps →
  (d = easy ∨ ∀ i, i < f → i * bps < n) →
  returns (buildStacks fuel d cats config)
    (λ board, withinCapacity board
              ∧ ∀ k, kindCount k board = cntKind k (createBoxes cats)).
Proof.
  intros n f bps Hf Hn Hmode. unfold buildStacks.
  eapply returns_bind; [apply returns_sortM, @returns_randomOrder|].
  intros shuffled Hperm.
  eapply returns_bind.
  { apply returns_preMatch. eapply idKind_subseteq; [|apply createBoxes_idKind].
    intros x. by rewrite Hperm. }
  intros groups [Hcnt Hlen]. simpl in Hcnt, Hlen.
  fold n f bps.
  set (mixed := groups.1 ++ groups.2) in *.
  assert (Hmixed_len : length mixed = n).
  { rewrite Hlen. unfold n. by rewrite Hperm. }
  assert (Hmixed_cnt : ∀ k, cntKind k mixed = cntKind k (createBoxes cats)).
  { intros k. rewrite Hcnt. by apply cntKind_perm. }
  rewrite (drop_ge mixed (f * bps)) by lia.
  rewrite leftoverLoop_nil. apply returns_bind_ret.
  set (board0 := fillStacks f bps mixed
                 ++ replicate (Config.emptyStacks config) []).
  assert (Hbps : bps ≤ MAX_STACK_SIZE).
  { unfold bps, boxesPerStackOf. lia. }
  assert (Hlen0 : f ≤ length board0).
  { unfold board0. rewrite length_app, fillStacks_length. lia. }
  assert (Hcap0 : withinCapacity board0).
  { intros st [i Hi]%list_elem_of_lookup. unfold board0 in Hi.
    apply lookup_app_Some in Hi as [Hi|[_ Hi]].
    - pose proof (lookup_lt_Some _ _ _ Hi) as Hlt.
      rewrite fillStacks_length in Hlt.
      rewrite fillStacks_lookup in Hi by done. injection Hi as <-.
      rewrite length_take. lia.
    - apply lookup_replicate in Hi as [-> _]. simpl. lia. }
  assert (Hcnt0 : ∀ k, kindCount k board0 = cntKind k (createBoxes cats)).
  { intros k. unfold board0.
    rewrite kindCount_app, kindCount_replicate_nil, kindCount_cntKind.
    rewrite fillStacks_concat, take_ge by lia. rewrite Hmixed_cnt. lia. }
  assert (Hfinish : ∀ board, sameShape board0 board →
            withinCapacity board
            ∧ ∀ k, kindCount k board = cntKind k (createBoxes cats)).
  { intros board Hshape. split; [by eapply withinCapacity_sameShape|].
    intros k. destruct Hshape as [_ Hc]. by rewrite Hc. }
  eapply returns_bind.
  { instantiate (1 := sameShape board0). destruct d.
    - by apply returns_groupStacks.
    - apply returns_unsortStacks; [done..|].
      destruct Hmode as [?|Hfull]; [done|].
      intros r st Hr Hst. unfold board0 in Hst.
      rewrite lookup_app_l in Hst by (by rewrite fillStacks_length).
      rewrite fillStacks_lookup in Hst by done. injection Hst as <-.
      specialize (Hfull r Hr). intros Hnil%(f_equal length).
      rewrite length_take, length_drop in Hnil. simpl in Hnil.
      assert (0 < bps); [|lia].
      destruct bps; [|lia]. lia.
    - apply returns_unsortStacks; [done..|].
      destruct Hmode as [?|Hfull]; [done|].
      intros r st Hr Hst. unfold board0 in Hst.
      rewrite lookup_app_l in Hst by (by rewrite fillStacks_length).
      rewrite fillStacks_lookup in Hst by done. injection Hst as <-.
      specialize (Hfull r Hr). intros Hnil%(f_equal length).
      rewrite length_take, length_drop in Hnil. simpl in Hnil.
      assert (0 < bps); [|lia].
      destruct bps; [|lia]. lia. }
  intros board1 Hshape1.
  eapply returns_weaken.
  - apply returns_breakStacks; [done|].
    rewrite (sameShape_length _ _ Hshape1). done.
  - intros board2 Hshape2. apply Hfinish. by eapply sameShape_trans.
Qed.

(** ** Generation as a whole *)

(** In each profile the filled stacks are as many as the cats, and each
    takes [MAX_STACK_SIZE] boxes. *)
Lemma profile_shape (d : Difficulty) :
  Config.stacks (DIFFICULTY_CONFIG d) - Config.emptyStacks (DIFFICULTY_CONFIG d)
  = Config.cats (DIFFICULTY_CONFIG d)
  ∧ boxesPerStackOf (MAX_STACK_SIZE * Config.cats (DIFFICULTY_CONFIG d))
                    (Config.cats (DIFFICULTY_CONFIG d))
    = MAX_STACK_SIZE
  ∧ 0 < Config.cats (DIFFICULTY_CONFIG d).
Proof. destruct d; vm_compute; (split; [done|]); (split; [done|]); lia. Qed.

(** For the input the callers supply a pass returns a board that meets
    both post-conditions and holds [MAX_STACK_SIZE] boxes of each cat. *)
Lemma returns_checkedStacks fuel (d : Difficulty) (cats : list Cat) :
  NoDup (cat_id <$> cats) →
  length cats = Config.cats (DIFFICULTY_CONFIG d) →
  returns (buildStacks fuel d cats (DIFFICULTY_CONFIG d))
    (λ board, oversizedStacks board = false
              ∧ tooManyBoxesOfOnecat board = false
              ∧ withinCapacity board
              ∧ ∀ c, c ∈ cats → kindCount (cat_id c) board = MAX_STACK_SIZE).
Proof.
  intros Hnd Hlen.
  destruct (profile_shape d) as (Hfilled & Hper & Hpos).
  eapply returns_weaken.
  { apply returns_buildStacks.
    - lia.
    - rewrite createBoxes_length, Hlen, Hfilled, Hper. lia.
    - right. intros i. rewrite createBoxes_length, Hlen, Hfilled, Hper.
      unfold MAX_STACK_SIZE. lia. }
  intros board [Hcap Hcnt].
  split; [by apply oversizedStacks_withinCapacity|]. split.
  { apply not_true_iff_false. intros (k & Hk)%tooManyBoxesOfOnecat_true.
    rewrite Hcnt in Hk. pose proof (createBoxes_NoDup k cats Hnd). lia. }
  split; [done|].
  intros c Hc. rewrite Hcnt. apply Nat.le_antisymm.
  - by apply createBoxes_NoDup.
  - rewrite createBoxes_cntKind.
    assert (c ∈ filter (λ c', cat_id c' = cat_id c) cats) as Hin.
    { by apply list_elem_of_filter. }
    destruct (filter (λ c', cat_id c' = cat_id c) cats);
      [by apply elem_of_nil in Hin|].
    unfold MAX_STACK_SIZE. simpl. lia.
Qed.

(** A call of [initializeGame] whose pass meets the post-conditions starts
    the game on that board, without calling itself. *)
Lemma initializeGame_checked fuel (cats : list Cat) (config : Config.t)
    (s : Session) (g g' : Rng) (board : list Stack) :
  cats ≠ [] →
  buildStacks fuel (difficulty s) cats config g = Returned (board, g') →
  oversizedStacks board = false → tooManyBoxesOfOnecat board = false →
  initializeGame (S fuel) cats config s g = Returned (startGame board s, g').
Proof.
  intros Hcats Hrun Hsize Hmany. cbn [initializeGame].
  rewrite bool_decide_eq_false_2 by (by destruct cats).
  unfold bind. by rewrite Hrun, Hsize, Hmany.
Qed.

(** ** The callers of [initializeGame] *)

Lemma insert_Permutation_cons {A} (l : list A) j x a :
  l !! j = Some x → x :: <[j := a]> l ≡ₚ a :: l.
Proof.
  revert j. induction l as [|b l IH]; intros j Hj; [done|].
  destruct j as [|j]; simpl in *.
  - injection Hj as ->. apply perm_swap.
  - rewrite perm_swap, (IH j Hj). apply perm_swap.
Qed.

(** Exchanging two elements of a list gives a permutation of it. *)
Lemma exchange_Permutation {A} (l : list A) i j xi xj :
  l !! i = Some xi → l !! j = Some xj →
  <[j := xi]> (<[i := xj]> l) ≡ₚ l.
Proof.
  revert i j. induction l as [|a l IH]; intros i j Hi Hj; [done|].
  destruct i as [|i], j as [|j]; simpl in *.
  - by injection Hi as ->.
  - injection Hi as ->. by apply insert_Permutation_cons.
  - injection Hj as ->. by apply insert_Permutation_cons.
  - by rewrite (IH i j).
Qed.

Lemma returns_shuffleLoop {A} (i : nat) (l : list A) :
  i < length l ∨ i = 0 →
  returns (shuffleLoop i l) (λ l', l' ≡ₚ l).
Proof.
  revert l. induction i as [|i IH]; intros l Hi; cbn [shuffleLoop].
  { by apply returns_ret. }
  destruct Hi as [Hi|?]; [|done].
  eapply returns_bind; [apply returns_randomIndex; lia|].
  intros j Hj. simpl in Hj.
  destruct (lookup_lt_is_Some_2 l (S i) Hi) as [xi Hxi].
  destruct (lookup_lt_is_Some_2 l j) as [xj Hxj]; [lia|].
  apply (returns_bind_defined _ xi); [done|].
  apply (returns_bind_defined _ xj); [done|].
  pose proof (exchange_Permutation l (S i) j xi xj Hxi Hxj) as Hperm.
  eapply returns_weaken.
  - apply IH. left. rewrite Hperm. lia.
  - intros l' Hl'. by rewrite Hl'.
Qed.

Lemma returns_shuffleArray {A} (l : list A) :
  returns (shuffleArray l) (λ l', l' ≡ₚ l).
Proof.
  unfold shuffleArray. apply returns_shuffleLoop.
  destruct l; simpl; [by right|left; lia].
Qed.

Lemma placeholderCats_NoDup : NoDup (cat_id <$> placeholderCats).
Proof. apply (bool_decide_unpack _). vm_compute. exact I. Qed.

(** The cats the callers pass: as many as the profile asks for, with
    distinct ids. *)
Lemma gameCats_wellformed (d : Difficulty) (shuffledCats : list Cat) :
  shuffledCats ≡ₚ placeholderCats →
  let gameCats := take (Config.cats (DIFFICULTY_CONFIG d)) shuffledCats in
  NoDup (cat_id <$> gameCats)
  ∧ length gameCats = Config.cats (DIFFICULTY_CONFIG d).
Proof.
  intros Hperm. cbv zeta. split.
  - eapply sublist_NoDup; [|apply fmap_sublist, sublist_take].
    rewrite Hperm. apply placeholderCats_NoDup.
  - rewrite length_take, Hperm. by destruct d.
Qed.

(** The mount effect, a difficulty change and a reset always end with a
    fresh game, from one pass of generation. *)
Lemma difficultyEffect_returns (fuel : nat) (s : Session) :
  returns (difficultyEffect (S fuel) s)
    (λ s', ∃ gameCats board,
       s' = startGame board (setActiveCats gameCats s)
       ∧ withinCapacity board).
Proof.
  unfold difficultyEffect.
  eapply returns_bind; [apply returns_shuffleArray|].
  intros shuffledCats Hperm g.
  destruct (gameCats_wellformed (difficulty s) shuffledCats Hperm)
    as [Hnd Hlen].
  destruct (returns_checkedStacks fuel (difficulty s) _ Hnd Hlen g)
    as (board & g' & Hrun & Hsize & Hmany & Hcap & _).
  eexists _, g'. split; [|by eauto].
  apply initializeGame_checked; [|done..].
  intros Hnil. rewrite Hnil in Hlen. by destruct (difficulty s).
Qed.

Lemma handleReset_returns (fuel : nat) (s : Session) :
  returns (handleReset (S fuel) s)
    (λ s', s' = s
           ∨ ∃ newCats board,
               s' = startGame board (setActiveCats newCats s)
               ∧ withinCapacity board).
Proof.
  unfold handleReset. destruct (isAnimating s).
  { apply returns_ret. by left. }
  eapply returns_weaken; [apply (difficultyEffect_returns fuel s)|].
  intros s' H. by right.
Qed.


(** ** Sessions that can arise: invariants *)

Lemma bind_Returned {A B} (m : Gen A) (k : A → Gen B) g b g' :
  bind m k g = Returned (b, g') ↔
  ∃ a g1, m g = Returned (a, g1) ∧ k a g1 = Returned (b, g').
Proof.
  unfold bind. split.
  - destruct (m g) as [[a g1]| |]; [|done..]. intros H. by exists a, g1.
  - intros (a & g1 & -> & H). done.
Qed.

(** What [initializeGame] can return: the session untouched when there is no
    cat, otherwise a fresh game on a board that passed the check. *)
Lemma initializeGame_Returned fuel cats config s g s' g' :
  initializeGame fuel cats config s g = Returned (s', g') →
  (cats = [] ∧ s' = s)
  ∨ ∃ newStacks, s' = startGame newStacks s
      ∧ oversizedStacks newStacks = false
      ∧ tooManyBoxesOfOnecat newStacks = false.
Proof.
  revert g. induction fuel as [|fuel IH]; intros g; simpl; [done|].
  case_bool_decide as Hlen.
  { intros [= <- <-]. left. split; [|done]. by destruct cats. }
  intros (newStacks & g1 & _ & Hrest)%bind_Returned.
  destruct (oversizedStacks newStacks || tooManyBoxesOfOnecat newStacks)
    eqn:Hcheck.
  - by eapply IH.
  - injection Hrest as <- <-. right. exists newStacks.
    apply orb_false_elim in Hcheck as [? ?]. done.
Qed.

Lemma oversizedStacks_false (board : list Stack) :
  oversizedStacks board = false → withinCapacity board.
Proof.
  unfold oversizedStacks, withinCapacity. intros Hno st Hin.
  destruct (decide (length st ≤ MAX_STACK_SIZE)) as [|Hgt]; [done|].
  exfalso. apply not_true_iff_false in Hno. apply Hno.
  apply existsb_exists. exists st. split; [by apply list_elem_of_In|].
  apply bool_decide_eq_true. lia.
Qed.

(** Generation only ever installs a board within capacity. *)
Lemma initializeGame_withinCapacity fuel cats config s g s' g' :
  withinCapacity (stacks s) →
  initializeGame fuel cats config s g = Returned (s', g') →
  withinCapacity (stacks s').
Proof.
  intros Hs [[_ ->]|(newStacks & -> & Hsize & _)]%initializeGame_Returned;
    [done|].
  simpl. by apply oversizedStacks_false.
Qed.

(** An accepted move keeps every stack within capacity. *)
Lemma boardAfterMove_withinCapacity (board : list Stack) fromIdx toIdx
    (src dst : Stack) :
  fromIdx ≠ toIdx →
  board !! fromIdx = Some src → board !! toIdx = Some dst →
  legalPlacement (getMatchingTopBoxes src) dst →
  withinCapacity board →
  withinCapacity (boardAfterMove board fromIdx toIdx src dst).
Proof.
  intros Hdiff Hsrc Hdst [Hcap _] Hboard st Hin.
  destruct (boardAfterMove_lookup board fromIdx toIdx src dst)
    as (Hf & Ht & Hother & Hlen); [done..|].
  apply list_elem_of_lookup in Hin as [i Hi].
  destruct (decide (i = fromIdx)) as [->|Hif].
  { rewrite Hf in Hi. injection Hi as <-. rewrite length_drop.
    assert (length src ≤ MAX_STACK_SIZE); [|lia].
    apply Hboard. by eapply list_elem_of_lookup_2. }
  destruct (decide (i = toIdx)) as [->|Hit].
  { rewrite Ht in Hi. injection Hi as <-. rewrite length_app. lia. }
  rewrite Hother in Hi by done.
  apply Hboard. by eapply list_elem_of_lookup_2.
Qed.

Section invariants.
(** A property of sessions that depends on nothing [initializeGame],
    [setActiveCats] and [setDifficulty] could break. *)
Variable P : Session → Prop.
Hypothesis P_initial : ∀ d oc, P (initialSession d oc).
Hypothesis P_start : ∀ s newStacks,
  P s → isAnimating s = false →
  oversizedStacks newStacks = false →
  tooManyBoxesOfOnecat newStacks = false →
  P (startGame newStacks s).
Hypothesis P_activeCats : ∀ s cats, P s → P (setActiveCats cats s).
Hypothesis P_difficulty : ∀ s d, P s → P (setDifficulty d s).
Hypothesis P_step : ∀ s e s', P s → step e s = Some s' → P s'.

Lemma difficultyEffect_preserves fuel s g s' g' :
  P s → isAnimating s = false →
  difficultyEffect fuel s g = Returned (s', g') → P s'.
Proof using P_start P_activeCats.
  intros Hs Ha (cats & g1 & _ & Hinit)%bind_Returned.
  apply initializeGame_Returned in Hinit
    as [[_ ->]|(newStacks & -> & ? & ?)]; auto.
Qed.

Lemma reachable_ind_inv s : reachable s → P s.
Proof using All.
  induction 1 as [fuel d oc g s g' Hm|s e s' _ IH Hstep
                 |fuel d s g s' g' _ IH Ha Hd|fuel s g s' g' _ IH Hr].
  - eapply difficultyEffect_preserves; [apply P_initial|done|exact Hm].
  - by eapply P_step.
  - unfold handleSetDifficulty in Hd. case_bool_decide.
    + by injection Hd as <- <-.
    + eapply (difficultyEffect_preserves _ (setDifficulty d s));
        [by apply P_difficulty|done|exact Hd].
  - unfold handleReset in Hr. destruct (isAnimating s) eqn:Ha.
    + by injection Hr as <- <-.
    + apply bind_Returned in Hr as (cats & g1 & _ & Hinit).
      apply initializeGame_Returned in Hinit
        as [[_ ->]|(newStacks & -> & ? & ?)]; auto.
Qed.
End invariants.

(** How the two click handlers can leave a session. *)
Lemma handleStackClick_inv i s s' :
  handleStackClick i s = Some s' →
  s' = s
  ∨ (∃ sel, s' = setSelectedStackIndex sel s)
  ∨ (playing s ∧ ∃ fromIdx group,
       selectedStackIndex s = Some fromIdx ∧ fromIdx ≠ i
       ∧ s' = acceptMove fromIdx i group s).
Proof.
  unfold handleStackClick.
  destruct (isComplete s) eqn:Hc; simpl; [intros [= <-]; by left|].
  destruct (isLost s) eqn:Hl; simpl; [intros [= <-]; by left|].
  destruct (isAnimating s) eqn:Ha; simpl; [intros [= <-]; by left|].
  destruct (selectedStackIndex s) as [fromIdx|].
  - case_bool_decide; [intros [= <-]; right; left; eauto|].
    destruct (stacks s !! fromIdx) as [src|]; simpl; [|done].
    destruct (stacks s !! i) as [dst|]; simpl; [|done].
    destruct (_ <=? _); [|intros [= <-]; right; left; eauto].
    destruct (topMismatch _ _) as [[|]|]; [| |done].
    + intros [= <-]; right; left; eauto.
    + intros [= <-]. right. right. split; [done|].
      eexists _, _. split; [done|]. split; [done|]. done.
  - destruct (stacks s !! i) as [clicked|]; simpl; [|done].
    destruct (0 <? length clicked); intros [= <-]; [|by left].
    right; left; eauto.
Qed.

Lemma undoMove_inv s s' :
  undoMove s = Some s' →
  (s' = s ∧ (moves s = [] ∨ isComplete s = true ∨ isAnimating s = true))
  ∨ (isComplete s = false ∧ isAnimating s = false
     ∧ ∃ lastMove ids,
         moves s = take (length (moves s) - 1) (moves s) ++ [lastMove]
         ∧ s' = setIsLost false
                  (setIsComplete false
                     (setMoves (take (length (moves s) - 1) (moves s))
                        (setMoveCount (moveCount s - 1)%Z
                           (animateBoxMovement ids (to lastMove)
                              (from lastMove) s))))).
Proof.
  unfold undoMove. case_bool_decide as Hlen; simpl.
  { intros [= <-]. left. split; [done|]. left. by destruct (moves s). }
  destruct (isComplete s) eqn:Hc; simpl; [intros [= <-]; left; auto|].
  destruct (isAnimating s) eqn:Ha; simpl; [intros [= <-]; left; auto|].
  destruct (moves s !! (length (moves s) - 1)) as [lastMove|] eqn:Hlast;
    simpl; [|done].
  destruct (stacks s !! to lastMove) as [target|]; simpl; [|done].
  intros [= <-]. right. split; [done|]. split; [done|].
  exists lastMove, (box_id <$> take (count lastMove) target).
  split; [|done].
  rewrite <- take_S_r by done.
  replace (S (length (moves s) - 1)) with (length (moves s)) by lia.
  by rewrite firstn_all.
Qed.

Lemma step_Tick_inv s s' :
  step Tick s = Some s' →
  (timeouts s = [] ∧ s' = s)
  ∨ ∃ t rest, timeouts s = t :: rest
      ∧ runTimeout t (setTimeouts rest s) = Some s'.
Proof.
  simpl. destruct (timeouts s) as [|t rest]; [intros [= <-]; by left|].
  intros Hrun. right. by exists t, rest.
Qed.

Lemma timerDiscipline_step s e s' :
  timerDiscipline s → step e s = Some s' → timerDiscipline s'.
Proof.
  intros Hs Hstep. destruct e as [i| |].
  - apply handleStackClick_inv in Hstep
      as [->|[[sel ->]|[(Hc & Hl & Ha) (fromIdx & group & _ & _ & ->)]]];
      [done..|].
    destruct Hs as [Hnil|[Ha' _]]; [|congruence].
    right. simpl. rewrite Hnil. done.
  - apply undoMove_inv in Hstep
      as [[-> _]|(Hc & Ha & lastMove & ids & _ & ->)]; [done|].
    destruct Hs as [Hnil|[Ha' _]]; [|congruence].
    right. simpl. rewrite Hnil. done.
  - apply step_Tick_inv in Hstep as [[_ ->]|(t & rest & Ht & Hrun)]; [done|].
    apply runTimeout_inv in Hrun as (ns & _ & _ & _ & _ & Hts & _).
    destruct Hs as [Hnil|(_ & _ & Hlen)]; [congruence|].
    left. rewrite Hts. simpl. rewrite Ht in Hlen. by destruct rest.
Qed.

Lemma reachable_timerDiscipline s : reachable s → timerDiscipline s.
Proof.
  apply reachable_ind_inv.
  - intros d oc. by left.
  - intros s0 newStacks [Hnil|[Ha _]] Ha' _ _; [by left|congruence].
  - done.
  - done.
  - apply timerDiscipline_step.
Qed.

Lemma moveCount_step s e s' :
  moveCount s = Z.of_nat (length (moves s)) → step e s = Some s' →
  moveCount s' = Z.of_nat (length (moves s')).
Proof.
  intros Hs Hstep. destruct e as [i| |].
  - apply handleStackClick_inv in Hstep
      as [->|[[sel ->]|[_ (fromIdx & group & _ & _ & ->)]]]; [done..|].
    simpl. rewrite length_app. simpl. lia.
  - apply undoMove_inv in Hstep
      as [[-> _]|(Hc & Ha & lastMove & ids & Hsplit & ->)]; [done|].
    simpl. apply (f_equal length) in Hsplit.
    rewrite length_app in Hsplit. simpl in Hsplit. lia.
  - apply step_Tick_inv in Hstep as [[_ ->]|(t & rest & Ht & Hrun)]; [done|].
    apply runTimeout_inv in Hrun as (ns & _ & _ & Hm & Hc & _).
    rewrite Hm, Hc. done.
Qed.

Lemma reachable_moveCount s :
  reachable s → moveCount s = Z.of_nat (length (moves s)).
Proof.
  apply (reachable_ind_inv
           (λ s, moveCount s = Z.of_nat (length (moves s)))); try done.
  apply moveCount_step.
Qed.

(** The timeout of an undo started right after a legal move gives the board
    before the move back exactly when the destination was empty: otherwise
    the moved group joined the destination's top group, and the timeout
    takes the whole of it. *)
Lemma undo_timeout_restores (board : list Stack) fromIdx toIdx
    (src dst : Stack) :
  fromIdx ≠ toIdx →
  board !! fromIdx = Some src → board !! toIdx = Some dst → src ≠ [] →
  legalPlacement (getMatchingTopBoxes src) dst →
  movedStacks (boardAfterMove board fromIdx toIdx src dst) toIdx fromIdx
  = Some board
  ↔ dst = [].
Proof.
  intros Hdiff Hsrc Hdst Hne [_ Hkind].
  destruct (boardAfterMove_lookup board fromIdx toIdx src dst)
    as (Hf & Ht & Hother & Hlen); [done..|].
  destruct src as [|t rest] eqn:Esrc; [done|]. rewrite <- Esrc in *.
  assert (Htop : src !! 0 = Some t) by (by subst).
  unfold movedStacks. rewrite Ht. simpl.
  rewrite (getMatchingTopBoxes_app_group src dst t Htop).
  rewrite list_lookup_insert_ne by done. rewrite Hf. simpl.
  set (group := getMatchingTopBoxes src) in *.
  set (more := matchingLoop t dst).
  rewrite length_app, <- drop_drop, drop_app_length.
  split.
  - intros [= Heq].
    apply (f_equal (λ b, b !! toIdx)) in Heq. simpl in Heq.
    rewrite list_lookup_insert_ne in Heq by done.
    rewrite list_lookup_insert_eq in Heq
      by (rewrite Hlen; by eapply lookup_lt_Some).
    rewrite Hdst in Heq. injection Heq as Heq.
    apply (f_equal length) in Heq. rewrite length_drop in Heq.
    destruct dst as [|d dst']; [done|]. exfalso.
    destruct Hkind as [?|Hk]; [done|].
    assert (group !! 0 = Some t) as Hg by (subst group src; done).
    rewrite Hg in Hk. simpl in Hk. injection Hk as Hk.
    unfold more in Heq. simpl in Heq.
    rewrite (proj2 (sameKind_true d t) Hk) in Heq. simpl in Heq. lia.
  - intros ->. subst more. simpl. rewrite app_nil_r. f_equal.
    unfold group at 1. rewrite <- getMatchingTopBoxes_split.
    apply list_eq. intros i.
    destruct (decide (i = fromIdx)) as [->|Hif].
    { rewrite list_lookup_insert_eq; [done|].
      rewrite length_insert, Hlen. by eapply lookup_lt_Some. }
    rewrite list_lookup_insert_ne by done.
    destruct (decide (i = toIdx)) as [->|Hit].
    { rewrite list_lookup_insert_eq; [done|].
      rewrite Hlen. by eapply lookup_lt_Some. }
    rewrite list_lookup_insert_ne by done. by apply Hother.
Qed.

(** The timeout's board holds the boxes of the board it captured. *)
Lemma movedStacks_kindCount (board board' : list Stack) fromIdx toIdx k :
  fromIdx ≠ toIdx →
  movedStacks board fromIdx toIdx = Some board' →
  kindCount k board' = kindCount k board.
Proof.
  intros Hdiff. unfold movedStacks.
  destruct (board !! fromIdx) as [src|] eqn:Hsrc; simpl; [|done].
  rewrite list_lookup_insert_ne by done.
  destruct (board !! toIdx) as [dst|] eqn:Hdst; simpl; [|done].
  intros [= <-].
  set (group := getMatchingTopBoxes src).
  set (board1 := <[fromIdx := drop (length group) src]> board).
  pose proof (kindCount_insert k board fromIdx src
                (drop (length group) src) Hsrc) as E1.
  assert (Hdst1 : board1 !! toIdx = Some dst).
  { unfold board1. by rewrite list_lookup_insert_ne. }
  pose proof (kindCount_insert k board1 toIdx dst (group ++ dst) Hdst1) as E2.
  pose proof (f_equal (cntKind k) (getMatchingTopBoxes_split src)) as E3.
  rewrite !cntKind_app in *. fold group in E3. fold board1 in E1. lia.
Qed.

Lemma boardInvariant_step s e s' :
  timerDiscipline s → boardInvariant s → step e s = Some s' →
  boardInvariant s'.
Proof.
  intros Htimer (Hcount & Htimeouts & Hmoves) Hstep.
  destruct e as [i| |].
  - apply handleStackClick_inv in Hstep
      as [->|[[sel ->]|[(_ & _ & Ha) (fromIdx & group & _ & Hdiff & ->)]]];
      [done..|].
    destruct Htimer as [Hnil|[Ha' _]]; [|congruence].
    split; [done|]. simpl. rewrite Hnil. split.
    + intros t [->|?%elem_of_nil]%elem_of_cons; done.
    + intros m [Hm|[->|?%elem_of_nil]%elem_of_cons]%elem_of_app;
        [by apply Hmoves|done|done].
  - apply undoMove_inv in Hstep
      as [[-> _]|(Hc & Ha & lastMove & ids & Hsplit & ->)]; [done|].
    destruct Htimer as [Hnil|[Ha' _]]; [|congruence].
    assert (Hlast : lastMove ∈ moves s).
    { rewrite Hsplit. apply elem_of_app. right. by left. }
    split; [done|]. simpl. rewrite Hnil. split.
    + intros t [->|?%elem_of_nil]%elem_of_cons; [|done]. simpl.
      split; [done|]. apply not_eq_sym. by apply Hmoves.
    + intros m Hm. apply Hmoves. rewrite Hsplit. apply elem_of_app. by left.
  - apply step_Tick_inv in Hstep as [[_ ->]|(t & rest & Ht & Hrun)]; [done|].
    destruct (Htimeouts t) as [Hcap Hdiff]; [rewrite Ht; by left|].
    apply runTimeout_inv in Hrun
      as (ns & Hmoved & Hst & Hmv & _ & Hts & _).
    destruct Htimer as [Hnil|(_ & _ & Hlen)]; [congruence|].
    assert (rest = []) as -> by (rewrite Ht in Hlen; by destruct rest).
    split.
    { intros k. rewrite Hst.
      rewrite (movedStacks_kindCount _ _ _ _ k Hdiff Hmoved), Hcap.
      apply Hcount. }
    rewrite Hts, Hmv. simpl. split; [|done].
    by intros t' ?%elem_of_nil.
Qed.

(** C9 as amended. In a session that can arise, an event calls [onComplete]
    at most once, and it does so exactly when the prop was passed and the
    event takes [isComplete] from [false] to [true]; once [isComplete] is
    set, clicks, undo and timeouts leave it set and notify nobody. *)
Theorem completion_notified_once (s : Session) (e : Event) (s' : Session) :
  reachable s → step e s = Some s' →
  (notified s' = S (notified s)
   ↔ onComplete s = true ∧ isComplete s = false ∧ isComplete s' = true)
  ∧ (notified s' = notified s ∨ notified s' = S (notified s))
  ∧ (isComplete s = true → isComplete s' = true ∧ notified s' = notified s).
Proof.
  intros Hreach%reachable_timerDiscipline Hstep.
  assert (Hsame : notified s' = notified s → isComplete s' = isComplete s →
    (notified s' = S (notified s)
     ↔ onComplete s = true ∧ isComplete s = false ∧ isComplete s' = true)
    ∧ (notified s' = notified s ∨ notified s' = S (notified s))
    ∧ (isComplete s = true → isComplete s' = true ∧ notified s' = notified s)).
  { intros Hn Hc. rewrite Hn, Hc. split; [|by auto].
    split; [lia|]. intros (_ & ? & ?). congruence. }
  destruct e as [i| |].
  - apply handleStackClick_inv in Hstep
      as [->|[[sel ->]|[_ (fromIdx & group & _ & _ & ->)]]];
      by apply Hsame.
  - apply undoMove_inv in Hstep
      as [[-> _]|(Hc & Ha & lastMove & ids & _ & ->)]; [by apply Hsame|].
    simpl. rewrite Hc. split; [|split; [by left|done]].
    split; [lia|]. by intros (_ & _ & ?).
  - apply step_Tick_inv in Hstep as [[_ ->]|(t & rest & Ht & Hrun)];
      [by apply Hsame|].
    apply runTimeout_inv in Hrun
      as (ns & _ & _ & _ & _ & _ & _ & Hc' & _ & Hn'). simpl in Hn'.
    destruct Hreach as [Hnil|(_ & Hc & _)]; [congruence|].
    rewrite Hn', Hc', Hc.
    destruct (completionOf (t_activeCats t) ns), (onComplete s); simpl;
      (split; [split; [try done; lia|by intros (? & ? & ?)]|]);
      (split; [auto|done]).
Qed.

(** ** Worked examples *)

Lemma withinCapacity_lengths (board : list Stack) :
  withinCapacity board →
  Forall (λ n, n ≤ MAX_STACK_SIZE) (length <$> board).
Proof.
  intros Hcap. apply Forall_fmap, Forall_forall. exact Hcap.
Qed.

Lemma demoSession_mount :
  ∃ g', mount 2 easy true demoRng = Returned (demoSession, g').
Proof.
  assert (H : match mount 2 easy true demoRng with
              | Returned (s, _) => Some s
              | _ => None
              end = Some demoSession) by (vm_compute; reflexivity).
  destruct (mount 2 easy true demoRng) as [[s g']| |]; [|done..].
  injection H as ->. by exists g'.
Qed.

Lemma demoSession_reachable : reachable demoSession.
Proof.
  destruct demoSession_mount as [g' Hm]. by eapply reach_mount.
Qed.

Lemma demoSession_board :
  boardIds (stacks demoSession)
  = [ ["cat-1-2"; "cat-2-3"; "cat-7-0"; "cat-2-0"];
      ["cat-1-0"; "cat-1-3"; "cat-1-1"; "cat-7-3"];
      ["cat-7-2"; "cat-7-1"; "cat-6-3"; "cat-6-2"];
      ["cat-2-1"; "cat-6-0"; "cat-6-1"; "cat-2-2"]; []; [] ].
Proof. vm_compute. reflexivity. Qed.

Lemma run_reachable es s s' :
  reachable s → run es s = Some s' → reachable s'.
Proof.
  revert s. induction es as [|e es IH]; intros s Hs; simpl.
  - by intros [= <-].
  - destruct (step e s) as [s1|] eqn:Hstep; simpl; [|done].
    apply IH. by eapply reach_step.
Qed.

(** C1, the code at a failing input.  On the board generated from
    [demoRng], after the three ones of stack 1 were put on the empty stack 4,
    the legal move of the single top box of stack 0 onto stack 4 is recorded
    with count 1; undoing it takes the whole top group of stack 4, four
    boxes, back to stack 0, and the board before the move is not restored
    although the history is. *)
Theorem undo_after_move_not_restored :
  ∃ sA sB sC,
    run [Click 1; Click 4; Tick] demoSession = Some sA
    ∧ boardIds (stacks sA)
      = [ ["cat-1-2"; "cat-2-3"; "cat-7-0"; "cat-2-0"];
          ["cat-7-3"];
          ["cat-7-2"; "cat-7-1"; "cat-6-3"; "cat-6-2"];
          ["cat-2-1"; "cat-6-0"; "cat-6-1"; "cat-2-2"];
          ["cat-1-0"; "cat-1-3"; "cat-1-1"]; [] ]
    ∧ legalMove (stacks sA) 0 4
    ∧ run [Click 0; Click 4; Tick] sA = Some sB
    ∧ moves sB = moves sA ++ [mkMove 0 4 1]
    ∧ run [UndoClick; Tick] sB = Some sC
    ∧ moves sC = moves sA
    ∧ boardIds (stacks sC)
      = [ ["cat-1-2"; "cat-1-0"; "cat-1-3"; "cat-1-1";
           "cat-2-3"; "cat-7-0"; "cat-2-0"];
          ["cat-7-3"];
          ["cat-7-2"; "cat-7-1"; "cat-6-3"; "cat-6-2"];
          ["cat-2-1"; "cat-6-0"; "cat-6-1"; "cat-2-2"];
          []; [] ]
    ∧ stacks sC ≠ stacks sA.
Proof.
  eexists _, _, _.
  split; [vm_compute; reflexivity|].
  split; [vm_compute; reflexivity|].
  split.
  { split; [done|]. eexists _, _.
    split; [vm_compute; reflexivity|]. split; [vm_compute; reflexivity|].
    split; [done|]. split; [vm_compute; lia|]. right. vm_compute. reflexivity. }
  split; [vm_compute; reflexivity|].
  split; [vm_compute; reflexivity|].
  split; [vm_compute; reflexivity|].
  split; [vm_compute; reflexivity|].
  split; [vm_compute; reflexivity|].
  intros Heq. apply (f_equal (fmap length)) in Heq.
  vm_compute in Heq. discriminate.
Qed.

(** C2, the code at a failing input.  The session is one that can arise:
    generated by the mount effect and driven by clicks and timeouts; every
    stack is within capacity until the undo, after which stack 0 holds seven
    boxes. *)
Theorem undo_exceeds_capacity :
  ∃ sB sC,
    run [Click 1; Click 4; Tick; Click 0; Click 4; Tick] demoSession = Some sB
    ∧ length <$> stacks demoSession = [4; 4; 4; 4; 0; 0]
    ∧ length <$> stacks sB = [3; 1; 4; 4; 4; 0]
    ∧ run [UndoClick; Tick] sB = Some sC
    ∧ reachable sC
    ∧ length <$> stacks sC = [7; 1; 4; 4; 0; 0]
    ∧ ¬ withinCapacity (stacks sC).
Proof.
  eexists _, _.
  split; [vm_compute; reflexivity|].
  split; [vm_compute; reflexivity|].
  split; [vm_compute; reflexivity|].
  split; [vm_compute; reflexivity|].
  split.
  { eapply (run_reachable [Click 1; Click 4; Tick; Click 0; Click 4; Tick;
                           UndoClick; Tick]);
      [apply demoSession_reachable|vm_compute; reflexivity]. }
  split; [vm_compute; reflexivity|].
  intros Hcap%withinCapacity_lengths. vm_compute in Hcap.
  apply Forall_cons_1 in Hcap as [Hcap _]. lia.
Qed.


(** C9 as stated fails: [checkCompletion] evaluated on a board that is
    already complete, in a session whose [isComplete] is already set by a
    first evaluation, returns [true] and calls [onComplete] a second time. *)
Lemma checkCompletion_fires_again :
  let s0 := setStacks solvedBoard
              (setActiveCats sampleCats (initialSession easy true)) in
  let s1 := (checkCompletion sampleCats solvedBoard s0).1 in
  let s2 := (checkCompletion sampleCats solvedBoard s1).1 in
  isComplete s1 = true ∧ notified s1 = 1
  ∧ (checkCompletion sampleCats solvedBoard s1).2 = true
  ∧ notified s2 = 2.
Proof. vm_compute. done. Qed.

(** ** Instances of the theorems with hypotheses *)


Lemma sampleSession_playing : playing sampleSession.
Proof. done. Defined.

Lemma accepted_move_effect_witness :
  legalPlacement
    (getMatchingTopBoxes [sampleBox 0 0; sampleBox 0 1; sampleBox 1 0])
    [sampleBox 0 2; sampleBox 0 3]
  ∧ ∃ s1 s2,
      handleStackClick 3 sampleSession = Some s1 ∧ step Tick s1 = Some s2
      ∧ moves s1 = [mkMove 0 3 2]
      ∧ stacks s2 !! 0 = Some [sampleBox 1 0]
      ∧ stacks s2 !! 3
        = Some [sampleBox 0 0; sampleBox 0 1; sampleBox 0 2; sampleBox 0 3].
Proof.
  assert (Hlegal : legalPlacement
    (getMatchingTopBoxes [sampleBox 0 0; sampleBox 0 1; sampleBox 1 0])
    [sampleBox 0 2; sampleBox 0 3]).
  { split; [vm_compute; lia|]. right. vm_compute. reflexivity. }
  split; [exact Hlegal|].
  destruct (accepted_move_effect sampleSession 0 3
              [sampleBox 0 0; sampleBox 0 1; sampleBox 1 0]
              [sampleBox 0 2; sampleBox 0 3]
              sampleSession_playing eq_refl eq_refl
              ltac:(lia) eq_refl eq_refl ltac:(discriminate) Hlegal)
    as (s1 & s2 & Hclick & Htick & Hmoves & _ & _ & _ & _ & _ & _ & Hfrom
        & Hto & _).
  exists s1, s2. done.
Defined.

Lemma handleStackClick_legality_witness :
  ∃ s1, handleStackClick 1 sampleSession = Some s1
    ∧ ¬ legalPlacement
          (getMatchingTopBoxes [sampleBox 0 0; sampleBox 0 1; sampleBox 1 0])
          [sampleBox 1 1; sampleBox 1 2; sampleBox 1 3]
    ∧ stacks s1 = stacks sampleSession ∧ selectedStackIndex s1 = None.
Proof.
  destruct (handleStackClick_legality sampleSession 0 1
              [sampleBox 0 0; sampleBox 0 1; sampleBox 1 0]
              [sampleBox 1 1; sampleBox 1 2; sampleBox 1 3]
              sampleSession_playing eq_refl ltac:(lia) eq_refl eq_refl
              ltac:(discriminate))
    as (s1 & Hclick & _ & _ & Hrej).
  assert (Hno : ¬ legalPlacement
    (getMatchingTopBoxes [sampleBox 0 0; sampleBox 0 1; sampleBox 1 0])
    [sampleBox 1 1; sampleBox 1 2; sampleBox 1 3]).
  { intros [Hcap _]. vm_compute in Hcap. lia. }
  exists s1. split; [done|]. split; [done|].
  destruct (Hrej Hno) as (? & ? & _). done.
Defined.

(** ** Fresh games *)

Lemma fillStacks_lengths f bps (mixed : list CatBox) :
  length <$> fillStacks f bps mixed
  = (λ i, bps `min` (length mixed - i * bps)) <$> seq 0 f.
Proof.
  unfold fillStacks. rewrite <- list_fmap_compose.
  apply list_fmap_ext. intros i x _. simpl.
  by rewrite length_take, length_drop.
Qed.

(** The lengths of the stacks a pass builds are those of the first deal,
    followed by the empty stacks. *)
Lemma returns_buildStacks_lengths fuel d (cats : list Cat)
    (config : Config.t) :
  let n := length (createBoxes cats) in
  let f := Config.stacks config - Config.emptyStacks config in
  let bps := boxesPerStackOf n f in
  0 < f → n ≤ f * bps →
  (d = easy ∨ ∀ i, i < f → i * bps < n) →
  returns (buildStacks fuel d cats config)
    (λ board, length <$> board
              = ((λ i, bps `min` (n - i * bps)) <$> seq 0 f)
                ++ replicate (Config.emptyStacks config) 0).
Proof.
  intros n f bps Hf Hn Hmode. unfold buildStacks.
  eapply returns_bind; [apply returns_sortM, @returns_randomOrder|].
  intros shuffled Hperm.
  eapply returns_bind.
  { apply returns_preMatch. eapply idKind_subseteq; [|apply createBoxes_idKind].
    intros x. by rewrite Hperm. }
  intros groups [_ Hlen]. simpl in Hlen.
  fold n f bps.
  set (mixed := groups.1 ++ groups.2) in *.
  assert (Hmixed_len : length mixed = n).
  { rewrite Hlen. unfold n. by rewrite Hperm. }
  rewrite (drop_ge mixed (f * bps)) by lia.
  rewrite leftoverLoop_nil. apply returns_bind_ret.
  set (board0 := fillStacks f bps mixed
                 ++ replicate (Config.emptyStacks config) []).
  assert (Hlen0 : f ≤ length board0).
  { unfold board0. rewrite length_app, fillStacks_length. lia. }
  assert (Hfinish : ∀ board, sameShape board0 board →
            length <$> board
            = ((λ i, bps `min` (n - i * bps)) <$> seq 0 f)
              ++ replicate (Config.emptyStacks config) 0).
  { intros board [-> _]. unfold board0.
    by rewrite fmap_app, fillStacks_lengths, fmap_replicate, Hmixed_len. }
  assert (Hne : d ≠ easy →
            ∀ r st, r < f → board0 !! r = Some st → st ≠ []).
  { intros Hd. destruct Hmode as [?|Hfull]; [done|].
    intros r st Hr Hst. unfold board0 in Hst.
    rewrite lookup_app_l in Hst by (by rewrite fillStacks_length).
    rewrite fillStacks_lookup in Hst by done. injection Hst as <-.
    specialize (Hfull r Hr). intros Hnil%(f_equal length).
    rewrite length_take, length_drop in Hnil. simpl in Hnil.
    assert (0 < bps); [|lia].
    destruct bps; [|lia]. lia. }
  eapply returns_bind.
  { instantiate (1 := sameShape board0). destruct d.
    - by apply returns_groupStacks.
    - apply returns_unsortStacks; [done..|]. by apply Hne.
    - apply returns_unsortStacks; [done..|]. by apply Hne. }
  intros board1 Hshape1.
  eapply returns_weaken.
  - apply returns_breakStacks; [done|].
    rewrite (sameShape_length _ _ Hshape1). done.
  - intros board2 Hshape2. apply Hfinish. by eapply sameShape_trans.
Qed.

(** The board a pass builds for the callers' input is a fresh board. *)
Lemma buildStacks_freshBoard fuel (d : Difficulty) (cats : list Cat)
    (g g' : Rng) (board : list Stack) :
  NoDup (cat_id <$> cats) → cats ⊆ placeholderCats →
  length cats = Config.cats (DIFFICULTY_CONFIG d) →
  buildStacks fuel d cats (DIFFICULTY_CONFIG d) g = Returned (board, g') →
  freshBoard d cats board.
Proof.
  intros Hnd Hsub Hlen Hrun.
  destruct (profile_shape d) as (Hfilled & Hper & Hpos).
  assert (Hlens : length <$> board
    = replicate (Config.cats (DIFFICULTY_CONFIG d)) MAX_STACK_SIZE
      ++ replicate (Config.emptyStacks (DIFFICULTY_CONFIG d)) 0).
  { destruct (returns_buildStacks_lengths fuel d cats (DIFFICULTY_CONFIG d))
      with (g := g) as (board' & g1 & Hrun' & Hlens).
    - lia.
    - rewrite createBoxes_length, Hlen, Hfilled, Hper. lia.
    - right. intros i. rewrite createBoxes_length, Hlen, Hfilled, Hper.
      unfold MAX_STACK_SIZE. lia.
    - assert (board' = board) as -> by congruence.
      rewrite Hlens, createBoxes_length, Hlen. by destruct d. }
  assert (Hcnt : ∀ k, kindCount k board = cntKind k (createBoxes cats)).
  { destruct (returns_buildStacks fuel d cats (DIFFICULTY_CONFIG d))
      with (g := g) as (board' & g1 & Hrun' & _ & Hcnt).
    - lia.
    - rewrite createBoxes_length, Hlen, Hfilled, Hper. lia.
    - right. intros i. rewrite createBoxes_length, Hlen, Hfilled, Hper.
      unfold MAX_STACK_SIZE. lia.
    - assert (board' = board) as -> by congruence. done. }
  split; [done|]. split; [done|]. split; [done|]. split.
  { apply (f_equal length) in Hlens.
    rewrite length_fmap, length_app, !length_replicate in Hlens.
    rewrite Hlens. by destruct d. }
  split; [done|].
  intros k. rewrite Hcnt. case_decide as Hk.
  - apply list_elem_of_fmap in Hk as (c & -> & Hc).
    apply Nat.le_antisymm; [by apply createBoxes_NoDup|].
    rewrite createBoxes_cntKind.
    assert (c ∈ filter (λ c', cat_id c' = cat_id c) cats) as Hin.
    { by apply list_elem_of_filter. }
    destruct (filter (λ c', cat_id c' = cat_id c) cats);
      [by apply elem_of_nil in Hin|].
    unfold MAX_STACK_SIZE. simpl. lia.
  - rewrite createBoxes_cntKind.
    destruct (filter (λ c, cat_id c = k) cats) as [|c l] eqn:Hf; [done|].
    exfalso. apply Hk.
    assert (c ∈ filter (λ c, cat_id c = k) cats) as Hin
      by (rewrite Hf; by left).
    apply list_elem_of_filter in Hin as [<- Hin].
    by apply list_elem_of_fmap_2.
Qed.

(** The effect ends with a fresh game of the session's difficulty, whatever
    the random source hands out. *)
Lemma difficultyEffect_fresh (fuel : nat) (s : Session) (g : Rng) :
  ∃ gameCats board g',
    difficultyEffect (S fuel) s g
    = Returned (startGame board (setActiveCats gameCats s), g')
    ∧ freshBoard (difficulty s) gameCats board.
Proof.
  unfold difficultyEffect.
  destruct (returns_shuffleArray placeholderCats g)
    as (shuffledCats & g1 & Hshuffle & Hperm).
  destruct (gameCats_wellformed (difficulty s) shuffledCats Hperm)
    as [Hnd Hlen].
  set (gameCats := take (Config.cats (DIFFICULTY_CONFIG (difficulty s)))
                        shuffledCats) in *.
  destruct (returns_checkedStacks fuel (difficulty s) gameCats Hnd Hlen g1)
    as (board & g' & Hrun & Hsize & Hmany & _).
  exists gameCats, board, g'. split.
  - apply bind_Returned. exists shuffledCats, g1. split; [done|].
    fold gameCats. apply initializeGame_checked; [|done..].
    intros Hnil. rewrite Hnil in Hlen. by destruct (difficulty s).
  - eapply buildStacks_freshBoard; [done| |done|exact Hrun].
    intros c Hc. rewrite <- Hperm. by eapply subseteq_take.
Qed.

(** A fresh board has an empty stack, so the game is not stuck. *)
Lemma freshBoard_valid_moves d cats board :
  freshBoard d cats board → checkForValidMoves board = Some true.
Proof.
  intros (_ & _ & _ & _ & Hlens & _). unfold checkForValidMoves.
  assert (existsb isEmptyStack board = true) as ->; [|done].
  apply existsb_empty.
  assert (Hl : (length <$> board) !! Config.cats (DIFFICULTY_CONFIG d)
               = Some 0).
  { rewrite Hlens, lookup_app_r by (by rewrite length_replicate).
    rewrite length_replicate, Nat.sub_diag. by destruct d. }
  rewrite list_lookup_fmap in Hl.
  destruct (board !! Config.cats (DIFFICULTY_CONFIG d)) as [st|] eqn:Hst;
    [|done].
  injection Hl as Hl. exists st. split; [by eapply list_elem_of_lookup_2|].
  by destruct st.
Qed.

(** X1. [shuffleArray] returns, for every array and every random source, a
    permutation of the array: no element is lost, duplicated or made up, and
    no read of the loop is out of range.  An array of at most one element
    comes back as it is, without a random number being drawn. *)
Theorem shuffleArray_permutation {A} (array : list A) (g : Rng) :
  ∃ shuffled g',
    shuffleArray array g = Returned (shuffled, g')
    ∧ shuffled ≡ₚ array
    ∧ length shuffled = length array
    ∧ (NoDup array → NoDup shuffled)
    ∧ (length array ≤ 1 → shuffled = array ∧ g' = g).
Proof.
  destruct (returns_shuffleArray array g) as (shuffled & g' & Hrun & Hperm).
  exists shuffled, g'. split; [done|]. split; [done|].
  split; [by rewrite Hperm|]. split; [by rewrite Hperm|].
  intros Hle. destruct array as [|x [|y l]]; [| |simpl in Hle; lia];
    cbv in Hrun; by injection Hrun as <- <-.
Qed.

(** X2. Mounting the component always ends with a fresh game of the initial
    difficulty: distinct cats of the catalog, as many as the profile asks
    for; one full stack per cat followed by the profile's empty stacks;
    [MAX_STACK_SIZE] boxes of each chosen cat and no others; counter, history,
    selection and flags reset, no timer pending, nobody notified.  The board
    has an empty stack, so [checkForValidMoves] holds of it. *)
Theorem mount_fresh_game (fuel : nat) (d : Difficulty) (onCompleteProp : bool)
    (g : Rng) :
  ∃ s g',
    mount (S fuel) d onCompleteProp g = Returned (s, g')
    ∧ freshGame d s
    ∧ onComplete s = onCompleteProp ∧ notified s = 0 ∧ timeouts s = []
    ∧ checkForValidMoves (stacks s) = Some true.
Proof.
  unfold mount.
  destruct (difficultyEffect_fresh fuel (initialSession d onCompleteProp) g)
    as (cats & board & g' & Hrun & Hfresh).
  eexists _, g'. split; [exact Hrun|]. simpl in *.
  split; [by unfold freshGame|]. split; [done|]. split; [done|].
  split; [done|]. by eapply freshBoard_valid_moves.
Qed.

(** X3. Reset does nothing while an animation runs; otherwise it always
    ends with a fresh game of the current difficulty, with newly drawn cats,
    and leaves the [onComplete] prop, the count of notifications and the
    timers alone. *)
Theorem handleReset_fresh_game (fuel : nat) (s : Session) (g : Rng) :
  ∃ s' g',
    handleReset (S fuel) s g = Returned (s', g')
    ∧ (isAnimating s = true → s' = s ∧ g' = g)
    ∧ (isAnimating s = false →
         freshGame (difficulty s) s'
         ∧ onComplete s' = onComplete s ∧ notified s' = notified s
         ∧ timeouts s' = timeouts s).
Proof.
  unfold handleReset. destruct (isAnimating s) eqn:Ha.
  { exists s, g. by repeat split. }
  destruct (difficultyEffect_fresh fuel s g)
    as (cats & board & g' & Hrun & Hfresh).
  eexists _, g'. split; [exact Hrun|]. split; [done|].
  intros _. by unfold freshGame.
Qed.

(** X4. Choosing the difficulty the session already has changes nothing;
    choosing another one always ends with a fresh game of that difficulty,
    whatever state the session was in. *)
Theorem handleSetDifficulty_fresh_game (fuel : nat) (d : Difficulty)
    (s : Session) (g : Rng) :
  ∃ s' g',
    handleSetDifficulty (S fuel) d s g = Returned (s', g')
    ∧ (d = difficulty s → s' = s ∧ g' = g)
    ∧ (d ≠ difficulty s →
         freshGame d s'
         ∧ onComplete s' = onComplete s ∧ notified s' = notified s
         ∧ timeouts s' = timeouts s).
Proof.
  unfold handleSetDifficulty. case_bool_decide as Hd.
  { exists s, g. by repeat split. }
  destruct (difficultyEffect_fresh fuel (setDifficulty d s) g)
    as (cats & board & g' & Hrun & Hfresh).
  eexists _, g'. split; [exact Hrun|]. split; [done|].
  intros _. simpl in Hfresh. by unfold freshGame.
Qed.

(** ** More on the boxes of the chosen cats *)

Lemma string_append_cancel (s t1 t2 : string) :
  s +:+ t1 = s +:+ t2 → t1 = t2.
Proof.
  induction s as [|c s IH]; simpl; [done|]. intros [= H]. by apply IH.
Qed.

Lemma boxesOf_ids_NoDup (c : Cat) : NoDup (box_id <$> boxesOf c).
Proof.
  unfold boxesOf. rewrite <- list_fmap_compose.
  apply NoDup_fmap_2_strong; [|apply NoDup_seq].
  intros i j _ _ Heq. simpl in Heq.
  apply string_append_cancel in Heq. injection Heq as Heq.
  by apply (inj pretty).
Qed.

(** X5. [initializeGame] creates [MAX_STACK_SIZE] boxes for each cat, each
    box of its cat; when the cats have distinct ids, the boxes have distinct
    ids. *)
Theorem createBoxes_ids_unique (cats : list Cat) :
  NoDup (cat_id <$> cats) →
  NoDup (box_id <$> createBoxes cats)
  ∧ length (createBoxes cats) = MAX_STACK_SIZE * length cats
  ∧ (∀ b, b ∈ createBoxes cats → cat b ∈ cats)
  ∧ (∀ c, c ∈ cats → cntKind (cat_id c) (createBoxes cats) = MAX_STACK_SIZE).
Proof.
  intros Hnd. split; [|split; [apply createBoxes_length|split]].
  - unfold createBoxes.
    induction cats as [|c cats IH]; [constructor|].
    rewrite fmap_cons in Hnd. apply NoDup_cons in Hnd as [Hc Hnd].
    rewrite bind_cons, fmap_app. apply NoDup_app.
    split; [apply boxesOf_ids_NoDup|]. split; [|by apply IH].
    intros id (a & -> & Ha)%list_elem_of_fmap (b & Hid & Hb)%list_elem_of_fmap.
    apply list_elem_of_bind in Hb as (cb & Hb & Hcb).
    apply boxesOf_elem in Ha as (_ & sa & Hida & Hla).
    apply boxesOf_elem in Hb as (_ & sb & Hidb & Hlb).
    apply Hc. apply list_elem_of_fmap. exists cb. split; [|done].
    apply (string_append_front _ _ sa sb); congruence.
  - intros b (c & Hb & Hc)%list_elem_of_bind.
    apply boxesOf_elem in Hb as [-> _]. done.
  - intros c Hc. apply Nat.le_antisymm; [by apply createBoxes_NoDup|].
    rewrite createBoxes_cntKind.
    assert (c ∈ filter (λ c', cat_id c' = cat_id c) cats) as Hin.
    { by apply list_elem_of_filter. }
    destruct (filter (λ c', cat_id c' = cat_id c) cats);
      [by apply elem_of_nil in Hin|].
    unfold MAX_STACK_SIZE. simpl. lia.
Qed.

(** ** The partner stack of a swap *)

(** X6. With at least two filled stacks, the stack [unsortStack] and
    [breakPair] pick as the partner of stack [i] is a filled stack other than
    [i], whatever the random source hands out. *)
Theorem randomOtherStack_different (i filledStacks : nat) :
  2 ≤ filledStacks → i < filledStacks →
  returns (randomOtherStack i filledStacks)
          (λ r, r < filledStacks ∧ r ≠ i).
Proof.
  intros Hf Hi. unfold randomOtherStack.
  eapply returns_bind; [apply returns_randomIndex; lia|].
  intros offset Ho. simpl in Ho. apply returns_ret.
  destruct (decide (i + 1 + offset < filledStacks)) as [Hlt|Hge].
  - rewrite Nat.mod_small by done. lia.
  - replace (i + 1 + offset)
      with ((i + 1 + offset - filledStacks) + 1 * filledStacks) by lia.
    rewrite Nat.Div0.mod_add, Nat.mod_small by lia. lia.
Qed.

(** ** More cats than the filled stacks can take *)

Lemma leftoverLoop_full fuel f (newStacks : list Stack) box rest i :
  0 < f → f ≤ length newStacks →
  (∀ st, st ∈ newStacks → MAX_STACK_SIZE ≤ length st) →
  i < f →
  ∀ g, leftoverLoop fuel f newStacks (box :: rest) i g = Diverged.
Proof.
  intros Hf Hlen Hfull. revert i.
  induction fuel as [|fuel IH]; intros i Hi g; cbn [leftoverLoop];
    rewrite bool_decide_eq_true_2 by done; [done|].
  destruct (lookup_lt_is_Some_2 newStacks i) as [st Hst]; [lia|].
  unfold bind, defined. rewrite Hst. simpl.
  rewrite bool_decide_eq_false_2.
  - apply IH. apply Nat.mod_upper_bound. lia.
  - assert (MAX_STACK_SIZE ≤ length st); [|lia].
    apply Hfull. by eapply list_elem_of_lookup_2.
Qed.

(** X7. When there are more cats than filled stacks, the first deal fills
    every stack and boxes are left over; the loop that deals the leftover
    boxes then finds no stack with room and goes round for ever:
    [initializeGame] neither returns nor raises, whatever the random source
    hands out. *)
Theorem initializeGame_overfull_diverges (fuel : nat) (cats : list Cat)
    (config : Config.t) (s : Session) (g : Rng) :
  0 < Config.stacks config - Config.emptyStacks config →
  Config.stacks config - Config.emptyStacks config < length cats →
  initializeGame fuel cats config s g = Diverged.
Proof.
  intros Hf Hcats. revert g. destruct fuel as [|fuel]; intros g; [done|].
  cbn [initializeGame].
  rewrite bool_decide_eq_false_2 by lia.
  unfold bind at 1.
  assert (buildStacks fuel (difficulty s) cats config g = Diverged) as ->;
    [|done].
  unfold buildStacks.
  set (f := Config.stacks config - Config.emptyStacks config) in *.
  set (n := length (createBoxes cats)).
  assert (Hn : MAX_STACK_SIZE * f < n).
  { unfold n. rewrite createBoxes_length. unfold MAX_STACK_SIZE. lia. }
  assert (Hbps : boxesPerStackOf n f = MAX_STACK_SIZE).
  { unfold boxesPerStackOf. apply Nat.min_l.
    apply Nat.div_le_lower_bound; [lia|]. unfold MAX_STACK_SIZE in *. lia. }
  rewrite Hbps.
  destruct (returns_sortM randomOrder (@returns_randomOrder CatBox)
              (createBoxes cats) g) as (shuffled & g1 & Hsort & Hperm).
  unfold bind at 1. rewrite Hsort.
  destruct (returns_preMatch
              match difficulty s with easy => 4 | medium => 3 | hard => 2 end
              [] shuffled) with (g := g1)
    as (groups & g2 & Hpre & _ & Hlen).
  { eapply idKind_subseteq; [|apply createBoxes_idKind].
    intros x. by rewrite Hperm. }
  unfold bind at 1. rewrite Hpre.
  set (mixed := groups.1 ++ groups.2) in *.
  assert (Hmixed : length mixed = n).
  { rewrite Hlen. simpl. unfold n. by rewrite Hperm. }
  destruct (drop (f * MAX_STACK_SIZE) mixed) as [|box rest] eqn:Hdrop.
  { apply (f_equal length) in Hdrop. rewrite length_drop in Hdrop.
    simpl in Hdrop. lia. }
  unfold bind at 1. rewrite leftoverLoop_full; [done|done| | |done].
  - by rewrite fillStacks_length.
  - intros st [i Hi]%list_elem_of_lookup.
    pose proof (lookup_lt_Some _ _ _ Hi) as Hlt.
    rewrite fillStacks_length in Hlt.
    rewrite fillStacks_lookup in Hi by done. injection Hi as <-.
    rewrite length_take, length_drop. unfold MAX_STACK_SIZE in *. nia.
Qed.

(** ** Sessions that can arise: flags, indices and timers *)

(** What [initializeGame] returns was built by one of its passes. *)
Lemma initializeGame_Returned_pass fuel cats config s g s' g' :
  initializeGame fuel cats config s g = Returned (s', g') →
  (cats = [] ∧ s' = s)
  ∨ ∃ fuel' g0 board,
      buildStacks fuel' (difficulty s) cats config g0 = Returned (board, g')
      ∧ s' = startGame board s.
Proof.
  revert g. induction fuel as [|fuel IH]; intros g; simpl; [done|].
  case_bool_decide as Hlen.
  { intros [= <- <-]. left. split; [|done]. by destruct cats. }
  intros (newStacks & g1 & Hbuild & Hrest)%bind_Returned.
  destruct (oversizedStacks newStacks || tooManyBoxesOfOnecat newStacks).
  - by eapply IH.
  - injection Hrest as <- <-. right. by exists fuel, g, newStacks.
Qed.

(** The effect returns only with a fresh game on a fresh board. *)
Lemma difficultyEffect_inv fuel s g s' g' :
  difficultyEffect fuel s g = Returned (s', g') →
  ∃ cats board,
    s' = startGame board (setActiveCats cats s)
    ∧ freshBoard (difficulty s) cats board.
Proof.
  intros (shuffledCats & g1 & Hshuffle & Hinit)%bind_Returned.
  destruct (returns_shuffleArray placeholderCats g)
    as (shuffled' & g1' & Hshuffle' & Hperm).
  assert (shuffled' = shuffledCats) as -> by congruence.
  destruct (gameCats_wellformed (difficulty s) shuffledCats Hperm)
    as [Hnd Hlen].
  apply initializeGame_Returned_pass in Hinit
    as [[Hnil _]|(fuel' & g0 & board & Hbuild & ->)].
  - rewrite Hnil in Hlen. by destruct (difficulty s).
  - eexists _, board. split; [done|].
    eapply buildStacks_freshBoard; [done| |done|exact Hbuild].
    intros c Hc. rewrite <- Hperm. by eapply subseteq_take.
Qed.

Section fresh_induction.
(** A property of sessions that every fresh game has and every event
    keeps. *)
Variable P : Session → Prop.
Hypothesis P_fresh : ∀ s cats board,
  timeouts s = [] → freshBoard (difficulty s) cats board →
  P (startGame board (setActiveCats cats s)).
Hypothesis P_step : ∀ s e s',
  reachable s → P s → step e s = Some s' → P s'.

Lemma reachable_ind_fresh s : reachable s → P s.
Proof using All.
  induction 1 as [fuel d oc g s g' Hm|s e s' Hreach IH Hstep
                 |fuel d s g s' g' Hreach IH Ha Hd|fuel s g s' g' Hreach IH Hr].
  - apply difficultyEffect_inv in Hm as (cats & board & -> & ?).
    by apply P_fresh.
  - by eapply P_step.
  - unfold handleSetDifficulty in Hd. case_bool_decide.
    + by injection Hd as <- <-.
    + apply difficultyEffect_inv in Hd as (cats & board & -> & ?).
      apply P_fresh; [|done]. simpl.
      destruct (reachable_timerDiscipline s Hreach) as [?|[? _]];
        [done|congruence].
  - unfold handleReset in Hr. destruct (isAnimating s) eqn:Ha.
    + by injection Hr as <- <-.
    + apply (difficultyEffect_inv fuel s) in Hr
        as (cats & board & -> & ?).
      apply P_fresh; [|done].
      destruct (reachable_timerDiscipline s Hreach) as [?|[? _]];
        [done|congruence].
Qed.
End fresh_induction.

(** Every session that can arise keeps the invariant of the Board. *)
Lemma reachable_boardInvariant s : reachable s → boardInvariant s.
Proof.
  apply reachable_ind_fresh.
  - intros s0 cats board Hnil (_ & _ & _ & _ & _ & Hcnt).
    split; [|simpl; rewrite Hnil; split; by intros ? ?%elem_of_nil].
    intros k. simpl. rewrite Hcnt. case_decide; unfold MAX_STACK_SIZE; lia.
  - intros s0 e s' Hreach Hinv Hstep.
    eapply boardInvariant_step; [|done..].
    by apply reachable_timerDiscipline.
Qed.

(** How [handleStackClick] can leave a session, case by case. *)
Lemma handleStackClick_inv_full i s s' :
  handleStackClick i s = Some s' →
  (¬ playing s ∧ s' = s)
  ∨ (playing s ∧ selectedStackIndex s = None
     ∧ ∃ clicked, stacks s !! i = Some clicked
         ∧ s' = if 0 <? length clicked
                then setSelectedStackIndex (Some i) s else s)
  ∨ (playing s ∧ selectedStackIndex s = Some i
     ∧ s' = setSelectedStackIndex None s)
  ∨ (playing s
     ∧ ∃ fromIdx src dst,
         selectedStackIndex s = Some fromIdx ∧ fromIdx ≠ i
         ∧ stacks s !! fromIdx = Some src ∧ stacks s !! i = Some dst
         ∧ (s' = setSelectedStackIndex None s
            ∨ (length dst + length (getMatchingTopBoxes src) ≤ MAX_STACK_SIZE
               ∧ topMismatch dst (getMatchingTopBoxes src) = Some false
               ∧ s' = acceptMove fromIdx i (getMatchingTopBoxes src) s))).
Proof.
  unfold handleStackClick, playing.
  destruct (isComplete s) eqn:Hc; simpl;
    [intros [= <-]; left; split; [by intros (? & _)|done]|].
  destruct (isLost s) eqn:Hl; simpl;
    [intros [= <-]; left; split; [by intros (_ & ? & _)|done]|].
  destruct (isAnimating s) eqn:Ha; simpl;
    [intros [= <-]; left; split; [by intros (_ & _ & ?)|done]|].
  destruct (selectedStackIndex s) as [fromIdx|].
  - case_bool_decide as Hfi.
    { intros [= <-]. subst. right; right; left. done. }
    destruct (stacks s !! fromIdx) as [src|] eqn:Hsrc; simpl; [|done].
    destruct (stacks s !! i) as [dst|] eqn:Hdst; simpl; [|done].
    intros Hs'. right; right; right. split; [done|].
    exists fromIdx, src, dst. repeat (split; [done|]).
    destruct (_ <=? _) eqn:Hcap; [|injection Hs' as <-; by left].
    apply Nat.leb_le in Hcap.
    destruct (topMismatch _ _) as [[|]|] eqn:Hmis; [| |done].
    + injection Hs' as <-. by left.
    + injection Hs' as <-. right. done.
  - destruct (stacks s !! i) as [clicked|] eqn:Hi; simpl; [|done].
    intros [= <-]. right; left. split; [done|]. split; [done|].
    by exists clicked.
Qed.

(** What the timeout callback does to the flags and what it leaves alone. *)
Lemma runTimeout_flags (t : Timeout) (s s' : Session) :
  runTimeout t s = Some s' →
  ∃ newStacks,
    movedStacks (t_stacks t) (t_from t) (t_to t) = Some newStacks
    ∧ stacks s' = newStacks
    ∧ activeCats s' = activeCats s
    ∧ selectedStackIndex s' = selectedStackIndex s
    ∧ difficulty s' = difficulty s
    ∧ animatingBoxes s' = []
    ∧ isComplete s' = completionOf (t_activeCats t) newStacks
    ∧ ∃ hasValidMoves,
        checkForValidMoves newStacks = Some hasValidMoves
        ∧ isLost s' = (if completionOf (t_activeCats t) newStacks
                       then isLost s
                       else if hasValidMoves then isLost s else true).
Proof.
  unfold runTimeout.
  destruct (movedStacks (t_stacks t) (t_from t) (t_to t)) as [newStacks|];
    simpl; [|done].
  unfold checkCompletion. simpl.
  destruct (checkForValidMoves_total newStacks) as [b Hb]. rewrite Hb.
  destruct (completionOf (t_activeCats t) newStacks) eqn:Hdone; simpl.
  - destruct (onComplete s); simpl; intros [= <-]; exists newStacks;
      rewrite Hdone; repeat (split; [done|]); by exists b.
  - intros [= <-]. exists newStacks. rewrite Hdone.
    split; [done|].
    destruct b; repeat (split; [done|]); by eexists.
Qed.

Lemma movedStacks_length (board board' : list Stack) fromIdx toIdx :
  movedStacks board fromIdx toIdx = Some board' →
  length board' = length board.
Proof.
  unfold movedStacks.
  destruct (board !! fromIdx) as [src|]; simpl; [|done].
  destruct (_ !! toIdx) as [dst|]; simpl; [|done].
  intros [= <-]. by rewrite !length_insert.
Qed.

Lemma movedStacks_is_Some (board : list Stack) fromIdx toIdx :
  fromIdx < length board → toIdx < length board →
  is_Some (movedStacks board fromIdx toIdx).
Proof.
  intros Hf Ht. unfold movedStacks.
  destruct (lookup_lt_is_Some_2 board fromIdx Hf) as [src ->]. simpl.
  destruct (lookup_lt_is_Some_2
              (<[fromIdx := drop (length (getMatchingTopBoxes src)) src]> board)
              toIdx) as [dst ->]; [by rewrite length_insert|].
  simpl. by eexists.
Qed.

Lemma sessionInvariant_step s e s' :
  timerDiscipline s → boardInvariant s → sessionInvariant s →
  step e s = Some s' → sessionInvariant s'.
Proof.
  intros Htimer (_ & Hcaptured & _)
    (Hlost & Hanim & Hts & Hmoves & Hsel & Hcomplete & Hstuck) Hstep.
  destruct e as [i| |].
  - apply handleStackClick_inv_full in Hstep
      as [[_ ->]|[(_ & Hnone & clicked & Hi & ->)
         |[(_ & _ & ->)|((Hc & Hl & Ha) & fromIdx & src & dst & Hfrom & Hdiff
                         & Hsrc & Hdst & [->|(_ & _ & ->)])]]].
    + done.
    + destruct (0 <? length clicked); [|done].
      unfold sessionInvariant. simpl.
      repeat (split; [done|]). split; [|done].
      intros j [= <-]. by eapply lookup_lt_Some.
    + unfold sessionInvariant. simpl. repeat (split; [done|]).
      try done; by apply Hstuck.
    + unfold sessionInvariant. simpl. repeat (split; [done|]).
      try done; by apply Hstuck.
    + assert (Hnil : timeouts s = []).
      { destruct Htimer as [?|[? _]]; [done|congruence]. }
      pose proof (lookup_lt_Some _ _ _ Hsrc).
      pose proof (lookup_lt_Some _ _ _ Hdst).
      unfold sessionInvariant. simpl. rewrite Hnil. simpl.
      split; [done|]. split; [done|]. split.
      { intros t [->|?%elem_of_nil]%elem_of_cons; done. }
      split.
      { intros m [Hm|[->|?%elem_of_nil]%elem_of_cons]%elem_of_app;
          [by apply Hmoves|done|done]. }
      split; [done|]. split; [congruence|congruence].
  - apply undoMove_inv in Hstep
      as [[-> _]|(Hc & Ha & lastMove & ids & Hsplit & ->)]; [done|].
    assert (Hnil : timeouts s = []).
    { destruct Htimer as [?|[? _]]; [done|congruence]. }
    assert (Hlast : lastMove ∈ moves s).
    { rewrite Hsplit. apply elem_of_app. right. by left. }
    destruct (Hmoves lastMove Hlast) as [? ?].
    unfold sessionInvariant. simpl. rewrite Hnil. simpl.
    split; [done|]. split; [done|]. split.
    { intros t [->|?%elem_of_nil]%elem_of_cons; done. }
    split.
    { intros m Hm. apply Hmoves. rewrite Hsplit. apply elem_of_app. by left. }
    split; [done|]. done.
  - apply step_Tick_inv in Hstep as [[_ ->]|(t & rest & Ht & Hrun)]; [done|].
    destruct (Hcaptured t) as [Hcap _]; [rewrite Ht; by left|].
    destruct (Hts t) as (Hcats & _); [rewrite Ht; by left|].
    assert (rest = []) as ->.
    { destruct Htimer as [Hnil|(_ & _ & Hlen)]; [congruence|].
      rewrite Ht in Hlen. by destruct rest. }
    assert (Hl : isLost s = false).
    { apply Hlost. by rewrite Ht. }
    pose proof (runTimeout_inv _ _ _ Hrun)
      as (ns' & Hmoved' & _ & Hmv & _ & Htimeouts & Hanim' & _).
    apply runTimeout_flags in Hrun
      as (ns & Hmoved & Hst & Hac & Hselected & _ & _ & Hc' & b & Hb & Hl').
    simpl in *.
    pose proof (movedStacks_length _ _ _ _ Hmoved) as Hlen.
    rewrite Hcap in Hlen.
    unfold sessionInvariant.
    rewrite Htimeouts, Hanim', Hst, Hmv, Hselected, Hac, Hlen.
    split; [done|]. split; [done|]. split.
    { by intros ? ?%elem_of_nil. }
    split; [done|]. split; [done|]. split.
    { rewrite Hc', Hcats. done. }
    rewrite Hl', Hc', Hl.
    destruct (completionOf (t_activeCats t) ns); [done|].
    destruct b; [done|]. done.
Qed.

(** Every session that can arise keeps [sessionInvariant]. *)
Lemma reachable_sessionInvariant s : reachable s → sessionInvariant s.
Proof.
  apply reachable_ind_fresh.
  - intros s0 cats board Hnil _. unfold sessionInvariant. simpl.
    rewrite Hnil.
    split; [done|]. split; [done|]. split; [by intros ? ?%elem_of_nil|].
    split; [by intros ? ?%elem_of_nil|]. done.
  - intros s0 e s' Hreach Hinv Hstep.
    eapply sessionInvariant_step; [| |done|done].
    + by apply reachable_timerDiscipline.
    + by apply reachable_boardInvariant.
Qed.

(** On a board without empty stack [checkForValidMoves] decides whether a
    legal move exists. *)
Lemma checkForValidMoves_no_empty (board : list Stack) :
  (∀ stack, stack ∈ board → stack ≠ []) →
  ∃ b, checkForValidMoves board = Some b
    ∧ (b = true ↔ ∃ fromIdx toIdx, legalMove board fromIdx toIdx).
Proof.
  intros Hne. unfold checkForValidMoves.
  destruct (existsb isEmptyStack board) eqn:He.
  { apply existsb_empty in He as (st & Hin & ->). by destruct (Hne [] Hin). }
  destruct (anyM_Some (sourceBody board) (indexed board)) as (b & Hb & Hiff).
  { intros [i src] _.
    destruct (sourceBody_spec board i src Hne) as (b & -> & _). by eexists. }
  exists b. split; [done|]. rewrite Hiff. unfold legalMove. split.
  - intros ([i src] & Hin%elem_of_indexed & Hbody).
    destruct (sourceBody_spec board i src Hne) as (b' & Hb' & Hiff').
    assert (b' = true) as Hb'' by congruence.
    apply Hiff' in Hb'' as (Hsrc & j & dst & Hj & Hij & Hl).
    exists i, j. split; [done|]. by exists src, dst.
  - intros (i & j & Hij & src & dst & Hi & Hj & Hsrc & Hl).
    exists (i, src). split; [by apply elem_of_indexed|].
    destruct (sourceBody_spec board i src Hne) as (b' & Hb' & Hiff').
    assert (b' = true) as <-; [|exact Hb'].
    apply Hiff'. split; [done|]. by exists j, dst.
Qed.

(** [checkForValidMoves] answers [false] exactly on the boards without
    empty stack and without legal move. *)
Lemma checkForValidMoves_false (board : list Stack) :
  checkForValidMoves board = Some false
  ↔ (∀ stack, stack ∈ board → stack ≠ [])
    ∧ ¬ ∃ fromIdx toIdx, legalMove board fromIdx toIdx.
Proof.
  split.
  - intros Hfalse.
    assert (Hne : ∀ stack, stack ∈ board → stack ≠ []).
    { apply existsb_no_empty. unfold checkForValidMoves in Hfalse.
      by destruct (existsb isEmptyStack board). }
    split; [done|].
    destruct (checkForValidMoves_no_empty board Hne) as (b & Hb & Hiff).
    intros Hlegal%Hiff. congruence.
  - intros [Hne Hno].
    destruct (checkForValidMoves_no_empty board Hne) as (b & -> & Hiff).
    f_equal. destruct b; [|done]. exfalso. by apply Hno, Hiff.
Qed.

(** ** More worked examples *)

Lemma demoMoving_reachable : reachable demoMoving.
Proof.
  eapply (run_reachable [Click 1; Click 4]);
    [apply demoSession_reachable|vm_compute; reflexivity].
Qed.

Lemma demoEmptySelected_reachable : reachable demoEmptySelected.
Proof.
  eapply (run_reachable [Click 1; Click 4; Tick; Click 4; UndoClick; Tick]);
    [apply demoSession_reachable|vm_compute; reflexivity].
Qed.

Lemma demoMoved_reachable : reachable demoMoved.
Proof.
  eapply (run_reachable [Click 1; Click 4; Tick]);
    [apply demoSession_reachable|vm_compute; reflexivity].
Qed.

Lemma demoSolved_reachable : reachable demoSolved.
Proof.
  eapply (run_reachable demoSolution);
    [apply demoSession_reachable|vm_compute; reflexivity].
Qed.

Lemma demoSolved_board :
  boardIds (stacks demoSolved)
  = [ ["cat-2-3"; "cat-2-2"; "cat-2-1"; "cat-2-0"];
      ["cat-7-0"; "cat-7-2"; "cat-7-1"; "cat-7-3"];
      ["cat-6-0"; "cat-6-1"; "cat-6-3"; "cat-6-2"];
      [];
      ["cat-1-2"; "cat-1-0"; "cat-1-3"; "cat-1-1"];
      [] ]
  ∧ isComplete demoSolved = true ∧ notified demoSolved = 1.
Proof. vm_compute. done. Qed.

(** ** What an event does to the board *)

Lemma concat_insert_perm {A} (board : list (list A)) i (st st' : list A) :
  board !! i = Some st →
  concat (<[i := st']> board) ++ st ≡ₚ concat board ++ st'.
Proof.
  revert i. induction board as [|x board IH]; intros i Hi; [done|].
  destruct i as [|i]; simpl in *.
  - injection Hi as ->.
    rewrite <- !app_assoc, (comm (++) st'), (comm (++) (concat board) st).
    by rewrite <- app_assoc.
  - rewrite <- !app_assoc. f_equiv. by apply IH.
Qed.

(** The board the timeout builds holds the very boxes of the board it
    captured. *)
Lemma movedStacks_concat (board board' : list Stack) fromIdx toIdx :
  fromIdx ≠ toIdx →
  movedStacks board fromIdx toIdx = Some board' →
  concat board' ≡ₚ concat board.
Proof.
  intros Hdiff. unfold movedStacks.
  destruct (board !! fromIdx) as [src|] eqn:Hsrc; simpl; [|done].
  rewrite list_lookup_insert_ne by done.
  destruct (board !! toIdx) as [dst|] eqn:Hdst; simpl; [|done].
  intros [= <-].
  set (group := getMatchingTopBoxes src).
  set (board1 := <[fromIdx := drop (length group) src]> board).
  pose proof (concat_insert_perm board fromIdx src
                (drop (length group) src) Hsrc) as E1.
  assert (Hdst1 : board1 !! toIdx = Some dst).
  { unfold board1. by rewrite list_lookup_insert_ne. }
  pose proof (concat_insert_perm board1 toIdx dst (group ++ dst) Hdst1) as E2.
  fold board1 in E1.
  rewrite (getMatchingTopBoxes_split src) in E1 at 1. fold group in E1.
  rewrite !app_assoc in E1, E2.
  apply Permutation_app_inv_r in E1, E2. by rewrite E2, E1.
Qed.

(** No event touches the difficulty or the cats in play; a click or an undo
    leaves the board as it is, and a timeout that fires installs the board
    it builds from the current one. *)
Lemma step_board s e s' :
  boardInvariant s → step e s = Some s' →
  difficulty s' = difficulty s ∧ activeCats s' = activeCats s
  ∧ (stacks s' = stacks s
     ∨ ∃ t, t ∈ timeouts s ∧ t_from t ≠ t_to t
         ∧ movedStacks (stacks s) (t_from t) (t_to t) = Some (stacks s')).
Proof.
  intros (_ & Hcaptured & _) Hstep. destruct e as [i| |].
  - apply handleStackClick_inv in Hstep
      as [->|[[sel ->]|[_ (fromIdx & group & _ & _ & ->)]]];
      (split; [done|]); (split; [done|]); by left.
  - apply undoMove_inv in Hstep
      as [[-> _]|(_ & _ & lastMove & ids & _ & ->)];
      (split; [done|]); (split; [done|]); by left.
  - apply step_Tick_inv in Hstep as [[_ ->]|(t & rest & Ht & Hrun)].
    { split; [done|]. split; [done|]. by left. }
    destruct (Hcaptured t) as [Hcap Hdiff]; [rewrite Ht; by left|].
    apply runTimeout_flags in Hrun
      as (ns & Hmoved & Hst & Hac & _ & Hd & _).
    split; [done|]. split; [done|]. right. exists t.
    split; [rewrite Ht; by left|]. split; [done|].
    by rewrite Hst, <- Hcap.
Qed.

(** X8. No event creates, destroys or duplicates a box or a stack: in a
    session that can arise, a click, an undo or a timeout leaves a board
    whose boxes are a rearrangement of those of the board before, in as many
    stacks. *)
Theorem step_preserves_boxes (s : Session) (e : Event) (s' : Session) :
  reachable s → step e s = Some s' →
  concat (stacks s') ≡ₚ concat (stacks s)
  ∧ length (stacks s') = length (stacks s).
Proof.
  intros Hreach%reachable_boardInvariant Hstep.
  destruct (step_board s e s' Hreach Hstep)
    as (_ & _ & [->|(t & _ & Hdiff & Hmoved)]); [done|].
  split.
  - by eapply movedStacks_concat.
  - by eapply movedStacks_length.
Qed.

(** The census of the board of a session that can arise. *)
Lemma reachable_census (s : Session) :
  reachable s →
  length (stacks s) = Config.stacks (DIFFICULTY_CONFIG (difficulty s))
  ∧ length (activeCats s) = Config.cats (DIFFICULTY_CONFIG (difficulty s))
  ∧ NoDup (cat_id <$> activeCats s)
  ∧ activeCats s ⊆ placeholderCats
  ∧ ∀ k, kindCount k (stacks s)
         = if decide (k ∈ cat_id <$> activeCats s)
           then MAX_STACK_SIZE else 0.
Proof.
  revert s. apply reachable_ind_fresh.
  - intros s cats board _ (Hnd & Hsub & Hlen & Hstacks & _ & Hcnt). done.
  - intros s e s' Hreach (Hstacks & Hcats & Hnd & Hsub & Hcnt) Hstep.
    destruct (step_board s e s' (reachable_boardInvariant s Hreach) Hstep)
      as (Hd & Hac & Hboard).
    rewrite Hd, Hac.
    destruct Hboard as [->|(t & _ & Hdiff & Hmoved)]; [done|].
    rewrite (movedStacks_length _ _ _ _ Hmoved).
    repeat (split; [done|]).
    intros k. by rewrite (movedStacks_kindCount _ _ _ _ k Hdiff Hmoved).
Qed.

(** No cat in play is named [__proto__], and every box on the board is of a
    cat in play. *)
Lemma reachable_kinds s :
  reachable s →
  ("__proto__" ∉ cat_id <$> activeCats s)
  ∧ ∀ stack b, stack ∈ stacks s → b ∈ stack →
      kind b ∈ cat_id <$> activeCats s.
Proof.
  intros (_ & _ & _ & Hsub & Hcnt)%reachable_census. split.
  - intros (c & Hid & Hc%Hsub)%list_elem_of_fmap.
    assert (Hall : Forall (λ c, cat_id c ≠ "__proto__") placeholderCats).
    { repeat constructor; discriminate. }
    by apply (proj1 (Forall_forall _ _) Hall c Hc).
  - intros stack b Hstack Hb.
    destruct (decide (kind b ∈ cat_id <$> activeCats s)) as [|Hout]; [done|].
    specialize (Hcnt (kind b)). rewrite decide_False in Hcnt by done.
    by destruct (kindCount_zero _ _ Hcnt stack Hstack b Hb).
Qed.

(** In a session that can arise [completionOf] decides [sortedBoard]. *)
Lemma reachable_completionOf_sorted s :
  reachable s →
  completionOf (activeCats s) (stacks s) = true
  ↔ sortedBoard (activeCats s) (stacks s).
Proof.
  intros Hreach.
  destruct (reachable_boardInvariant s Hreach) as (Hcount & _).
  destruct (reachable_kinds s Hreach) as [Hproto Hkinds].
  apply completionOf_sorted; [by intros c _|done|].
  intros stack b Hstack Hb _ _. by apply (Hkinds stack).
Qed.

(** X9. Every session that can arise has the board of its difficulty and
    its cats: the profile's number of stacks, the profile's number of cats,
    distinct and from the catalog, [MAX_STACK_SIZE] boxes of each of them and
    no box of another kind, whatever clicks, undos, resets and difficulty
    changes led to it. *)
Theorem reachable_board_census (s : Session) :
  reachable s →
  length (stacks s) = Config.stacks (DIFFICULTY_CONFIG (difficulty s))
  ∧ length (activeCats s) = Config.cats (DIFFICULTY_CONFIG (difficulty s))
  ∧ NoDup (cat_id <$> activeCats s)
  ∧ activeCats s ⊆ placeholderCats
  ∧ ∀ k, kindCount k (stacks s)
         = if decide (k ∈ cat_id <$> activeCats s)
           then MAX_STACK_SIZE else 0.
Proof. apply reachable_census. Qed.

(** ** The flags *)

Lemma reachable_idle s :
  reachable s → isComplete s = true ∨ isLost s = true →
  timeouts s = [] ∧ isAnimating s = false.
Proof.
  intros Hreach Hflag.
  pose proof (reachable_timerDiscipline s Hreach) as Htimer.
  destruct (reachable_sessionInvariant s Hreach) as (Hlost & Hanim & _).
  assert (Hnil : timeouts s = []).
  { destruct Htimer as [?|(_ & Hc & _)]; [done|].
    destruct Hflag as [?|Hl]; [congruence|].
    destruct (timeouts s); [done|]. rewrite Hlost in Hl; done. }
  split; [done|]. destruct (isAnimating s); [|done].
  by destruct Hanim.
Qed.

(** X10. The flags of a session that can arise are sound.  When
    [isComplete] is set the board is sorted: every stack is of a single kind
    and every cat in play has all its boxes in one stack.  When [isLost] is
    set the board has no empty stack and no legal move.  The two flags are
    never set together, and neither is set while an animation runs. *)
Theorem reachable_flags_sound (s : Session) :
  reachable s →
  (isComplete s = true →
     sortedBoard (activeCats s) (stacks s)
     ∧ isLost s = false ∧ isAnimating s = false ∧ timeouts s = [])
  ∧ (isLost s = true →
       isComplete s = false ∧ isAnimating s = false ∧ timeouts s = []
       ∧ (∀ stack, stack ∈ stacks s → stack ≠ [])
       ∧ ¬ ∃ fromIdx toIdx, legalMove (stacks s) fromIdx toIdx).
Proof.
  intros Hreach.
  destruct (reachable_boardInvariant s Hreach) as (Hcount & _).
  destruct (reachable_sessionInvariant s Hreach)
    as (_ & _ & _ & _ & _ & Hcomplete & Hstuck).
  split.
  - intros Hc. destruct (reachable_idle s Hreach) as [? ?]; [by left|].
    split; [by apply (reachable_completionOf_sorted s Hreach), Hcomplete|].
    split; [|done]. destruct (isLost s); [|done].
    destruct Hstuck; congruence.
  - intros Hl. destruct (reachable_idle s Hreach) as [? ?]; [by right|].
    destruct (Hstuck Hl) as [? Hno%checkForValidMoves_false]. done.
Qed.

(** X11. When the pending timeout of a session that can arise fires, it does
    not raise; it installs the board with the top group of the source moved
    to the destination, ends the animation, sets [isComplete] exactly when
    that board is sorted and [isLost] exactly when it is not sorted, has no
    empty stack and admits no legal move. *)
Theorem timeout_evaluates_position (s : Session) :
  reachable s → timeouts s ≠ [] →
  ∃ s', step Tick s = Some s'
    ∧ timeouts s' = [] ∧ isAnimating s' = false ∧ animatingBoxes s' = []
    ∧ (∃ t, timeouts s = [t]
         ∧ movedStacks (stacks s) (t_from t) (t_to t) = Some (stacks s'))
    ∧ (isComplete s' = true ↔ sortedBoard (activeCats s') (stacks s'))
    ∧ (isLost s' = true ↔
         ¬ sortedBoard (activeCats s') (stacks s')
         ∧ (∀ stack, stack ∈ stacks s' → stack ≠ [])
         ∧ ¬ ∃ fromIdx toIdx, legalMove (stacks s') fromIdx toIdx).
Proof.
  intros Hreach Hpending.
  destruct (reachable_boardInvariant s Hreach) as (_ & Hcaptured & _).
  destruct (reachable_sessionInvariant s Hreach) as (Hlost & _ & Hts & _).
  destruct (timeouts s) as [|t rest] eqn:Ht; [done|].
  assert (rest = []) as ->.
  { destruct (reachable_timerDiscipline s Hreach) as [Hnil|(_ & _ & Hlen)];
      [congruence|].
    rewrite Ht in Hlen. by destruct rest. }
  destruct (Hcaptured t) as [Hcap Hdiff]; [by left|].
  destruct (Hts t) as (Hcats & Hfrom & Hto); [by left|].
  destruct (movedStacks_is_Some (stacks s) (t_from t) (t_to t))
    as [ns Hmoved]; [done..|].
  destruct (runTimeout_Some t (setTimeouts [] s) ns) as (s' & Hrun & _);
    [by rewrite Hcap|].
  assert (Hstep : step Tick s = Some s') by (simpl; by rewrite Ht).
  assert (Hreach' : reachable s') by (by eapply reach_step).
  destruct (reachable_boardInvariant s' Hreach') as (Hcount & _).
  pose proof (runTimeout_inv _ _ _ Hrun)
    as (ns1 & _ & _ & _ & _ & Htimeouts & Hanim & _).
  apply runTimeout_flags in Hrun
    as (ns' & Hmoved' & Hst & Hac & _ & _ & Hboxes & Hc' & b & Hb & Hl').
  rewrite Hcap, Hmoved in Hmoved'. injection Hmoved' as <-.
  simpl in *. rewrite Hlost in Hl' by done.
  exists s'. split; [done|]. split; [done|]. split; [done|].
  split; [done|]. split.
  { exists t. by rewrite Hst. }
  rewrite Hcats, <- Hac, <- Hst in Hc', Hl'. rewrite <- Hst in Hb.
  pose proof (reachable_completionOf_sorted s' Hreach') as Hsorted.
  split; [by rewrite Hc'|].
  rewrite <- checkForValidMoves_false, <- Hsorted, Hl', Hb.
  destruct (completionOf (activeCats s') (stacks s')), b; split;
    try done; try (by intros [? ?]).
Qed.

(** ** Reads that can fail *)

Lemma topMismatch_None (dst group : Stack) :
  topMismatch dst group = None ↔ dst ≠ [] ∧ group = [].
Proof.
  destruct dst, group; simpl; split; try done; by intros [? ?].
Qed.

Lemma reachable_undoMove_is_Some s : reachable s → is_Some (undoMove s).
Proof.
  intros Hreach.
  destruct (reachable_sessionInvariant s Hreach) as (_ & _ & _ & Hmoves & _).
  unfold undoMove. case_bool_decide as Hlen; simpl; [by eexists|].
  destruct (isComplete s || isAnimating s); [by eexists|].
  destruct (lookup_lt_is_Some_2 (moves s) (length (moves s) - 1))
    as [lastMove Hlast]; [lia|].
  rewrite Hlast. simpl.
  destruct (Hmoves lastMove) as [_ Hto]; [by eapply list_elem_of_lookup_2|].
  destruct (lookup_lt_is_Some_2 (stacks s) (to lastMove) Hto) as [target ->].
  simpl. by eexists.
Qed.

Lemma reachable_Tick_is_Some s : reachable s → is_Some (step Tick s).
Proof.
  intros Hreach. simpl.
  destruct (timeouts s) as [|t rest] eqn:Ht; [by eexists|].
  destruct (reachable_boardInvariant s Hreach) as (_ & Hcaptured & _).
  destruct (reachable_sessionInvariant s Hreach) as (_ & _ & Hts & _).
  destruct (Hcaptured t) as [Hcap _]; [rewrite Ht; by left|].
  destruct (Hts t) as (_ & Hfrom & Hto); [rewrite Ht; by left|].
  destruct (movedStacks_is_Some (stacks s) (t_from t) (t_to t))
    as [ns Hmoved]; [done..|].
  destruct (runTimeout_Some t (setTimeouts rest s) ns) as (s' & -> & _);
    [by rewrite Hcap|].
  by eexists.
Qed.

(** X12. In a session that can arise, Undo and the timeouts never raise, and
    a click on a stack of the board raises in exactly one situation: the
    session takes input, the selected stack is another one and is empty (the
    selection survived an undo that emptied it), and the clicked stack is
    neither empty nor over capacity; the handler then reads the cat of the
    first box of an empty group. *)
Theorem reachable_no_raise (s : Session) :
  reachable s →
  is_Some (undoMove s) ∧ is_Some (step Tick s)
  ∧ ∀ i, i < length (stacks s) →
      (handleStackClick i s = None ↔
         playing s
         ∧ ∃ fromIdx dst,
             selectedStackIndex s = Some fromIdx ∧ fromIdx ≠ i
             ∧ stacks s !! fromIdx = Some []
             ∧ stacks s !! i = Some dst
             ∧ dst ≠ [] ∧ length dst ≤ MAX_STACK_SIZE).
Proof.
  intros Hreach. split; [by apply reachable_undoMove_is_Some|]. split.
  { by apply reachable_Tick_is_Some. }
  destruct (reachable_sessionInvariant s Hreach)
    as (_ & _ & _ & _ & Hsel & _).
  intros i Hi. unfold handleStackClick, playing.
  destruct (isComplete s) eqn:Hc; simpl;
    [split; [done|by intros [(? & _) _]]|].
  destruct (isLost s) eqn:Hl; simpl;
    [split; [done|by intros [(_ & ? & _) _]]|].
  destruct (isAnimating s) eqn:Ha; simpl;
    [split; [done|by intros [(_ & _ & ?) _]]|].
  destruct (lookup_lt_is_Some_2 (stacks s) i Hi) as [dst Hdst].
  destruct (selectedStackIndex s) as [fromIdx|] eqn:Hselected.
  - case_bool_decide as Hfi.
    { split; [done|]. intros (_ & f & ? & [= <-] & ? & _). done. }
    destruct (lookup_lt_is_Some_2 (stacks s) fromIdx (Hsel _ eq_refl))
      as [src Hsrc].
    rewrite Hsrc, Hdst. simpl.
    destruct (length dst + length (getMatchingTopBoxes src) <=? MAX_STACK_SIZE)
      eqn:Hcap.
    + apply Nat.leb_le in Hcap.
      destruct (topMismatch dst (getMatchingTopBoxes src)) as [b|] eqn:Hmis.
      * split; [by destruct b|].
        intros (_ & f & dst' & [= <-] & _ & Hsrc' & Hdst' & Hne & _).
        assert (src = []) as -> by congruence.
        assert (dst' = dst) as -> by congruence.
        assert (topMismatch dst (getMatchingTopBoxes []) = None) as Hnone
          by (by apply topMismatch_None).
        congruence.
      * apply topMismatch_None in Hmis as [Hne Hg].
        apply (proj1 (getMatchingTopBoxes_nil src)) in Hg. subst src. simpl in Hcap. split; [|done]. intros _.
        split; [done|]. exists fromIdx, dst. repeat (split; [done|]). lia.
    + apply Nat.leb_gt in Hcap. split; [done|].
      intros (_ & f & dst' & [= <-] & _ & Hsrc' & Hdst' & _ & Hlen).
      assert (src = []) as -> by congruence.
      assert (dst' = dst) as -> by congruence. simpl in Hcap. lia.
  - rewrite Hdst. simpl. split; [done|]. by intros (_ & f & ? & [= ?] & _).
Qed.

(** ** The move counter *)

(** C10. In every session that can arise the move counter is the length of
    the move history, hence never negative.  Generation returns, and the
    game it starts has counter 0 and an empty history.  A click changes
    nothing of the two or adds one record and one to the counter, and the
    click that makes a legal move does the latter.  Undo never raises: when
    the history is empty, the game complete or an animation running it
    changes nothing; otherwise it removes the last record and takes exactly
    one from the counter, which is again the length of the history. *)
Theorem moveCount_tracks_history (s : Session) :
  reachable s →
  moveCount s = Z.of_nat (length (moves s))
  ∧ (0 ≤ moveCount s)%Z
  ∧ (∀ fuel cats config g s' g',
       cats ≠ [] →
       initializeGame fuel cats config s g = Returned (s', g') →
       moveCount s' = 0%Z ∧ moves s' = [])
  ∧ (∀ fuel g, ∃ s' g',
       difficultyEffect (S fuel) s g = Returned (s', g')
       ∧ moveCount s' = 0%Z ∧ moves s' = [])
  ∧ (∀ i s', handleStackClick i s = Some s' →
       (moves s' = moves s ∧ moveCount s' = moveCount s)
       ∨ ((∃ m, moves s' = moves s ++ [m])
          ∧ moveCount s' = (moveCount s + 1)%Z))
  ∧ (∀ fromIdx toIdx src dst,
       playing s → selectedStackIndex s = Some fromIdx → fromIdx ≠ toIdx →
       stacks s !! fromIdx = Some src → stacks s !! toIdx = Some dst →
       src ≠ [] → legalPlacement (getMatchingTopBoxes src) dst →
       ∃ s', handleStackClick toIdx s = Some s'
         ∧ moves s'
           = moves s ++ [mkMove fromIdx toIdx
                           (length (getMatchingTopBoxes src))]
         ∧ moveCount s' = (moveCount s + 1)%Z
         ∧ moveCount s' = Z.of_nat (length (moves s')))
  ∧ ∃ s', undoMove s = Some s'
      ∧ (moves s = [] ∨ isComplete s = true ∨ isAnimating s = true → s' = s)
      ∧ (moves s ≠ [] → isComplete s = false → isAnimating s = false →
           (∃ m, moves s = moves s' ++ [m])
           ∧ moveCount s' = (moveCount s - 1)%Z
           ∧ moveCount s' = Z.of_nat (length (moves s'))
           ∧ (0 ≤ moveCount s')%Z).
Proof.
  intros Hreach. pose proof (reachable_moveCount s Hreach) as Hinv.
  split; [done|]. split; [lia|]. split.
  { intros fuel cats config g s' g' Hcats
      [[-> _]|(newStacks & -> & _)]%initializeGame_Returned; done. }
  split.
  { intros fuel g.
    destruct (difficultyEffect_returns fuel s g)
      as (s' & g' & Hrun & cats & board & -> & _).
    by exists (startGame board (setActiveCats cats s)), g'. }
  split.
  { intros i s'
      [->|[[sel ->]|[_ (fromIdx & group & _ & _ & ->)]]]%handleStackClick_inv;
      [by left..|].
    right. simpl. split; [|done]. eauto. }
  split.
  { intros fromIdx toIdx src dst Hplaying Hsel Hdiff Hsrc Hdst Hne Hlegal.
    destruct (handleStackClick_cases s fromIdx toIdx src dst)
      as [[_ Hclick]|[Hno _]]; [done..| |done].
    eexists. split; [exact Hclick|]. simpl. split; [done|]. split; [done|].
    rewrite length_app. simpl. lia. }
  destruct (reachable_undoMove_is_Some s Hreach) as [s' Hundo].
  exists s'. split; [done|].
  apply undoMove_inv in Hundo
    as [[-> Hguard]|(Hc & Ha & lastMove & ids & Hsplit & ->)].
  - split; [done|]. intros Hmoves Hc Ha.
    destruct Hguard as [?|[?|?]]; [done|congruence..].
  - split.
    { intros [Hnil|[?|?]]; [|congruence..].
      rewrite Hnil in Hsplit. by destruct (take _ _). }
    intros _ _ _. simpl. split; [by exists lastMove|]. split; [done|].
    apply (f_equal length) in Hsplit. rewrite length_app in Hsplit.
    simpl in Hsplit. lia.
Qed.

(** ** Moves of no box *)

(** X13. With an empty stack selected (the selection survived an undo that
    emptied it), a click on another empty stack is accepted as a move of no
    box: it is counted, recorded with count 0 and animated, and its timeout
    leaves the board as it was. *)
Theorem empty_source_move (s : Session) (fromIdx toIdx : nat) :
  playing s → timeouts s = [] →
  selectedStackIndex s = Some fromIdx → fromIdx ≠ toIdx →
  stacks s !! fromIdx = Some [] → stacks s !! toIdx = Some [] →
  ∃ s1 s2,
    handleStackClick toIdx s = Some s1
    ∧ moves s1 = moves s ++ [mkMove fromIdx toIdx 0]
    ∧ moveCount s1 = (moveCount s + 1)%Z
    ∧ isAnimating s1 = true ∧ animatingBoxes s1 = []
    ∧ step Tick s1 = Some s2
    ∧ stacks s2 = stacks s ∧ moves s2 = moves s1.
Proof.
  intros (Hc & Hl & Ha) Hnil Hsel Hdiff Hsrc Hdst.
  destruct (runTimeout_Some
              (mkTimeout (stacks s) (activeCats s) fromIdx toIdx)
              (setTimeouts [] (acceptMove fromIdx toIdx [] s))
              (stacks s))
    as (s2 & Hrun & Hst & Hmv & _).
  { simpl. rewrite (movedStacks_move _ _ _ [] []) by done.
    unfold boardAfterMove. simpl. f_equal.
    rewrite (list_insert_id _ fromIdx) by done. by apply list_insert_id. }
  exists (acceptMove fromIdx toIdx [] s), s2. split.
  { unfold handleStackClick. rewrite Hc, Hl, Ha, Hsel. simpl.
    rewrite bool_decide_eq_false_2 by done. by rewrite Hsrc, Hdst. }
  repeat (split; [done|]). split; [|done].
  simpl. rewrite Hnil. exact Hrun.
Qed.

(** ** A move and its undo *)

Lemma step_Tick_single s t :
  timeouts s = [t] → step Tick s = runTimeout t (setTimeouts [] s).
Proof. intros Ht. unfold step. by rewrite Ht. Qed.

(** Undo when it passes its guard, the last record being [m]. *)
Lemma undoMove_last s hist m target :
  isComplete s = false → isAnimating s = false →
  moves s = hist ++ [m] → stacks s !! to m = Some target →
  undoMove s
  = Some (setIsLost false
            (setIsComplete false
               (setMoves hist
                  (setMoveCount (moveCount s - 1)%Z
                     (animateBoxMovement (box_id <$> take (count m) target)
                        (to m) (from m) s))))).
Proof.
  intros Hc Ha Hm Htarget. unfold undoMove. rewrite Hc, Ha.
  rewrite bool_decide_eq_false_2
    by (rewrite Hm, length_app; simpl; lia).
  assert (Hlen : length (moves s) - 1 = length hist).
  { rewrite Hm, length_app. simpl. lia. }
  assert (Hlast : moves s !! (length (moves s) - 1) = Some m).
  { rewrite Hlen, Hm. by apply list_lookup_middle. }
  rewrite Hlast. simpl. rewrite Htarget. simpl.
  by rewrite Hlen, Hm, take_app_length.
Qed.

(** X14. A legal move that does not solve the puzzle, followed by Undo: the
    four events (click, timeout, Undo, timeout) go through without raising;
    history and counter are as before the move and nothing is selected; the
    board is as before the move exactly when the destination was empty. *)
Theorem undo_roundtrip (s : Session) (fromIdx toIdx : nat) (src dst : Stack) :
  playing s → timeouts s = [] →
  selectedStackIndex s = Some fromIdx → fromIdx ≠ toIdx →
  stacks s !! fromIdx = Some src → stacks s !! toIdx = Some dst →
  src ≠ [] →
  legalPlacement (getMatchingTopBoxes src) dst →
  completionOf (activeCats s)
               (boardAfterMove (stacks s) fromIdx toIdx src dst) = false →
  ∃ s4,
    run [Click toIdx; Tick; UndoClick; Tick] s = Some s4
    ∧ moves s4 = moves s ∧ moveCount s4 = moveCount s
    ∧ selectedStackIndex s4 = None
    ∧ isAnimating s4 = false ∧ timeouts s4 = []
    ∧ (stacks s4 = stacks s ↔ dst = []).
Proof.
  intros Hplaying Hnil Hsel Hdiff Hsrc Hdst Hne Hlegal Hopen.
  set (group := getMatchingTopBoxes src).
  set (board1 := boardAfterMove (stacks s) fromIdx toIdx src dst) in *.
  destruct (handleStackClick_cases s fromIdx toIdx src dst)
    as [[_ Hclick]|[Hno _]]; [done..| |done].
  fold group in Hclick.
  set (s1 := acceptMove fromIdx toIdx group s) in *.
  set (t1 := mkTimeout (stacks s) (activeCats s) fromIdx toIdx).
  assert (Hts1 : timeouts s1 = [t1]) by (simpl; by rewrite Hnil).
  destruct (runTimeout_Some t1 (setTimeouts [] s1) board1)
    as (s2 & Hrun2 & Hst2 & Hmv2 & Hmc2 & Hsel2 & Hts2 & Ha2 & Hc2 & _).
  { by apply movedStacks_move. }
  simpl in Hmv2, Hmc2, Hsel2, Hts2, Hc2. fold board1 in Hc2.
  rewrite Hopen in Hc2.
  destruct (boardAfterMove_lookup (stacks s) fromIdx toIdx src dst)
    as (Hf1 & Ht1 & _ & Hlen1); [done..|].
  fold board1 group in Hf1, Ht1, Hlen1.
  set (lastMove := mkMove fromIdx toIdx (length group)) in *.
  pose proof (undoMove_last s2 (moves s) lastMove (group ++ dst)
                Hc2 Ha2 Hmv2) as Hundo.
  rewrite Hst2 in Hundo. specialize (Hundo Ht1).
  set (s3 := setIsLost false _) in Hundo.
  set (t3 := mkTimeout (stacks s2) (activeCats s2) toIdx fromIdx).
  assert (Hts3 : timeouts s3 = [t3]) by (simpl; by rewrite Hts2).
  destruct (movedStacks_is_Some board1 toIdx fromIdx) as [board2 Hmoved];
    [rewrite Hlen1; by eapply lookup_lt_Some..|].
  destruct (runTimeout_Some t3 (setTimeouts [] s3) board2)
    as (s4 & Hrun4 & Hst4 & Hmv4 & Hmc4 & Hsel4 & Hts4 & Ha4 & _).
  { simpl. by rewrite Hst2. }
  exists s4. split.
  { cbn [run]. change (step (Click toIdx) s) with (handleStackClick toIdx s).
    rewrite Hclick. cbn [mbind option_bind].
    rewrite (step_Tick_single s1 t1 Hts1), Hrun2. cbn [mbind option_bind].
    change (step UndoClick s2) with (undoMove s2). rewrite Hundo.
    cbn [mbind option_bind].
    by rewrite (step_Tick_single s3 t3 Hts3), Hrun4. }
  simpl in Hmv4, Hmc4, Hsel4, Hts4.
  split; [done|]. split; [rewrite Hmc4, Hmc2; lia|].
  split; [by rewrite Hsel4, Hsel2|]. split; [done|]. split; [done|].
  rewrite Hst4.
  rewrite <- (undo_timeout_restores (stacks s) fromIdx toIdx src dst)
    by done.
  fold board1. rewrite Hmoved. split; [by intros ->|by intros [= ->]].
Qed.

(** ** The Undo button *)

(** X15. In a session that can arise, the Undo button is disabled exactly
    when [undoMove] would do nothing: the condition of the button,
    [moves.length === 0 || (isComplete && !isLost) || isAnimating], and the
    guard of the handler, [moves.length === 0 || isComplete || isAnimating],
    agree because [isComplete] and [isLost] are never set together. *)
Theorem undo_button_matches_guard (s : Session) :
  reachable s →
  ∃ s', undoMove s = Some s' ∧ (undoDisabled s = true ↔ s' = s).
Proof.
  intros Hreach.
  destruct (reachable_undoMove_is_Some s Hreach) as [s' Hundo].
  destruct (reachable_sessionInvariant s Hreach)
    as (_ & _ & _ & _ & _ & _ & Hstuck).
  exists s'. split; [done|]. unfold undoDisabled.
  apply undoMove_inv in Hundo
    as [[-> Hguard]|(Hc & Ha & lastMove & ids & Hsplit & ->)].
  - split; [done|]. intros _.
    destruct Hguard as [Hm|[Hc|Ha]].
    + by rewrite Hm.
    + rewrite Hc. destruct (isLost s); [destruct Hstuck; [done|congruence]|].
      simpl. by rewrite orb_true_r.
    + rewrite Ha. by rewrite orb_true_r.
  - rewrite Hc, Ha, bool_decide_eq_false_2.
    + split; [done|]. intros Heq%(f_equal isAnimating). simpl in Heq.
      congruence.
    + rewrite Hsplit, length_app. simpl. lia.
Qed.

(** ** The highlighted group *)

Lemma filter_Forall_id {A} (P : A → Prop) `{!∀ x, Decision (P x)}
    (l : list A) :
  Forall P l → filter P l = l.
Proof.
  induction 1 as [|x l Hx _ IH]; [done|].
  by rewrite filter_cons_True, IH.
Qed.

Lemma filter_Forall_nil {A} (P : A → Prop) `{!∀ x, Decision (P x)}
    (l : list A) :
  Forall (λ x, ¬ P x) l → filter P l = [].
Proof.
  induction 1 as [|x l Hx _ IH]; [done|].
  by rewrite filter_cons_False.
Qed.

(** X16. The boxes the render draws with a ring, in a stack whose boxes have
    distinct ids, are the top group of the selected stack, the boxes a click
    on a destination would move, and no box of any other stack. *)
Theorem highlight_is_top_group (s : Session) (stackIndex : nat)
    (stack : Stack) :
  NoDup (box_id <$> stack) →
  filter (λ box, isPartOfMatchingGroup s stackIndex stack box = true) stack
  = if bool_decide (selectedStackIndex s = Some stackIndex)
    then getMatchingTopBoxes stack else [].
Proof.
  intros Hnd. unfold isPartOfMatchingGroup, matchingBoxesAt.
  case_bool_decide as Hsel; simpl.
  - set (group := getMatchingTopBoxes stack).
    pose proof (getMatchingTopBoxes_split stack) as Hsplit.
    fold group in Hsplit.
    set (rest := drop (length group) stack) in *.
    set (P := λ box : CatBox,
           existsb (λ matchBox, bool_decide (box_id matchBox = box_id box))
                   group = true).
    change (filter P stack = group).
    rewrite Hsplit in Hnd. rewrite fmap_app in Hnd.
    apply NoDup_app in Hnd as (_ & Hdisj & _).
    rewrite Hsplit at 1. rewrite filter_app.
    rewrite (filter_Forall_id P group), (filter_Forall_nil P rest).
    + by rewrite app_nil_r.
    + apply Forall_forall. intros b Hb HP. unfold P in HP.
      apply existsb_exists in HP as (m & Hm%list_elem_of_In & Hid).
      apply bool_decide_eq_true in Hid.
      apply (Hdisj (box_id m)); [by apply list_elem_of_fmap_2|].
      rewrite Hid. by apply list_elem_of_fmap_2.
    + apply Forall_forall. intros b Hb. unfold P.
      apply existsb_exists. exists b. split; [by apply list_elem_of_In|].
      by apply bool_decide_eq_true.
  - apply filter_Forall_nil, Forall_forall. by intros b _.
Qed.

(** ** Selecting and deselecting *)

(** X17. With nothing selected in a session that takes input, a click on an
    empty stack changes nothing; a click on a stack that holds a box selects
    it, and a second click on the same stack gives the session before the
    first click back. *)
Theorem select_deselect_roundtrip (s : Session) (i : nat) (stack : Stack) :
  playing s → selectedStackIndex s = None → stacks s !! i = Some stack →
  ∃ s1, handleStackClick i s = Some s1
    ∧ (stack = [] → s1 = s)
    ∧ (stack ≠ [] →
         selectedStackIndex s1 = Some i ∧ stacks s1 = stacks s
         ∧ moves s1 = moves s ∧ timeouts s1 = timeouts s
         ∧ run [Click i; Click i] s = Some s).
Proof.
  intros (Hc & Hl & Ha) Hsel Hi.
  assert (Hclick : handleStackClick i s
    = Some (if 0 <? length stack
            then setSelectedStackIndex (Some i) s else s)).
  { unfold handleStackClick. rewrite Hc, Hl, Ha, Hsel. simpl.
    by rewrite Hi. }
  eexists. split; [exact Hclick|]. split; [by intros ->|].
  intros Hne. destruct stack as [|b stack]; [done|]. simpl.
  repeat (split; [done|]).
  cbn [run step]. rewrite Hclick. simpl.
  unfold handleStackClick. simpl. rewrite Hc, Hl, Ha. simpl.
  rewrite bool_decide_eq_true_2 by done. simpl.
  destruct s. simpl in *. by subst.
Qed.

(** ** Finished games *)

(** X18. A session that can arise with [isComplete] or [isLost] set takes no
    more input from the board: every click on a stack and every timeout
    leaves it exactly as it is; when it is complete, so does Undo.  Only
    Reset, a change of difficulty or, for a lost game, Undo lead on. *)
Theorem finished_game_ignores_input (s : Session) :
  reachable s → isComplete s = true ∨ isLost s = true →
  (∀ i, handleStackClick i s = Some s)
  ∧ step Tick s = Some s
  ∧ (isComplete s = true → undoMove s = Some s ∧ undoDisabled s = true)
  ∧ (isLost s = true → undoDisabled s = false ↔ moves s ≠ []).
Proof.
  intros Hreach Hflag.
  destruct (reachable_idle s Hreach Hflag) as [Hnil Ha].
  destruct (reachable_sessionInvariant s Hreach)
    as (_ & _ & _ & _ & _ & _ & Hstuck).
  split.
  { intros i. unfold handleStackClick.
    by destruct Hflag as [-> | ->]; [|rewrite orb_true_r]. }
  split; [simpl; by rewrite Hnil|]. split.
  - intros Hc. unfold undoMove, undoDisabled. rewrite Hc.
    destruct (isLost s); [destruct Hstuck; [done|congruence]|].
    simpl. by rewrite !orb_true_r.
  - intros Hl. unfold undoDisabled. rewrite Hl, Ha.
    destruct (Hstuck Hl) as [-> _]. simpl. rewrite !orb_false_r.
    rewrite bool_decide_eq_false. by destruct (moves s).
Qed.

(** ** Play without Undo stays within capacity *)

Lemma topMismatch_false_legal (dst group : Stack) :
  length dst + length group ≤ MAX_STACK_SIZE →
  topMismatch dst group = Some false →
  legalPlacement group dst.
Proof.
  intros Hcap Hmis. split; [done|].
  destruct dst as [|d dst]; [by left|]. right.
  destruct group as [|g group]; [done|]. simpl in *.
  injection Hmis as Hk. apply negb_false_iff, sameKind_true in Hk.
  by rewrite Hk.
Qed.

Lemma capacityInvariant_step s e s' :
  e ≠ UndoClick → capacityInvariant s → step e s = Some s' →
  capacityInvariant s'.
Proof.
  intros He (Hcap & Htimer & Hpending) Hstep.
  pose proof (timerDiscipline_step s e s' Htimer Hstep) as Htimer'.
  split; [|split; [done|]]; destruct e as [i| |]; try done.
  - apply handleStackClick_inv in Hstep
      as [->|[[sel ->]|[_ (fromIdx & group & _ & _ & ->)]]]; done.
  - apply step_Tick_inv in Hstep as [[_ ->]|(t & rest & Ht & Hrun)]; [done|].
    destruct (Hpending t) as (Hcaptured & Hdiff & src & dst & Hsrc & Hdst & Hl);
      [rewrite Ht; by left|].
    apply runTimeout_inv in Hrun as (ns & Hmoved & -> & _).
    rewrite Hcaptured, (movedStacks_move _ _ _ src dst) in Hmoved by done.
    injection Hmoved as <-. by apply boardAfterMove_withinCapacity.
  - apply handleStackClick_inv_full in Hstep
      as [[_ ->]|[(_ & Hnone & clicked & Hi & ->)
         |[(_ & _ & ->)|((Hc & Hl & Ha) & fromIdx & src & dst & Hfrom & Hdiff
                         & Hsrc & Hdst & [->|(Hroom & Hmis & ->)])]]];
      try done.
    + by destruct (0 <? length clicked).
    + assert (Hnil : timeouts s = []).
      { destruct Htimer as [?|[? _]]; [done|congruence]. }
      simpl. rewrite Hnil. simpl.
      intros t [->|?%elem_of_nil]%elem_of_cons; [|done]. simpl.
      split; [done|]. split; [done|]. exists src, dst.
      split; [done|]. split; [done|]. by apply topMismatch_false_legal.
  - apply step_Tick_inv in Hstep as [[_ ->]|(t & rest & Ht & Hrun)]; [done|].
    apply runTimeout_inv in Hrun as (ns & _ & _ & _ & _ & Hts & _).
    rewrite Hts. simpl.
    assert (rest = []) as ->.
    { destruct Htimer as [Hnil|(_ & _ & Hlen)]; [congruence|].
      rewrite Ht in Hlen. by destruct rest. }
    by intros ? ?%elem_of_nil.
Qed.

(** X19. As long as Undo is not used, no stack ever holds more than
    [MAX_STACK_SIZE] boxes: from a session at rest whose board is within
    capacity, every run of clicks and timeouts ends on a board within
    capacity. *)
Theorem play_without_undo_within_capacity (s : Session) (es : list Event)
    (s' : Session) :
  withinCapacity (stacks s) → timeouts s = [] → UndoClick ∉ es →
  run es s = Some s' →
  withinCapacity (stacks s').
Proof.
  intros Hcap Hnil Hes Hrun.
  assert (Hinv : capacityInvariant s).
  { split; [done|]. split; [by left|]. rewrite Hnil.
    by intros ? ?%elem_of_nil. }
  clear Hcap Hnil.
  assert (capacityInvariant s') as [? _]; [|done].
  revert s Hinv Hrun. induction es as [|e es IH]; intros s Hinv; simpl.
  { by intros [= <-]. }
  apply not_elem_of_cons in Hes as [He Hes].
  destruct (step e s) as [s1|] eqn:Hstep; simpl; [|done].
  apply IH; [done|]. by eapply capacityInvariant_step.
Qed.

(** ** The evaluator and the player *)

(** X20. On a board without empty stack, in a session that takes input with
    nothing selected, [checkForValidMoves] answers [true] exactly when two
    clicks can make a move: the evaluator and [handleStackClick] agree on
    what a legal move is. *)
Theorem valid_move_can_be_played (s : Session) :
  playing s → selectedStackIndex s = None →
  (∀ stack, stack ∈ stacks s → stack ≠ []) →
  ∃ b, checkForValidMoves (stacks s) = Some b
    ∧ (b = true ↔
         ∃ i j s2, run [Click i; Click j] s = Some s2 ∧ moves s2 ≠ moves s).
Proof.
  intros Hplaying Hnone Hne.
  destruct (checkForValidMoves_no_empty (stacks s) Hne) as (b & Hb & Hiff).
  exists b. split; [done|]. rewrite Hiff.
  assert (Hneq : ∀ (l : list Move) x, l ++ [x] ≠ l).
  { intros l x Heq%(f_equal length). rewrite length_app in Heq.
    simpl in Heq. lia. }
  assert (Hselect : ∀ i src, stacks s !! i = Some src → src ≠ [] →
            handleStackClick i s = Some (setSelectedStackIndex (Some i) s)).
  { intros i src Hi Hsrc. destruct Hplaying as (Hc & Hl & Ha).
    unfold handleStackClick. rewrite Hc, Hl, Ha, Hnone. simpl.
    rewrite Hi. simpl. by destruct src. }
  split.
  - intros (i & j & Hij & src & dst & Hi & Hj & Hsrc & Hlegal).
    destruct (handleStackClick_cases (setSelectedStackIndex (Some i) s)
                i j src dst) as [[_ Hclick]|[Hno _]]; [done..| |done].
    eexists i, j, _. split.
    + cbn [run step]. rewrite (Hselect i src Hi Hsrc). cbn [mbind option_bind].
      rewrite Hclick. done.
    + simpl. apply Hneq.
  - intros (i & j & s2 & Hrun & Hmoves). cbn [run step] in Hrun.
    destruct (handleStackClick i s) as [s1|] eqn:Hfirst; [|done].
    cbn [mbind option_bind] in Hrun.
    destruct (handleStackClick j s1) as [s2'|] eqn:Hsecond; [|done].
    injection Hrun as ->.
    apply handleStackClick_inv_full in Hfirst
      as [[Hno _]|[(_ & _ & src & Hi & ->)
         |[(_ & Hsel & _)|(_ & f & _ & _ & Hsel & _)]]];
      [done| |congruence..].
    assert (Hsrc : src ≠ []).
    { apply Hne. by eapply list_elem_of_lookup_2. }
    destruct src as [|b0 src']; [done|]. simpl in Hsecond.
    apply handleStackClick_inv_full in Hsecond
      as [[_ ->]|[(_ & Hsel & _)
         |[(_ & _ & ->)|(_ & f & src2 & dst & Hsel & Hdiff & Hsrc2 & Hdst
                         & [->|(Hroom & Hmis & ->)])]]];
      [done|done|done|done|].
    simpl in Hsel, Hsrc2, Hdst. injection Hsel as <-.
    exists i, j. split; [done|]. exists src2, dst.
    split; [done|]. split; [done|]. split.
    + apply Hne. by eapply list_elem_of_lookup_2.
    + by apply topMismatch_false_legal.
Qed.

(** ** More instances of the theorems with hypotheses *)

Lemma demoFinishing_reachable : reachable demoFinishing.
Proof.
  eapply (run_reachable (take 26 demoSolution));
    [apply demoSession_reachable|vm_compute; reflexivity].
Qed.

Lemma sampleCats_NoDup : NoDup (cat_id <$> sampleCats).
Proof. apply (bool_decide_unpack _). vm_compute. exact I. Defined.

Lemma createBoxes_ids_unique_witness :
  NoDup (box_id <$> createBoxes sampleCats)
  ∧ length (createBoxes sampleCats) = 8.
Proof.
  destruct (createBoxes_ids_unique sampleCats sampleCats_NoDup)
    as (Hnd & Hlen & _).
  split; [exact Hnd|exact Hlen].
Defined.

Lemma randomOtherStack_different_witness :
  ∃ r g', randomOtherStack 1 4 demoRng = Returned (r, g') ∧ r < 4 ∧ r ≠ 1.
Proof.
  apply (randomOtherStack_different 1 4 ltac:(lia) ltac:(lia) demoRng).
Defined.

Lemma initializeGame_overfull_diverges_witness :
  length placeholderCats = 8
  ∧ initializeGame 3 placeholderCats (DIFFICULTY_CONFIG easy)
                   (initialSession easy false) demoRng
    = Diverged.
Proof.
  split; [reflexivity|].
  apply initializeGame_overfull_diverges; simpl; lia.
Defined.

Lemma step_preserves_boxes_witness :
  ∃ s', step Tick demoMoving = Some s'
    ∧ stacks s' ≠ stacks demoMoving
    ∧ concat (stacks s') ≡ₚ concat (stacks demoMoving)
    ∧ length (stacks s') = length (stacks demoMoving).
Proof.
  eexists. split; [vm_compute; reflexivity|]. split.
  { intros Heq%(f_equal (fmap length)). vm_compute in Heq. discriminate. }
  apply (step_preserves_boxes demoMoving Tick _ demoMoving_reachable).
  vm_compute. reflexivity.
Defined.

Lemma reachable_board_census_witness :
  length (stacks demoEmptySelected) = 6
  ∧ length (activeCats demoEmptySelected) = 4
  ∧ kindCount "cat-1" (stacks demoEmptySelected) = 4
  ∧ kindCount "cat-0" (stacks demoEmptySelected) = 0.
Proof.
  destruct (reachable_board_census demoEmptySelected
              demoEmptySelected_reachable)
    as (Hstacks & Hcats & _ & _ & Hcnt).
  split; [exact Hstacks|]. split; [exact Hcats|].
  split; [exact (Hcnt "cat-1")|exact (Hcnt "cat-0")].
Defined.

Lemma reachable_flags_sound_witness :
  isComplete demoSolved = true
  ∧ sortedBoard (activeCats demoSolved) (stacks demoSolved)
  ∧ isLost demoSolved = false.
Proof.
  destruct (reachable_flags_sound demoSolved demoSolved_reachable)
    as [Hcomplete _].
  destruct (Hcomplete eq_refl) as (Hsorted & Hlost & _).
  split; [reflexivity|]. split; [exact Hsorted|exact Hlost].
Defined.

Lemma timeout_evaluates_position_witness :
  ∃ s', step Tick demoFinishing = Some s'
    ∧ isComplete s' = true
    ∧ sortedBoard (activeCats s') (stacks s')
    ∧ isLost s' = false.
Proof.
  destruct (timeout_evaluates_position demoFinishing demoFinishing_reachable)
    as (s' & Hstep & _ & _ & _ & _ & Hcomplete & Hlost);
    [discriminate|].
  assert (Hs' : step Tick demoFinishing = Some demoSolved)
    by (vm_compute; reflexivity).
  assert (s' = demoSolved) as -> by congruence.
  exists demoSolved. split; [exact Hs'|].
  split; [reflexivity|]. split; [by apply Hcomplete|reflexivity].
Defined.

Lemma reachable_no_raise_witness :
  selectedStackIndex demoEmptySelected = Some 4
  ∧ stacks demoEmptySelected !! 4 = Some []
  ∧ handleStackClick 0 demoEmptySelected = None
  ∧ is_Some (undoMove demoEmptySelected).
Proof.
  destruct (reachable_no_raise demoEmptySelected demoEmptySelected_reachable)
    as (Hundo & _ & Hclick).
  split; [reflexivity|]. split; [reflexivity|]. split; [|exact Hundo].
  apply (Hclick 0); [vm_compute; lia|].
  split; [done|]. eexists 4, _.
  split; [reflexivity|]. split; [lia|]. split; [reflexivity|].
  split; [reflexivity|]. split; [discriminate|]. vm_compute. lia.
Defined.

Lemma demoEmptySelected_playing : playing demoEmptySelected.
Proof. done. Defined.

Lemma empty_source_move_witness :
  ∃ s1 s2,
    handleStackClick 5 demoEmptySelected = Some s1
    ∧ moves s1 = [mkMove 4 5 0] ∧ moveCount s1 = 1%Z
    ∧ step Tick s1 = Some s2
    ∧ stacks s2 = stacks demoEmptySelected.
Proof.
  destruct (empty_source_move demoEmptySelected 4 5
              demoEmptySelected_playing eq_refl eq_refl ltac:(lia)
              eq_refl eq_refl)
    as (s1 & s2 & Hclick & Hmoves & Hcount & _ & _ & Htick & Hstacks & _).
  exists s1, s2. split; [exact Hclick|]. split; [exact Hmoves|].
  split; [exact Hcount|]. split; [exact Htick|exact Hstacks].
Defined.

Lemma undo_roundtrip_witness :
  ∃ s4,
    run [Click 2; Tick; UndoClick; Tick] sampleSession = Some s4
    ∧ moves s4 = [] ∧ moveCount s4 = 0%Z
    ∧ stacks s4 = sampleBoard.
Proof.
  assert (Hlegal : legalPlacement
    (getMatchingTopBoxes [sampleBox 0 0; sampleBox 0 1; sampleBox 1 0]) []).
  { split; [vm_compute; lia|]. by left. }
  destruct (undo_roundtrip sampleSession 0 2
              [sampleBox 0 0; sampleBox 0 1; sampleBox 1 0] []
              sampleSession_playing eq_refl eq_refl ltac:(lia)
              eq_refl eq_refl ltac:(discriminate) Hlegal)
    as (s4 & Hrun & Hmoves & Hcount & _ & _ & _ & Hboard).
  { vm_compute. reflexivity. }
  exists s4. split; [exact Hrun|]. split; [exact Hmoves|].
  split; [exact Hcount|]. by apply Hboard.
Defined.

Lemma undo_button_matches_guard_witness :
  undoDisabled demoSolved = true ∧ undoMove demoSolved = Some demoSolved.
Proof.
  destruct (undo_button_matches_guard demoSolved demoSolved_reachable)
    as (s' & Hundo & Hiff).
  assert (Hdisabled : undoDisabled demoSolved = true) by reflexivity.
  split; [exact Hdisabled|].
  rewrite Hundo. f_equal. by apply Hiff.
Defined.

Lemma highlight_is_top_group_witness :
  filter (λ box, isPartOfMatchingGroup sampleSession 0
                   [sampleBox 0 0; sampleBox 0 1; sampleBox 1 0] box = true)
         [sampleBox 0 0; sampleBox 0 1; sampleBox 1 0]
  = [sampleBox 0 0; sampleBox 0 1].
Proof.
  rewrite (highlight_is_top_group sampleSession 0
             [sampleBox 0 0; sampleBox 0 1; sampleBox 1 0]).
  - vm_compute. reflexivity.
  - apply (bool_decide_unpack _). vm_compute. exact I.
Defined.

Lemma demoSession_playing : playing demoSession.
Proof. done. Defined.

Lemma select_deselect_roundtrip_witness :
  ∃ s1, handleStackClick 0 demoSession = Some s1
    ∧ selectedStackIndex s1 = Some 0
    ∧ run [Click 0; Click 0] demoSession = Some demoSession.
Proof.
  assert (Hstack : stacks demoSession !! 0
                   = Some (default [] (stacks demoSession !! 0)))
    by reflexivity.
  destruct (select_deselect_roundtrip demoSession 0 _
              demoSession_playing eq_refl Hstack)
    as (s1 & Hclick & _ & Hselect).
  destruct Hselect as (Hsel & _ & _ & _ & Hrun); [discriminate|].
  exists s1. split; [exact Hclick|]. split; [exact Hsel|exact Hrun].
Defined.

Lemma finished_game_ignores_input_witness :
  handleStackClick 0 demoSolved = Some demoSolved
  ∧ step Tick demoSolved = Some demoSolved
  ∧ undoMove demoSolved = Some demoSolved.
Proof.
  destruct (finished_game_ignores_input demoSolved demoSolved_reachable)
    as (Hclick & Htick & Hundo & _); [by left|].
  split; [exact (Hclick 0)|]. split; [exact Htick|].
  by destruct (Hundo eq_refl).
Defined.

Lemma play_without_undo_within_capacity_witness :
  run demoSolution demoSession = Some demoSolved
  ∧ withinCapacity (stacks demoSolved).
Proof.
  assert (Hrun : run demoSolution demoSession = Some demoSolved)
    by (vm_compute; reflexivity).
  split; [exact Hrun|].
  apply (play_without_undo_within_capacity demoSession demoSolution);
    [|reflexivity| |exact Hrun].
  - unfold withinCapacity. apply Forall_forall.
    repeat constructor; vm_compute; lia.
  - unfold demoSolution. rewrite !not_elem_of_cons.
    repeat (split; [discriminate|]). apply not_elem_of_nil.
Defined.

Lemma crowdedSession_playing : playing crowdedSession.
Proof. done. Defined.

Lemma valid_move_can_be_played_witness :
  checkForValidMoves (stacks crowdedSession) = Some true
  ∧ ∃ i j s2, run [Click i; Click j] crowdedSession = Some s2
      ∧ moves s2 ≠ moves crowdedSession.
Proof.
  destruct (valid_move_can_be_played crowdedSession
              crowdedSession_playing eq_refl)
    as (b & Hb & Hiff).
  { apply Forall_forall. repeat constructor; discriminate. }
  assert (Htrue : checkForValidMoves (stacks crowdedSession) = Some true)
    by (vm_compute; reflexivity).
  split; [exact Htrue|]. apply Hiff. congruence.
Defined.

Lemma completion_notified_once_witness :
  step Tick demoFinishing = Some demoSolved
  ∧ onComplete demoFinishing = true
  ∧ isComplete demoFinishing = false ∧ isComplete demoSolved = true
  ∧ notified demoFinishing = 0 ∧ notified demoSolved = 1
  ∧ (∀ i, ∃ s', step (Click i) demoSolved = Some s'
        ∧ isComplete s' = true ∧ notified s' = 1).
Proof.
  assert (Hstep : step Tick demoFinishing = Some demoSolved)
    by (vm_compute; reflexivity).
  destruct (completion_notified_once demoFinishing Tick demoSolved
              demoFinishing_reachable Hstep) as (Hiff & _ & _).
  assert (Hfired : notified demoSolved = S (notified demoFinishing)).
  { apply (proj2 Hiff). split; [reflexivity|split; reflexivity]. }
  split; [exact Hstep|]. split; [reflexivity|]. split; [reflexivity|].
  split; [reflexivity|]. split; [reflexivity|]. split; [exact Hfired|].
  intros i.
  assert (Hclick : step (Click i) demoSolved = Some demoSolved)
    by reflexivity.
  exists demoSolved. split; [exact Hclick|].
  destruct (completion_notified_once demoSolved (Click i) demoSolved
              demoSolved_reachable Hclick) as (_ & _ & Hstays).
  destruct (Hstays eq_refl) as [Hc Hn]. split; [exact Hc|exact Hn].
Defined.

Lemma moveCount_tracks_history_witness :
  moves demoMoved = [mkMove 1 4 3] ∧ moveCount demoMoved = 1%Z
  ∧ ∃ s', undoMove demoMoved = Some s'
      ∧ moves s' = [] ∧ moveCount s' = 0%Z.
Proof.
  split; [reflexivity|]. split; [reflexivity|].
  destruct (moveCount_tracks_history demoMoved demoMoved_reachable)
    as (_ & _ & _ & _ & _ & _ & s' & Hundo & _ & Hdecrement).
  destruct Hdecrement as ((m & Hm) & Hcount & _);
    [discriminate|reflexivity|reflexivity|].
  exists s'. split; [exact Hundo|]. split; [|exact Hcount].
  destruct (moves s') as [|m0 [|m1 hist]]; [reflexivity|discriminate..].
Defined.
